(** * The trident adapter: reordering window and tunnel decapsulation

    A shallow embedding of [adapter/trident_adapter.go] (the per-sender,
    per-dispatcher reordering window [cacheLookup], the routing function
    [findAndAdd] and the helpers [calcHash] and [minPowerOfTwo]) together
    with the properties the specification states about them.

    Go's [uint64], [uint32] and [uint8] values are integers in [Z] with the
    wrap-around written out ([u64], [u32], [u8]); [time.Duration] is a signed
    64-bit integer ([i64]).  A slice is a list; an index out of range is a
    run-time panic in Go, which the embedding renders as [None]. *)

From Stdlib Require Import ZArith Lia Bool.
From stdpp Require Import base option list sorting gmap.

Local Open Scope Z_scope.

(** ** Machine integers *)

Definition u64 (x : Z) : Z := x mod 2 ^ 64.
Definition u32 (x : Z) : Z := x mod 2 ^ 32.
Definition u8 (x : Z) : Z := x mod 2 ^ 8.
Definition i64 (x : Z) : Z := (x + 2 ^ 63) mod 2 ^ 64 - 2 ^ 63.

(** ** Slices *)

(** [s[i]]: reading out of range panics. *)
Definition index {A} (l : list A) (i : Z) : option A :=
  if decide (0 <= i) then l !! Z.to_nat i else None.

(** [s[i] = v]: writing out of range panics. *)
Definition store {A} (l : list A) (i : Z) (v : A) : option (list A) :=
  if decide (0 <= i < Z.of_nat (length l)) then Some (<[Z.to_nat i := v]> l) else None.

(** [make([]T, n)]: [n] zero values. *)
Definition make {A} (n : Z) (zero : A) : list A := replicate (Z.to_nat n) zero.

(** ** Constants *)

Definition second : Z := 1000000000.
Definition TRIDENT_TIMEOUT : Z := 2 * second.
Definition BATCH_SIZE : Z := 128.
Definition TRIDENT_DISPATCHER_MAX : Z := 16.

(** ** Data *)

Module Decoder.
(** Modelled from the spec: the type [SequentialDecoder] is declared in a
    file that is not part of the verified sources.  Only what
    [trident_adapter.go] reads of it is kept: the result of [Seq()], a
    [uint64]; the field [timestamp], a [time.Duration] (it is compared with
    and assigned to [maxTimestamp]); and [tridentDispatcherIndex]. *)
Record SequentialDecoder := mk {
  Seq : Z;
  timestamp : Z;
  tridentDispatcherIndex : Z
}.
End Decoder.
Export Decoder (SequentialDecoder, Seq, tridentDispatcherIndex).

Record packetBuffer := mkPacket {
  buffer : list Z;
  tridentIp : Z;
  decoder : SequentialDecoder;
  hash : Z
}.

Record tridentDispatcher := mkDispatcher {
  cache : list (option packetBuffer);
  timestamp : list Z;
  maxTimestamp : Z;
  dropped : Z;
  seq : Z;
  startIndex : Z
}.

(** What a call does to the outside: a packet handed to a slave queue
    ([slaves[k].put(p)]) or given back to the pool ([releasePacketBuffer]). *)
Inductive event :=
  | Put (slave : Z) (p : packetBuffer)
  | Release (p : packetBuffer).

(** Field updates of a dispatcher. *)
Definition set_cache (d : tridentDispatcher) (c : list (option packetBuffer)) :=
  mkDispatcher c (timestamp d) (maxTimestamp d) (dropped d) (seq d) (startIndex d).
Definition set_timestamp (d : tridentDispatcher) (t : list Z) :=
  mkDispatcher (cache d) t (maxTimestamp d) (dropped d) (seq d) (startIndex d).
Definition set_maxTimestamp (d : tridentDispatcher) (t : Z) :=
  mkDispatcher (cache d) (timestamp d) t (dropped d) (seq d) (startIndex d).
Definition set_dropped (d : tridentDispatcher) (n : Z) :=
  mkDispatcher (cache d) (timestamp d) (maxTimestamp d) n (seq d) (startIndex d).
Definition set_seq (d : tridentDispatcher) (s : Z) :=
  mkDispatcher (cache d) (timestamp d) (maxTimestamp d) (dropped d) s (startIndex d).
Definition set_startIndex (d : tridentDispatcher) (i : Z) :=
  mkDispatcher (cache d) (timestamp d) (maxTimestamp d) (dropped d) (seq d) i.

(** [dispatcher.cache[i] = v] and [dispatcher.timestamp[i] = t]. *)
Definition cache_put (d : tridentDispatcher) (i : Z) (v : option packetBuffer)
  : option tridentDispatcher :=
  c ← store (cache d) i v; Some (set_cache d c).
Definition timestamp_put (d : tridentDispatcher) (i : Z) (t : Z)
  : option tridentDispatcher :=
  c ← store (timestamp d) i t; Some (set_timestamp d c).

(** ** [calcHash] and [minPowerOfTwo] *)

Definition calcHash (p : packetBuffer) : Z :=
  let h := Z.lxor (tridentIp p) (u32 (tridentDispatcherIndex (decoder p))) in
  let h8 := Z.lxor (Z.lxor (Z.lxor (u8 (Z.shiftr h 24)) (u8 (Z.shiftr h 16)))
                           (u8 (Z.shiftr h 8))) (u8 h) in
  Z.lxor (Z.lxor (Z.lxor (Z.shiftr h8 6) (Z.shiftr h8 4)) (Z.shiftr h8 2)) h8.

Fixpoint minPowerOfTwo_from (n : nat) (i : Z) (v : Z) : Z :=
  match n with
  | O => Z.shiftl 1 30
  | S k => if v <=? Z.shiftl 1 i then Z.shiftl 1 i else minPowerOfTwo_from k (i + 1) v
  end.

Definition minPowerOfTwo (v : Z) : Z := minPowerOfTwo_from 30 0 v.

(** ** [cacheLookup] *)

(** The dispatcher together with the locals [dropped] and [offset] of
    [cacheLookup] and the events emitted so far. *)
Record frame := mkFrame {
  fd : tridentDispatcher;
  fdropped : Z;
  foffset : Z;
  fout : list event
}.

Section CacheLookup.
(** [cacheSize] and [len(slaves)]. *)
Variables (cacheSize nslaves : Z).

Definition mask (x : Z) : Z := Z.land (u64 x) (u64 (cacheSize - 1)).

(** [slaves[p.hash&uint8(len(slaves)-1)].put(p)] *)
Definition put (p : packetBuffer) (out : list event) : option (list event) :=
  let k := Z.land (hash p) (u8 (nslaves - 1)) in
  if decide (k < nslaves) then Some (out ++ [Put k p]) else None.

(** The loop of the restart branch, with [n] iterations left:
    [for i := 0; i < cacheSize; i++ { release and clear slot i }]. *)
Fixpoint purge (n : nat) (i : Z) (d : tridentDispatcher) (out : list event)
  : option (tridentDispatcher * list event) :=
  match n with
  | O => Some (d, out)
  | S k =>
      c ← index (cache d) i;
      '(d1, out1) ← match c with
                    | Some p => d' ← cache_put d i None; Some (d', out ++ [Release p])
                    | None => Some (d, out)
                    end;
      d2 ← timestamp_put d1 i 0;
      purge k (i + 1) d2 out1
  end.

(** The restart branch (source lines 156 to 173). *)
Definition restart (sq : Z) (d : tridentDispatcher) (out : list event)
  : option (tridentDispatcher * list event) :=
  '(d1, out1) ← purge (Z.to_nat cacheSize) 0 d out;
  let d2 := if cacheSize <? sq then set_seq d1 (u64 (sq - cacheSize)) else set_seq d1 1 in
  Some (set_startIndex d2 0, out1).

(** One iteration of the forced flush (source lines 190 to 200). *)
Definition forceStep (i : Z) (st : frame) : option frame :=
  let d := fd st in
  c ← index (cache d) (startIndex d);
  '(d1, dr, out) ← match c with
                   | Some p =>
                       out ← put p (fout st);
                       d' ← cache_put d (startIndex d) None;
                       Some (d', fdropped st, out)
                   | None => Some (d, u64 (fdropped st + 1), fout st)
                   end;
  d2 ← timestamp_put d1 i 0;
  let d3 := set_seq d2 (u64 (seq d2 + 1)) in
  let d4 := set_startIndex d3 (mask (startIndex d3 + 1)) in
  Some (mkFrame d4 dr (u64 (foffset st - 1)) out).

(** [for i := 0; i < cacheSize && offset >= cacheSize; i++], with [n]
    iterations left before [i] reaches [cacheSize]. *)
Fixpoint forceFlush (n : nat) (i : Z) (st : frame) : option frame :=
  match n with
  | O => Some st
  | S k =>
      if cacheSize <=? foffset st
      then st' ← forceStep i st; forceFlush k (i + 1) st'
      else Some st
  end.

(** The bulk advance (source lines 202 to 208). *)
Definition bulkGap (st : frame) : frame :=
  if cacheSize <=? foffset st then
    let gap := u64 (u64 (foffset st - cacheSize) + 1) in
    let d := fd st in
    let d1 := set_seq d (u64 (seq d + gap)) in
    let d2 := set_startIndex d1 (mask (startIndex d1 + gap)) in
    mkFrame d2 (u64 (fdropped st + gap)) (u64 (foffset st - gap)) (fout st)
  else st.

(** The loop that stamps the slots still missing before [current]
    (source lines 214 to 220).  The source bounds it only by its exit
    tests; [fuel] running out is reported as [None]. *)
Fixpoint backfill (ts : Z) (fuel : nat) (i : Z) (d : tridentDispatcher)
  : option tridentDispatcher :=
  if i =? startIndex d then Some d
  else match fuel with
       | O => None
       | S k =>
           let i' := mask (i - 1) in
           c ← index (cache d) i';
           match c with
           | Some _ => Some d
           | None => d' ← timestamp_put d i' ts; backfill ts k i' d'
           end
       end.

(** One iteration of the final flush (source lines 224 to 238); [inl] is
    [break]. *)
Definition flushStep (ts : Z) (i : Z) (st : frame) : option (frame + frame) :=
  let d := fd st in
  c ← index (cache d) (startIndex d);
  r ← match c with
      | Some p =>
          out ← put p (fout st);
          d' ← cache_put d (startIndex d) None;
          Some (inr (d', fdropped st, out))
      | None =>
          t ← index (timestamp d) (startIndex d);
          if t =? 0 then Some (inl st)
          else if TRIDENT_TIMEOUT <? i64 (ts - t)
               then Some (inr (d, u64 (fdropped st + 1), fout st))
               else Some (inl st)
      end;
  match r with
  | inl st' => Some (inl st')
  | inr (d1, dr, out) =>
      d2 ← timestamp_put d1 i 0;
      let d3 := set_seq d2 (u64 (seq d2 + 1)) in
      let d4 := set_startIndex d3 (mask (startIndex d3 + 1)) in
      Some (inr (mkFrame d4 dr (foffset st) out))
  end.

(** [for i := 0; i < cacheSize; i++], with [n] iterations left. *)
Fixpoint flush (ts : Z) (n : nat) (i : Z) (st : frame) : option frame :=
  match n with
  | O => Some st
  | S k =>
      r ← flushStep ts i st;
      match r with
      | inl st' => Some st'
      | inr st' => flush ts k (i + 1) st'
      end
  end.

(** Source lines 183 to 247: everything after the backward test. *)
Definition insert (packet : packetBuffer) (d : tridentDispatcher) (out : list event)
  : option (tridentDispatcher * list event * Z * Z) :=
  let sq := Seq (decoder packet) in
  let ts := Decoder.timestamp (decoder packet) in
  let d := if maxTimestamp d <? ts then set_maxTimestamp d ts else d in
  st1 ← forceFlush (Z.to_nat cacheSize) 0 (mkFrame d 0 (u64 (sq - seq d)) out);
  let st2 := bulkGap st1 in
  let current := mask (startIndex (fd st2) + foffset st2) in
  d3 ← cache_put (fd st2) current (Some packet);
  d4 ← timestamp_put d3 current ts;
  d5 ← backfill ts (Z.to_nat cacheSize) current d4;
  st6 ← flush ts (Z.to_nat cacheSize) 0 (mkFrame d5 (fdropped st2) (foffset st2) (fout st2));
  let d6 := fd st6 in
  let d7 := if 0 <? fdropped st6 then set_dropped d6 (u64 (dropped d6 + fdropped st6)) else d6 in
  Some (d7, fout st6, fdropped st6, 0).

(** [cacheLookup]: the new dispatcher, the events of the call, and the two
    results [(dropped, reorder drops)]. *)
Definition cacheLookup (d : tridentDispatcher) (packet : packetBuffer)
  : option (tridentDispatcher * list event * Z * Z) :=
  let sq := Seq (decoder packet) in
  let ts := Decoder.timestamp (decoder packet) in
  let d := if seq d =? 0 then set_seq d sq else d in
  if sq <? seq d then
    if maxTimestamp d <? ts then
      '(d1, out) ← restart sq d [];
      insert packet d1 out
    else Some (d, [Release packet], 0, 1)
  else insert packet d [].

End CacheLookup.

(** A window as [findAndAdd] creates it. *)
Definition freshDispatcher (cacheSize : Z) : tridentDispatcher :=
  mkDispatcher (make cacheSize None) (make cacheSize 0) 0 0 0 0.

(** Feeding packets to one window, one [cacheLookup] after the other: the
    final window, all events in order, and the sums of the two results. *)
Fixpoint feed (cacheSize nslaves : Z) (d : tridentDispatcher) (ps : list packetBuffer)
  : option (tridentDispatcher * list event * Z * Z) :=
  match ps with
  | [] => Some (d, [], 0, 0)
  | p :: ps' =>
      '(d1, out1, dr1, ex1) ← cacheLookup cacheSize nslaves d p;
      '(d2, out2, dr2, ex2) ← feed cacheSize nslaves d1 ps';
      Some (d2, out1 ++ out2, dr1 + dr2, ex1 + ex2)
  end.

(** The packets handed downstream, and their sequence numbers. *)
Definition delivered (out : list event) : list packetBuffer :=
  omap (fun e => match e with Put _ p => Some p | Release _ => None end) out.
Definition deliveredSeqs (out : list event) : list Z :=
  (fun p => Seq (decoder p)) <$> delivered out.
Definition released (out : list event) : list packetBuffer :=
  omap (fun e => match e with Release p => Some p | Put _ _ => None end) out.

(** A packet with sequence [s] and timestamp [t] (dispatcher 0, hash 0). *)
Definition pkt (s t : Z) : packetBuffer := mkPacket [] 0 (Decoder.mk s t 0) 0.


(** ** [findAndAdd] and the receive loop *)

(** Modelled from the spec: [PacketCounter] is declared in a file that is not
    part of the verified sources; the specification lists its counters, and
    [findAndAdd] adds [uint64] values to them. *)
Record PacketCounter := mkCounter {
  RxPackets : Z;
  RxDropped : Z;
  RxExpired : Z;
  RxErrors : Z
}.

(** [dispatchers [TRIDENT_DISPATCHER_MAX]tridentDispatcher] *)
Abbreviation tridentInstance := (list tridentDispatcher) (only parsing).

Record TridentAdapter := mkAdapter {
  counter : PacketCounter;
  stats : PacketCounter;
  cacheSize : Z;
  instances : gmap Z tridentInstance;
  slaves : Z
}.

(** The zero value of a dispatcher: nil slices, zero numbers. *)
Definition zeroDispatcher : tridentDispatcher := mkDispatcher [] [] 0 0 0 0.

Definition zeroInstance : tridentInstance :=
  replicate (Z.to_nat TRIDENT_DISPATCHER_MAX) zeroDispatcher.

Definition zeroCounter : PacketCounter := mkCounter 0 0 0 0.

(** [NewTridentAdapter] with [nqueues] queues, as far as the state modelled
    here goes. *)
Definition NewTridentAdapter (nqueues : Z) (size : Z) : TridentAdapter :=
  mkAdapter zeroCounter zeroCounter (u64 (minPowerOfTwo size)) ∅ nqueues.

(** [dispatcher.cache = make(...); dispatcher.timestamp = make(...)] *)
Definition allocate (C : Z) (d : tridentDispatcher) : tridentDispatcher :=
  set_timestamp (set_cache d (make C None)) (make C 0).

(** The three counter updates of [findAndAdd]. *)
Definition count (c : PacketCounter) (rxDropped rxExpired : Z) : PacketCounter :=
  mkCounter (u64 (RxPackets c + 1)) (u64 (RxDropped c + rxDropped))
            (u64 (RxExpired c + rxExpired)) (RxErrors c).

Definition findAndAdd (a : TridentAdapter) (packet : packetBuffer)
  : option (TridentAdapter * list event) :=
  let ix := tridentDispatcherIndex (decoder packet) in
  instance ← match instances a !! tridentIp packet return option tridentInstance with
             | None =>
                 dispatcher ← index zeroInstance ix;
                 store zeroInstance ix (allocate (cacheSize a) dispatcher)
             | Some instance => Some instance
             end;
  dispatcher ← index instance ix;
  let dispatcher := match cache dispatcher with
                    | [] => allocate (cacheSize a) dispatcher
                    | _ => dispatcher
                    end in
  '(d, out, rxDropped, rxExpired) ← cacheLookup (cacheSize a) (slaves a) dispatcher packet;
  instance' ← store instance ix d;
  Some (mkAdapter (count (counter a) rxDropped rxExpired)
                  (count (stats a) rxDropped rxExpired)
                  (cacheSize a)
                  (<[tridentIp packet := instance']> (instances a))
                  (slaves a),
        out).

(** What [run] does with one datagram of a batch.  [DecodeHeader] is not
    part of the verified sources: its verdict [invalid] comes with the
    packet. *)
Definition receive (a : TridentAdapter) (invalid : bool) (packet : packetBuffer)
  : option (TridentAdapter * list event) :=
  if invalid then
    let bump c := mkCounter (RxPackets c) (RxDropped c) (RxExpired c) (u64 (RxErrors c + 1)) in
    Some (mkAdapter (bump (counter a)) (bump (stats a)) (cacheSize a) (instances a) (slaves a),
          [Release packet])
  else
    findAndAdd a (mkPacket (buffer packet) (tridentIp packet) (decoder packet)
                           (calcHash packet)).

Fixpoint receiveAll (a : TridentAdapter) (batch : list (bool * packetBuffer))
  : option (TridentAdapter * list event) :=
  match batch with
  | [] => Some (a, [])
  | (invalid, packet) :: rest =>
      '(a1, out1) ← receive a invalid packet;
      '(a2, out2) ← receiveAll a1 rest;
      Some (a2, out1 ++ out2)
  end.

(** ** The tunnel decapsulator *)

Module Datatype.

Inductive TunnelType := TUNNEL_TYPE_NONE | TUNNEL_TYPE_ERSPAN | TUNNEL_TYPE_VXLAN.

Record TunnelInfo := mkTunnel {
  Src : Z;
  Dst : Z;
  Id : Z;
  Type_ : TunnelType
}.

Definition ETH_HEADER_SIZE : Z := 14.
Definition OFFSET_IP_PROTOCOL : Z := 23.
Definition OFFSET_SIP : Z := 26.
Definition OFFSET_DIP : Z := 30.
Definition OFFSET_DPORT : Z := 36.
Definition OFFSET_GRE_PROTOCOL : Z := 36.
Definition OFFSET_ERSPAN : Z := 38.
Definition OFFSET_VXLAN_FLAGS : Z := 42.
Definition OFFSET_VXLAN_VNI : Z := 46.
Definition IPProtocolUDP : Z := 17.
Definition IPProtocolGRE : Z := 47.

(** Big-endian fields of a byte slice; [None] when the slice is too short. *)
Definition be16 (b : list Z) (off : Z) : option Z :=
  hi ← index b off; lo ← index b (off + 1); Some (hi * 256 + lo).
Definition be24 (b : list Z) (off : Z) : option Z :=
  hi ← index b off; lo ← be16 b (off + 1); Some (hi * 65536 + lo).
Definition be32 (b : list Z) (off : Z) : option Z :=
  hi ← be16 b off; lo ← be16 b (off + 2); Some (hi * 65536 + lo).

Definition noTunnel : TunnelInfo := mkTunnel 0 0 0 TUNNEL_TYPE_NONE.

(** Modelled from the spec: [TunnelInfo.Decapsulate] is not part of the
    verified sources (only its test is).  This follows section 4.C of the
    specification: the slice starts at the outer IPv4 header, the offsets
    are those of the IPv4 layout counted from the Ethernet frame less
    [ETH_HEADER_SIZE], GRE with protocol type [0x88BE] is ERSPAN II (8-byte
    shim, the id is the low 10 bits of the first 16-bit word after the GRE
    base header), GRE with [0x22EB] is ERSPAN III (12-byte shim, id 0),
    UDP to port 4789 with flag [0x08] is VXLAN (24-bit VNI); anything else,
    and any truncated packet, yields the default. *)
Definition Decapsulate (l3Packet : list Z) : TunnelInfo :=
  let at_ off := off - ETH_HEADER_SIZE in
  default noTunnel (
    src ← be32 l3Packet (at_ OFFSET_SIP);
    dst ← be32 l3Packet (at_ OFFSET_DIP);
    protocol ← index l3Packet (at_ OFFSET_IP_PROTOCOL);
    if protocol =? IPProtocolGRE then
      greType ← be16 l3Packet (at_ OFFSET_GRE_PROTOCOL);
      if greType =? 0x88BE then
        word ← be16 l3Packet (at_ OFFSET_ERSPAN);
        _ ← index l3Packet (at_ OFFSET_ERSPAN + 7);
        Some (mkTunnel src dst (Z.land word 0x3FF) TUNNEL_TYPE_ERSPAN)
      else if greType =? 0x22EB then
        _ ← index l3Packet (at_ OFFSET_ERSPAN + 11);
        Some (mkTunnel src dst 0 TUNNEL_TYPE_ERSPAN)
      else None
    else if protocol =? IPProtocolUDP then
      dport ← be16 l3Packet (at_ OFFSET_DPORT);
      if dport =? 4789 then
        flags ← index l3Packet (at_ OFFSET_VXLAN_FLAGS);
        if Z.land flags 0x08 =? 0 then None
        else
          vni ← be24 l3Packet (at_ OFFSET_VXLAN_VNI);
          Some (mkTunnel src dst vni TUNNEL_TYPE_VXLAN)
      else None
    else None).

(** An ERSPAN III packet from 172.16.1.103 to 10.30.101.132, from the outer
    IPv4 header on: 20 bytes of IPv4, 4 of GRE, 12 of ERSPAN III. *)
Definition erspan3_packet : list Z :=
  [0x45; 0; 0; 36; 0; 0; 0; 0; 64; 47; 0; 0; 172; 16; 1; 103; 10; 30; 101; 132;
   0x00; 0x00; 0x22; 0xEB;
   0x20; 0x01; 0x00; 0x64; 0; 0; 0; 1; 0; 0; 0; 0].

(** The part of a slice that holds an ERSPAN III header over GRE over
    IPv4. *)
Definition is_erspan3 (l3Packet : list Z) : Prop :=
  index l3Packet (OFFSET_IP_PROTOCOL - ETH_HEADER_SIZE) = Some IPProtocolGRE /\
  be16 l3Packet (OFFSET_GRE_PROTOCOL - ETH_HEADER_SIZE) = Some 0x22EB /\
  OFFSET_ERSPAN - ETH_HEADER_SIZE + 12 <= Z.of_nat (length l3Packet).

End Datatype.

(** * Specification vocabulary *)

(** The cache size is a power of two that fits a [uint64]. *)
Definition pow2 (C : Z) : Prop := exists k, 0 <= k < 64 /\ C = 2 ^ k.

(** A packet as the decoder can produce it: [Seq()] is a [uint64] and the
    timestamp a [time.Duration]. *)
Definition valid (p : packetBuffer) : Prop :=
  0 <= Seq (decoder p) < 2 ^ 64 /\
  - 2 ^ 63 <= Decoder.timestamp (decoder p) < 2 ^ 63.

(** The slices of a window have [C] entries and its head is in range. *)
Record shape (C : Z) (d : tridentDispatcher) : Prop := mkShape {
  shape_cache : Z.of_nat (length (cache d)) = C;
  shape_timestamp : Z.of_nat (length (timestamp d)) = C;
  shape_start : 0 <= startIndex d < C
}.

(** The slot at distance [k] from the head of the ring. *)
Definition slot (C : Z) (d : tridentDispatcher) (k : Z) : option (option packetBuffer) :=
  index (cache d) ((startIndex d + k) mod C).

(** A well-formed window.  Sequence numbers are [uint64]: the packet at
    distance [k] carries [seq + k], and it sits at or before the point where
    the sequence space wraps. *)
Record wf (C : Z) (d : tridentDispatcher) : Prop := mkWf {
  wf_shape : shape C d;
  wf_seq : 0 <= seq d < 2 ^ 64;
  wf_slots : forall k p, 0 <= k < C -> slot C d k = Some (Some p) ->
             seq d + k <= 2 ^ 64 /\ Seq (decoder p) = u64 (seq d + k);
  wf_unseeded : seq d = 0 -> forall k, 1 <= k < C -> slot C d k = Some None
}.

(** A window between two calls: well formed, with nothing at its head. *)
Definition stable (C : Z) (d : tridentDispatcher) : Prop :=
  wf C d /\ slot C d 0 = Some None.

(** What one passage of the head over a slot does to the window, the loop
    counter being [i]. *)
Definition advance (C i : Z) (d : tridentDispatcher) : tridentDispatcher :=
  mkDispatcher (<[Z.to_nat (startIndex d) := None]> (cache d))
               (<[Z.to_nat i := 0]> (timestamp d))
               (maxTimestamp d) (dropped d) (u64 (seq d + 1))
               ((startIndex d + 1) mod C).

Definition slaveOf (nslaves : Z) (p : packetBuffer) : Z :=
  Z.land (hash p) (u8 (nslaves - 1)).

(** The packets a window holds. *)
Definition cached (d : tridentDispatcher) : list packetBuffer := omap id (cache d).

(** The last [j] slots of the ring are empty. *)
Definition tail_empty (C : Z) (d : tridentDispatcher) (j : Z) : Prop :=
  forall k, 0 <= k -> C - j <= k < C -> slot C d k = Some None.

(** The frame [st'] is [st] after one passage of the head: the packet at the
    head, if any, went downstream; an empty head counts one drop. *)
Definition passed (n C i : Z) (st st' : frame) : Prop :=
  fd st' = advance C i (fd st) /\
  ((exists p, slot C (fd st) 0 = Some (Some p) /\
              fout st' = fout st ++ [Put (slaveOf n p) p] /\
              fdropped st' = fdropped st)
   \/ (slot C (fd st) 0 = Some None /\
       fout st' = fout st /\
       fdropped st' = u64 (fdropped st + 1))).

(** A run of loop iterations, from counter [i] to counter [j]. *)
Inductive chain (R : Z -> frame -> frame -> Prop) : Z -> frame -> Z -> frame -> Prop :=
  | chain_nil i st : chain R i st i st
  | chain_step i st st1 j st' :
      R i st st1 -> chain R (i + 1) st1 j st' -> chain R i st j st'.

(** One iteration of the forced flush, and one of the final flush that does
    not [break] (an empty head is passed only when it has timed out). *)
Definition forced (n C : Z) (i : Z) (st st' : frame) : Prop :=
  0 <= i < C /\ C <= foffset st /\ passed n C i st st' /\
  foffset st' = u64 (foffset st - 1).

Definition flushed (n C ts : Z) (i : Z) (st st' : frame) : Prop :=
  0 <= i < C /\ passed n C i st st' /\ foffset st' = foffset st /\
  (slot C (fd st) 0 = Some None ->
   exists t, index (timestamp (fd st)) (startIndex (fd st)) = Some t /\
             t <> 0 /\ TRIDENT_TIMEOUT < i64 (ts - t)).

(** The final flush stops at an empty head that carries no timestamp or has
    not timed out. *)
Definition flush_stops (C ts : Z) (st : frame) : Prop :=
  slot C (fd st) 0 = Some None /\
  exists t, index (timestamp (fd st)) (startIndex (fd st)) = Some t /\
            (t = 0 \/ i64 (ts - t) <= TRIDENT_TIMEOUT).

(** The same window with some slots stamped [ts]. *)
Definition restamped (ts : Z) (d d' : tridentDispatcher) : Prop :=
  cache d' = cache d /\ seq d' = seq d /\ startIndex d' = startIndex d /\
  maxTimestamp d' = maxTimestamp d /\ dropped d' = dropped d /\
  length (timestamp d') = length (timestamp d) /\
  forall t, t ∈ timestamp d' -> t ∈ timestamp d \/ t = ts.

(** The phases of [insert] as window transformers. *)
Definition stamp (d : tridentDispatcher) (ts : Z) : tridentDispatcher :=
  if maxTimestamp d <? ts then set_maxTimestamp d ts else d.

Definition place (C : Z) (p : packetBuffer) (st : frame) : tridentDispatcher :=
  let d := fd st in
  let current := (startIndex d + foffset st) mod C in
  set_timestamp (set_cache d (<[Z.to_nat current := Some p]> (cache d)))
                (<[Z.to_nat current := Decoder.timestamp (decoder p)]> (timestamp d)).

Definition settle (st : frame) : tridentDispatcher :=
  if 0 <? fdropped st
  then set_dropped (fd st) (u64 (dropped (fd st) + fdropped st))
  else fd st.

(** The window after the restart branch. *)
Definition reseated (C sq : Z) (d : tridentDispatcher) : tridentDispatcher :=
  mkDispatcher (make C None) (make C 0) (maxTimestamp d) (dropped d)
               (if C <? sq then u64 (sq - C) else 1) 0.

(** The incoming sequence number [sq] lies [off] ahead of the head. *)
Definition aligned (d : tridentDispatcher) (sq off : Z) : Prop :=
  0 <= off < 2 ^ 64 /\ seq d + off <= 2 ^ 64 /\ sq = u64 (seq d + off) /\
  (seq d = 0 -> off = 0).

(** Two windows with the same ring: same slots, head and first sequence. *)
Definition same_ring (d d' : tridentDispatcher) : Prop :=
  cache d' = cache d /\ length (timestamp d') = length (timestamp d) /\
  seq d' = seq d /\ startIndex d' = startIndex d.

(** The first statement of [cacheLookup]: an unseeded window takes the
    sequence number of the packet. *)
Definition seeded (d : tridentDispatcher) (sq : Z) : tridentDispatcher :=
  if seq d =? 0 then set_seq d sq else d.

(** The three ways through [cacheLookup]. *)
Definition is_backward (d : tridentDispatcher) (p : packetBuffer) : bool :=
  Seq (decoder p) <? seq (seeded d (Seq (decoder p))).
Definition is_restart (d : tridentDispatcher) (p : packetBuffer) : bool :=
  is_backward d p && (maxTimestamp d <? Decoder.timestamp (decoder p)).
Definition is_stale (d : tridentDispatcher) (p : packetBuffer) : bool :=
  is_backward d p && negb (maxTimestamp d <? Decoder.timestamp (decoder p)).

(** ** The adapter *)

(** How many packets a window, an instance and the adapter hold. *)
Definition occupied (d : tridentDispatcher) : nat := length (cached d).
Definition instHeld (inst : tridentInstance) : nat := sum_list (occupied <$> inst).
Definition heldIn (m : gmap Z tridentInstance) : nat :=
  map_fold (fun _ inst acc => (instHeld inst + acc)%nat) 0%nat m.
Definition held (a : TridentAdapter) : nat := heldIn (instances a).

(** A dispatcher of an instance is untouched or a stable window. *)
Definition window_ok (C : Z) (d : tridentDispatcher) : Prop :=
  d = zeroDispatcher \/ stable C d.

Definition instance_ok (C : Z) (inst : tridentInstance) : Prop :=
  length inst = Z.to_nat TRIDENT_DISPATCHER_MAX /\ Forall (window_ok C) inst.

Definition adapter_ok (a : TridentAdapter) : Prop :=
  pow2 (cacheSize a) /\ 1 <= slaves a /\ stats a = counter a /\
  map_Forall (fun _ inst => instance_ok (cacheSize a) inst) (instances a).

(** A packet whose header [DecodeHeader] accepts. *)
Definition routable (p : packetBuffer) : Prop :=
  valid p /\ 0 <= tridentDispatcherIndex (decoder p) < TRIDENT_DISPATCHER_MAX.

(** The counters after [k] accepted packets, [nd] of them delivered so far:
    every accepted packet is expired, delivered or held, or was let go by a
    restart or by a later packet with its sequence number. *)
Definition accounted (a : TridentAdapter) (k : Z) (nd : nat) : Prop :=
  RxPackets (counter a) = u64 k /\
  exists e, 0 <= e /\ RxExpired (counter a) = u64 e /\
            e + Z.of_nat nd + Z.of_nat (held a) <= k.

(** The accepted datagrams of a batch. *)
Definition accepted (batch : list (bool * packetBuffer)) : list (bool * packetBuffer) :=
  filter (fun x => fst x = false) batch.

(** No call of a run detects a remote restart. *)
Fixpoint no_restart (C n : Z) (d : tridentDispatcher) (ps : list packetBuffer) : Prop :=
  match ps with
  | [] => True
  | p :: ps' =>
      is_restart d p = false /\
      match cacheLookup C n d p with
      | Some (d1, _, _, _) => no_restart C n d1 ps'
      | None => True
      end
  end.

(** ** In-window permutations *)

(** A timestamp within one timeout span starting at [lo]. *)
Definition within_timeout (lo t : Z) : Prop := lo <= t <= lo + TRIDENT_TIMEOUT.

(** Every slot timestamp of the window is zero or within the span. *)
Definition stamps_ok (lo : Z) (d : tridentDispatcher) : Prop :=
  Forall (fun t => t = 0 \/ within_timeout lo t) (timestamp d).

(** The window holds a packet for sequence number [s]. *)
Definition holds (C : Z) (d : tridentDispatcher) (s : Z) : Prop :=
  exists k q, 0 <= k < C /\ s = seq d + k /\ slot C d k = Some (Some q).

(** No packet arrives ahead of a packet whose sequence number is [C] or more
    below its own. *)
Definition in_window (C : Z) (ps : list packetBuffer) : Prop :=
  forall (i j : nat) p q, (i <= j)%nat -> ps !! i = Some p -> ps !! j = Some q ->
                          Seq (decoder p) < Seq (decoder q) + C.

Definition seqOf (p : packetBuffer) : Z := Seq (decoder p).

(** ** Concrete inputs *)

(** Two packets in order. *)
Definition two_in_order : list packetBuffer := [pkt 1 1; pkt 2 2].

(** A four-slot window that has delivered sequence 1000 at time 10. *)
Definition after_1000 : tridentDispatcher :=
  mkDispatcher [None; None; None; None] [0; 0; 0; 0] 10 0 1001 1.

Definition result_seqs (r : option (tridentDispatcher * list event * Z * Z)) :=
  match r with
  | Some (d, out, dr, ex) => Some (deliveredSeqs out, dr, ex, seq d, startIndex d)
  | None => None
  end.

(** A restart followed by a late packet of the old incarnation. *)
Definition late_after_restart : list packetBuffer := [pkt 10 5; pkt 1 6; pkt 2 3].

(** Permutations of [1..K] with every packet within one position of its
    place in order: one that does not begin with 1, one in which a packet
    runs four sequence numbers ahead of a missing one, and one whose
    timestamps span more than the timeout. *)
Definition swapped_first : list packetBuffer := [pkt 2 1; pkt 1 1].
Definition far_ahead : list packetBuffer :=
  [pkt 1 1; pkt 3 1; pkt 4 1; pkt 7 1; pkt 2 1; pkt 5 1; pkt 6 1; pkt 8 1].
Definition slow_second : list packetBuffer :=
  [pkt 1 1; pkt 3 2; pkt 4 3000000000; pkt 2 3000000000].

(** Two datagrams of one sender, the second a hundred sequence numbers on. *)
Definition jump_batch : list (bool * packetBuffer) := [(false, pkt 1 1); (false, pkt 100 1)].

(** Scenario 4 of the specification: eight packets, the third and fourth
    swapped. *)
Definition scenario4 : list packetBuffer :=
  [pkt 1 1; pkt 2 2; pkt 4 3; pkt 3 4; pkt 5 5; pkt 6 6; pkt 7 7; pkt 8 8].

(** Five packets in order, the fifth five seconds after the others. *)
Definition pause_before_fifth : list packetBuffer :=
  [pkt 1 1; pkt 2 2; pkt 3 3; pkt 4 4; pkt 5 5000000000].
(** * Further vocabulary *)

(** The frame [st] with the events [pre] before its own. *)
Definition prefixed (pre : list event) (st : frame) : frame :=
  mkFrame (fd st) (fdropped st) (foffset st) (pre ++ fout st).

(** The head of the window the packet is inserted into: the reseated head
    after a restart, the head of the (seeded) window otherwise. *)
Definition insertHead (C : Z) (d : tridentDispatcher) (p : packetBuffer) : Z :=
  if is_restart d p
  then (if C <? Seq (decoder p) then Seq (decoder p) - C else 1)
  else seq (seeded d (Seq (decoder p))).

(** The packet a slot holds, as a list. *)
Definition inSlot (v : option packetBuffer) : list packetBuffer :=
  match v with Some q => [q] | None => [] end.

(** The timestamp of the slot at distance [j] from the head. *)
Definition stampAt (C : Z) (d : tridentDispatcher) (j : Z) : option Z :=
  index (timestamp d) ((startIndex d + j) mod C).

(** The instance of a sender, and the dispatcher [findAndAdd] calls
    [cacheLookup] on: its slices are allocated on first use. *)
Definition instanceOf (a : TridentAdapter) (ip : Z) : list tridentDispatcher :=
  default zeroInstance (instances a !! ip).
Definition prepared (C : Z) (d : tridentDispatcher) : tridentDispatcher :=
  match cache d with [] => allocate C d | _ => d end.

(** The sum of the [dropped] fields of all windows. *)
Definition instDropped (inst : list tridentDispatcher) : Z :=
  foldr Z.add 0 (dropped <$> inst).
Definition droppedIn (m : gmap Z (list tridentDispatcher)) : Z :=
  map_fold (fun _ inst acc => instDropped inst + acc) 0 m.

(** [RxDropped] is the sum of the drop counters of all windows. *)
Definition lost_ok (a : TridentAdapter) : Prop :=
  RxDropped (counter a) = u64 (droppedIn (instances a)).

(** The datagrams of a batch that [DecodeHeader] rejects. *)
Definition rejected (batch : list (bool * packetBuffer)) : list packetBuffer :=
  snd <$> filter (fun x => fst x = true) batch.

(** ** More concrete inputs *)

(** The window [after_1000] once sequence 1002 has arrived at time 11: the
    packet waits at distance 1 for sequence 1001. *)
Definition holding_1002 : tridentDispatcher :=
  mkDispatcher [None; None; Some (pkt 1002 11); None] [0; 11; 11; 0] 11 0 1001 1.

(** A packet of sender 7 with hash [h]. *)
Definition hashed (h : Z) : packetBuffer := mkPacket [] 7 (Decoder.mk 1 1 0) h.

(** A packet that names dispatcher 16, one past the array of an instance. *)
Definition beyond_dispatchers : packetBuffer := mkPacket [] 7 (Decoder.mk 1 1 16) 0.

(** A batch with one rejected and one accepted datagram. *)
Definition mixed_batch : list (bool * packetBuffer) := [(true, pkt 9 9); (false, pkt 1 1)].

(** * Machine arithmetic *)

Lemma u64_small x : 0 <= x < 2 ^ 64 -> u64 x = x.
Proof. intros H. unfold u64. apply Z.mod_small. exact H. Qed.

Lemma u64_range x : 0 <= u64 x < 2 ^ 64.
Proof. unfold u64. apply Z.mod_pos_bound. lia. Qed.

Lemma u64_wrap : u64 (2 ^ 64) = 0.
Proof. reflexivity. Qed.

Lemma pow2_range C : pow2 C -> 1 <= C < 2 ^ 64.
Proof.
  intros (k & Hk & ->). split.
  - assert (0 < 2 ^ k) by (apply Z.pow_pos_nonneg; lia). lia.
  - apply Z.pow_lt_mono_r; lia.
Qed.

Lemma mask_mod C x : pow2 C -> mask C x = x mod C.
Proof.
  intros HC. pose proof (pow2_range C HC) as HR.
  destruct HC as (k & Hk & ->). unfold mask.
  rewrite (u64_small (2 ^ k - 1)) by lia.
  replace (2 ^ k - 1) with (Z.ones k) by (rewrite Z.ones_equiv; lia).
  rewrite Z.land_ones by lia. unfold u64.
  apply Z.mod_mod_divide.
  exists (2 ^ (64 - k)). rewrite <- Z.pow_add_r by lia. f_equal. lia.
Qed.

Lemma wrap_cases C x :
  0 < C -> 0 <= x < 2 * C -> x mod C = if decide (x < C) then x else x - C.
Proof.
  intros HC Hx. case_decide.
  - apply Z.mod_small. lia.
  - symmetry. apply (Z.mod_unique_pos x C 1). lia. lia.
Qed.

Lemma ring_inj C s k k' :
  0 <= s < C -> 0 <= k < C -> 0 <= k' < C ->
  (s + k) mod C = (s + k') mod C -> k = k'.
Proof.
  intros Hs Hk Hk'. rewrite !wrap_cases by lia. repeat case_decide; lia.
Qed.

Lemma ring_head C s : 0 <= s < C -> (s + 0) mod C = s.
Proof. intros. rewrite Z.add_0_r. apply Z.mod_small. lia. Qed.

Lemma ring_range C x : 0 < C -> 0 <= x mod C < C.
Proof. intros. apply Z.mod_pos_bound. lia. Qed.

Lemma land_le_r a b : 0 <= b -> 0 <= Z.land a b <= b.
Proof.
  intros Hb. split.
  - apply Z.land_nonneg. right. exact Hb.
  - assert (Hd : Z.ldiff (Z.land a b) b = 0).
    { apply Z.bits_inj'. intros n Hn.
      rewrite Z.ldiff_spec, Z.land_spec, Z.bits_0.
      destruct (Z.testbit a n), (Z.testbit b n); reflexivity. }
    pose proof (Z.sub_nocarry_ldiff b (Z.land a b) Hd) as He.
    assert (0 <= Z.ldiff b (Z.land a b)) by (apply Z.ldiff_nonneg; left; exact Hb).
    lia.
Qed.

Lemma slaveOf_range n p : 1 <= n -> 0 <= slaveOf n p < n.
Proof.
  intros Hn. unfold slaveOf, u8.
  assert (0 <= (n - 1) mod 2 ^ 8 <= n - 1).
  { split. apply Z.mod_pos_bound; lia. apply Z.mod_le; lia. }
  pose proof (land_le_r (hash p) ((n - 1) mod 2 ^ 8)). lia.
Qed.

(** * Slices *)

Section Slices.
Context {A : Type}.
Implicit Types (l : list A) (i j : Z).

Lemma index_in_range l i :
  0 <= i < Z.of_nat (length l) -> exists x, index l i = Some x.
Proof.
  intros Hi. unfold index. rewrite decide_True by lia.
  destruct (lookup_lt_is_Some_2 l (Z.to_nat i)) as [x Hx]; [lia|]. eauto.
Qed.

Lemma index_Some_range l i x :
  index l i = Some x -> 0 <= i < Z.of_nat (length l).
Proof.
  unfold index. case_decide; [|discriminate]. intros Hx.
  apply lookup_lt_Some in Hx. lia.
Qed.

Lemma store_in_range l i v :
  0 <= i < Z.of_nat (length l) -> store l i v = Some (<[Z.to_nat i := v]> l).
Proof. intros Hi. unfold store. rewrite decide_True by lia. reflexivity. Qed.

Lemma index_insert_eq l i v :
  0 <= i < Z.of_nat (length l) -> index (<[Z.to_nat i := v]> l) i = Some v.
Proof.
  intros Hi. unfold index. rewrite decide_True by lia.
  apply list_lookup_insert_eq. lia.
Qed.

Lemma index_insert_ne l i j v :
  0 <= i -> 0 <= j -> i <> j -> index (<[Z.to_nat i := v]> l) j = index l j.
Proof.
  intros Hi Hj Hne. unfold index. rewrite !decide_True by lia.
  apply list_lookup_insert_ne. lia.
Qed.

Lemma index_insert_id l i v :
  index l i = Some v -> <[Z.to_nat i := v]> l = l.
Proof.
  unfold index. case_decide; [|discriminate]. apply list_insert_id.
Qed.

Lemma index_make (n : Z) (x : A) i : 0 <= i < n -> index (make n x) i = Some x.
Proof.
  intros Hi. unfold index, make. rewrite decide_True by lia.
  apply lookup_replicate_2. lia.
Qed.

Lemma length_make (n : Z) (x : A) : 0 <= n -> Z.of_nat (length (make n x)) = n.
Proof. intros. unfold make. rewrite length_replicate. lia. Qed.

End Slices.

(** * The model on the scenarios of the specification *)

Example after_1000_reached :
  feed 4 1 (freshDispatcher 4) [pkt 1000 10] = Some (after_1000, [Put 0 (pkt 1000 10)], 0, 0).
Proof. vm_compute. reflexivity. Qed.

Example scenario4_reorder_within_window :
  result_seqs (feed 8 1 (freshDispatcher 8)
     [pkt 1 1; pkt 2 2; pkt 4 3; pkt 3 4; pkt 5 5; pkt 6 6; pkt 7 7; pkt 8 8])
  = Some ([1; 2; 3; 4; 5; 6; 7; 8], 0, 0, 9, 0).
Proof. vm_compute. reflexivity. Qed.

Example scenario5_loss_by_overflow :
  result_seqs (feed 4 1 (freshDispatcher 4)
     [pkt 1 1; pkt 2 2; pkt 3 3; pkt 5 5; pkt 6 6; pkt 7 7; pkt 8 8; pkt 9 9])
  = Some ([1; 2; 3; 5; 6; 7; 8; 9], 1, 0, 10, 1).
Proof. vm_compute. reflexivity. Qed.

Example scenario6_restart_below_cache_size :
  result_seqs (feed 8 1 (freshDispatcher 8) [pkt 1000 10; pkt 5 11])
  = Some ([1000], 0, 0, 1, 0).
Proof. vm_compute. reflexivity. Qed.

Example minPowerOfTwo_values :
  minPowerOfTwo 0 = 1 /\ minPowerOfTwo 5 = 8 /\ minPowerOfTwo 1024 = 1024 /\
  minPowerOfTwo (2 ^ 31) = 2 ^ 30.
Proof. vm_compute. repeat split; reflexivity. Qed.

(** * The loop bodies on a window of the right shape *)

Section Steps.
Variables (C n : Z).
Hypothesis HC : pow2 C.
Hypothesis Hn : 1 <= n.

Lemma put_ok p out : put n p out = Some (out ++ [Put (slaveOf n p) p]).
Proof.
  unfold put. fold (slaveOf n p).
  pose proof (slaveOf_range n p Hn). rewrite decide_True by lia. reflexivity.
Qed.

Lemma slot_head d : shape C d -> slot C d 0 = index (cache d) (startIndex d).
Proof. intros [_ _ Hs]. unfold slot. rewrite ring_head by lia. reflexivity. Qed.

Lemma slot_defined d k : shape C d -> exists c, slot C d k = Some c.
Proof.
  intros [Hc _ _]. apply index_in_range. rewrite Hc.
  apply ring_range. pose proof (pow2_range C HC). lia.
Qed.

Lemma cache_put_ok d i v :
  shape C d -> 0 <= i < C ->
  cache_put d i v = Some (set_cache d (<[Z.to_nat i := v]> (cache d))).
Proof.
  intros [Hc _ _] Hi. unfold cache_put.
  rewrite store_in_range by lia. reflexivity.
Qed.

Lemma timestamp_put_ok d i t :
  shape C d -> 0 <= i < C ->
  timestamp_put d i t = Some (set_timestamp d (<[Z.to_nat i := t]> (timestamp d))).
Proof.
  intros [_ Ht _] Hi. unfold timestamp_put.
  rewrite store_in_range by lia. reflexivity.
Qed.

Lemma set_cache_shape d c :
  shape C d -> length c = length (cache d) -> shape C (set_cache d c).
Proof. intros [Hc Ht Hs] Hl. split; simpl; [rewrite Hl|..]; assumption. Qed.

Lemma set_timestamp_shape d t :
  shape C d -> length t = length (timestamp d) -> shape C (set_timestamp d t).
Proof. intros [Hc Ht Hs] Hl. split; simpl; [|rewrite Hl|]; assumption. Qed.

Lemma advance_shape i d : shape C d -> shape C (advance C i d).
Proof.
  intros [Hc Ht Hs]. split; simpl.
  - rewrite length_insert. exact Hc.
  - rewrite length_insert. exact Ht.
  - apply ring_range. lia.
Qed.

Lemma advance_head_empty i d :
  shape C d -> slot C d 0 = Some None ->
  advance C i d =
  mkDispatcher (cache d) (<[Z.to_nat i := 0]> (timestamp d))
               (maxTimestamp d) (dropped d) (u64 (seq d + 1)) ((startIndex d + 1) mod C).
Proof.
  intros Hsh Hh. rewrite slot_head in Hh by assumption.
  unfold advance. rewrite (index_insert_id _ _ _ Hh). reflexivity.
Qed.

Lemma forceStep_deliver i st p :
  shape C (fd st) -> 0 <= i < C -> slot C (fd st) 0 = Some (Some p) ->
  forceStep C n i st =
  Some (mkFrame (advance C i (fd st)) (fdropped st) (u64 (foffset st - 1))
                (fout st ++ [Put (slaveOf n p) p])).
Proof.
  intros Hsh Hi Hh. rewrite slot_head in Hh by assumption.
  unfold forceStep. rewrite Hh. simpl. rewrite put_ok. simpl.
  rewrite cache_put_ok by (assumption || apply Hsh). simpl.
  rewrite timestamp_put_ok by (try apply set_cache_shape; try assumption; apply length_insert).
  simpl. rewrite mask_mod by assumption. reflexivity.
Qed.

Lemma forceStep_drop i st :
  shape C (fd st) -> 0 <= i < C -> slot C (fd st) 0 = Some None ->
  forceStep C n i st =
  Some (mkFrame (advance C i (fd st)) (u64 (fdropped st + 1)) (u64 (foffset st - 1))
                (fout st)).
Proof.
  intros Hsh Hi Hh. rewrite advance_head_empty by assumption.
  rewrite slot_head in Hh by assumption.
  unfold forceStep. rewrite Hh. simpl.
  rewrite timestamp_put_ok by assumption.
  simpl. rewrite mask_mod by assumption. reflexivity.
Qed.

Lemma flushStep_deliver ts i st p :
  shape C (fd st) -> 0 <= i < C -> slot C (fd st) 0 = Some (Some p) ->
  flushStep C n ts i st =
  Some (inr (mkFrame (advance C i (fd st)) (fdropped st) (foffset st)
                     (fout st ++ [Put (slaveOf n p) p]))).
Proof.
  intros Hsh Hi Hh. rewrite slot_head in Hh by assumption.
  unfold flushStep. rewrite Hh. simpl. rewrite put_ok. simpl.
  rewrite cache_put_ok by (assumption || apply Hsh). simpl.
  rewrite timestamp_put_ok by (try apply set_cache_shape; try assumption; apply length_insert).
  simpl. rewrite mask_mod by assumption. reflexivity.
Qed.

Lemma flushStep_empty ts i st t :
  shape C (fd st) -> 0 <= i < C -> slot C (fd st) 0 = Some None ->
  index (timestamp (fd st)) (startIndex (fd st)) = Some t ->
  flushStep C n ts i st =
  Some (if t =? 0 then inl st
        else if TRIDENT_TIMEOUT <? i64 (ts - t)
             then inr (mkFrame (advance C i (fd st)) (u64 (fdropped st + 1)) (foffset st)
                               (fout st))
             else inl st).
Proof.
  intros Hsh Hi Hh Ht. rewrite advance_head_empty by assumption.
  rewrite slot_head in Hh by assumption.
  unfold flushStep. rewrite Hh. simpl. rewrite Ht. simpl.
  destruct (t =? 0); [reflexivity|].
  destruct (TRIDENT_TIMEOUT <? i64 (ts - t)); [|reflexivity].
  simpl. rewrite timestamp_put_ok by assumption.
  simpl. rewrite mask_mod by assumption. reflexivity.
Qed.

(** The slots after one passage of the head. *)
Lemma slot_advance i d k :
  shape C d -> 0 <= k < C - 1 -> slot C (advance C i d) k = slot C d (k + 1).
Proof.
  intros [Hc Ht Hs] Hk. unfold slot, advance. simpl.
  rewrite Z.add_mod_idemp_l by lia.
  replace (startIndex d + 1 + k) with (startIndex d + (k + 1)) by lia.
  apply index_insert_ne.
  - lia.
  - apply ring_range. lia.
  - intros He. rewrite <- (ring_head C (startIndex d)) in He at 1 by lia.
    apply ring_inj in He; lia.
Qed.

Lemma slot_advance_last i d :
  shape C d -> slot C (advance C i d) (C - 1) = Some None.
Proof.
  intros [Hc Ht Hs]. unfold slot, advance. simpl.
  rewrite Z.add_mod_idemp_l by lia.
  replace (startIndex d + 1 + (C - 1)) with (startIndex d + 1 * C) by lia.
  rewrite Z.mod_add by lia. rewrite Z.mod_small by lia.
  apply index_insert_eq. lia.
Qed.

End Steps.

(** * Loop rules *)

Section Loops.
Variables (C n : Z).

(** An invariant kept by every iteration of the forced flush holds when the
    loop ends, and the loop ends after [C] iterations or with the offset
    inside the window. *)
Lemma forceFlush_rule (I : Z -> frame -> Prop) :
  (forall i st, 0 <= i < C -> C <= foffset st -> I i st ->
     exists st', forceStep C n i st = Some st' /\ I (i + 1) st') ->
  forall m i st, i + Z.of_nat m = C -> 0 <= i -> I i st ->
  exists st' j, forceFlush C n m i st = Some st' /\ i <= j <= C /\ I j st' /\
                (j = C \/ foffset st' < C).
Proof.
  intros Hstep m. induction m as [|m IH]; intros i st Hm Hi HI.
  - exists st, i. simpl. split; [reflexivity|]. split; [lia|]. split; [exact HI|]. left. lia.
  - simpl. destruct (Z.leb_spec C (foffset st)) as [Hge|Hlt].
    + destruct (Hstep i st) as (st1 & E1 & H1); [lia|exact Hge|exact HI|].
      rewrite E1. simpl.
      destruct (IH (i + 1) st1) as (st' & j & E & Hj & HI' & Hex); [lia|lia|exact H1|].
      exists st', j. split; [exact E|]. split; [lia|]. split; assumption.
    + exists st, i. split; [reflexivity|]. split; [lia|]. split; [exact HI|]. right. exact Hlt.
Qed.

(** The same for the final flush, which ends after [C] iterations or at a
    [break]. *)
Lemma flush_rule ts (I : Z -> frame -> Prop) :
  (forall i st, 0 <= i < C -> I i st ->
     exists r, flushStep C n ts i st = Some r /\
               match r with inl st' => st' = st | inr st' => I (i + 1) st' end) ->
  forall m i st, i + Z.of_nat m = C -> 0 <= i -> I i st ->
  exists st' j, flush C n ts m i st = Some st' /\ i <= j <= C /\ I j st' /\
                (j = C \/ flushStep C n ts j st' = Some (inl st')).
Proof.
  intros Hstep m. induction m as [|m IH]; intros i st Hm Hi HI.
  - exists st, i. simpl. split; [reflexivity|]. split; [lia|]. split; [exact HI|]. left. lia.
  - simpl. destruct (Hstep i st) as (r & E1 & H1); [lia|exact HI|].
    rewrite E1. simpl. destruct r as [st1|st1].
    + subst st1. exists st, i. split; [reflexivity|]. split; [lia|].
      split; [exact HI|]. right. exact E1.
    + destruct (IH (i + 1) st1) as (st' & j & E & Hj & HI' & Hex); [lia|lia|exact H1|].
      exists st', j. split; [exact E|]. split; [lia|]. split; assumption.
Qed.

Hypothesis HC : pow2 C.
Hypothesis Hn : 1 <= n.

Lemma forceStep_cases i st :
  shape C (fd st) -> 0 <= i < C ->
  exists st', forceStep C n i st = Some st' /\ passed n C i st st' /\
              foffset st' = u64 (foffset st - 1).
Proof.
  intros Hsh Hi. destruct (slot_defined C HC (fd st) 0 Hsh) as [[p|] Hh].
  - eexists. split; [apply forceStep_deliver; eassumption|].
    split; [|reflexivity]. split; [reflexivity|]. left. exists p. auto.
  - eexists. split; [apply forceStep_drop; eassumption|].
    split; [|reflexivity]. split; [reflexivity|]. right. auto.
Qed.

Lemma flushStep_cases ts i st :
  shape C (fd st) -> 0 <= i < C ->
  exists r, flushStep C n ts i st = Some r /\
    match r with
    | inl st' =>
        st' = st /\ slot C (fd st) 0 = Some None /\
        exists t, index (timestamp (fd st)) (startIndex (fd st)) = Some t /\
                  (t = 0 \/ i64 (ts - t) <= TRIDENT_TIMEOUT)
    | inr st' =>
        passed n C i st st' /\ foffset st' = foffset st /\
        (slot C (fd st) 0 = Some None ->
         exists t, index (timestamp (fd st)) (startIndex (fd st)) = Some t /\
                   t <> 0 /\ TRIDENT_TIMEOUT < i64 (ts - t))
    end.
Proof.
  intros Hsh Hi. destruct (slot_defined C HC (fd st) 0 Hsh) as [[p|] Hh].
  - eexists. split; [apply flushStep_deliver; eassumption|]. simpl.
    split; [|split; [reflexivity|congruence]].
    split; [reflexivity|]. left. exists p. auto.
  - destruct (index_in_range (timestamp (fd st)) (startIndex (fd st))) as [t Ht].
    { destruct Hsh as [_ Hl Hs]. lia. }
    eexists. split; [eapply flushStep_empty; eassumption|].
    destruct (Z.eqb_spec t 0) as [->|Hne].
    { split; [reflexivity|]. split; [exact Hh|]. exists 0. auto. }
    destruct (Z.ltb_spec TRIDENT_TIMEOUT (i64 (ts - t))) as [Hto|Hto].
    + simpl. split; [|split; [reflexivity|]].
      * split; [reflexivity|]. right. auto.
      * intros _. exists t. auto.
    + split; [reflexivity|]. split; [exact Hh|]. exists t. auto.
Qed.

(** Passing the head keeps the window well formed. *)
Lemma advance_wf i d : wf C d -> wf C (advance C i d).
Proof.
  intros [Hsh Hseq Hslots Hun]. pose proof (pow2_range C HC) as HR.
  assert (Hsl : forall k p, 0 <= k < C -> slot C (advance C i d) k = Some (Some p) ->
                k < C - 1 /\ slot C d (k + 1) = Some (Some p)).
  { intros k p Hk Hp. destruct (decide (k = C - 1)) as [->|Hne].
    - rewrite slot_advance_last in Hp by assumption. discriminate.
    - rewrite slot_advance in Hp by (assumption || lia). split; [lia|exact Hp]. }
  split.
  - apply advance_shape; assumption.
  - simpl. apply u64_range.
  - intros k p Hk Hp. apply Hsl in Hp as [Hk' Hp]; [|exact Hk].
    apply Hslots in Hp as [Hle Hp]; [|lia]. simpl.
    destruct (decide (seq d + 1 < 2 ^ 64)) as [Hlt|Hge].
    + rewrite (u64_small (seq d + 1)) by lia.
      replace (seq d + 1 + k) with (seq d + (k + 1)) by lia. split; [lia|exact Hp].
    + assert (seq d + 1 = 2 ^ 64 /\ k = 0) as [E ->] by lia.
      rewrite E, u64_wrap. split; [lia|]. rewrite Hp.
      replace (seq d + (0 + 1)) with (2 ^ 64) by lia. reflexivity.
  - simpl. intros Hz k Hk.
    destruct (decide (k = C - 1)) as [->|Hne]; [apply slot_advance_last; assumption|].
    rewrite slot_advance by (assumption || lia).
    destruct (slot_defined C HC d (k + 1) Hsh) as [[p|] Hp]; [|exact Hp].
    exfalso. destruct (decide (seq d = 0)) as [Hz'|Hz'].
    + rewrite (Hun Hz' (k + 1)) in Hp by lia. discriminate.
    + apply Hslots in Hp as [Hle _]; [|lia].
      unfold u64 in Hz. rewrite Z.mod_small in Hz by lia. lia.
Qed.

Lemma advance_tail i d j :
  shape C d -> tail_empty C d j -> tail_empty C (advance C i d) (j + 1).
Proof.
  intros Hsh Ht k Hk0 Hk.
  destruct (decide (k = C - 1)) as [->|Hne]; [apply slot_advance_last; assumption|].
  rewrite slot_advance by (assumption || lia). apply Ht; lia.
Qed.

Lemma tail_empty_all d k :
  tail_empty C d C -> 0 <= k < C -> slot C d k = Some None.
Proof. intros Ht Hk. apply Ht; lia. Qed.

Lemma tail_empty_0 d : tail_empty C d 0.
Proof. intros k Hk0 Hk. lia. Qed.

End Loops.

(** * The phases of [cacheLookup] *)

Lemma insert_replicate_app {A} (i : nat) (x y : A) (l : list A) :
  <[i := x]> (replicate i x ++ y :: l) = replicate (S i) x ++ l.
Proof.
  rewrite insert_app_r_alt by (rewrite length_replicate; lia).
  rewrite length_replicate, Nat.sub_diag.
  rewrite replicate_S_end, <- app_assoc. reflexivity.
Qed.

Lemma index_replicate_app {A} (i : nat) (x y : A) (l : list A) :
  index (replicate i x ++ y :: l) (Z.of_nat i) = Some y.
Proof.
  unfold index. rewrite decide_True by lia. rewrite Nat2Z.id.
  rewrite lookup_app_r by (rewrite length_replicate; lia).
  rewrite length_replicate, Nat.sub_diag. reflexivity.
Qed.

Lemma store_replicate_app {A} (i : nat) (x y : A) (l : list A) :
  store (replicate i x ++ y :: l) (Z.of_nat i) x = Some (replicate (S i) x ++ l).
Proof.
  unfold store. rewrite decide_True.
  - rewrite Nat2Z.id, insert_replicate_app. reflexivity.
  - rewrite length_app, length_replicate. simpl. lia.
Qed.

Section Purge.
Variables (C n : Z).

(** The purge releases what the window holds, slot by slot, and leaves
    every slot empty with no timestamp. *)
Lemma purge_from m : forall i rest trest mt dr sq si out,
  length rest = m -> length trest = m ->
  purge m (Z.of_nat i)
        (mkDispatcher (replicate i None ++ rest) (replicate i 0 ++ trest) mt dr sq si) out
  = Some (mkDispatcher (replicate (i + m) None) (replicate (i + m) 0) mt dr sq si,
          out ++ (Release <$> omap id rest)).
Proof.
  induction m as [|m IH]; intros i rest trest mt dr sq si out Hr Ht.
  - destruct rest; [|discriminate]. destruct trest; [|discriminate].
    simpl. rewrite !app_nil_r, Nat.add_0_r. reflexivity.
  - destruct rest as [|c rest]; [discriminate|].
    destruct trest as [|t trest]; [discriminate|].
    injection Hr as Hr. injection Ht as Ht.
    cbn [purge]. cbn [cache]. rewrite index_replicate_app. cbn [mbind option_bind].
    replace (Z.of_nat i + 1) with (Z.of_nat (S i)) by lia.
    replace (i + S m)%nat with (S i + m)%nat by lia.
    destruct c as [p|].
    + unfold cache_put. cbn [cache]. rewrite store_replicate_app.
      cbn [mbind option_bind]. unfold timestamp_put, set_cache. cbn [timestamp].
      rewrite store_replicate_app. cbn [mbind option_bind]. unfold set_timestamp.
      cbn [cache timestamp maxTimestamp dropped seq startIndex].
      rewrite IH by assumption. cbn [omap list_omap id]. rewrite <- app_assoc. reflexivity.
    + cbn [mbind option_bind]. unfold timestamp_put. cbn [timestamp].
      rewrite store_replicate_app. cbn [mbind option_bind]. unfold set_timestamp. cbn [cache maxTimestamp dropped seq startIndex].
      assert (E : replicate i None ++ None :: rest = replicate (S i) (@None packetBuffer) ++ rest).
      { rewrite replicate_S_end, <- app_assoc. reflexivity. }
      rewrite E. rewrite IH by assumption. reflexivity.
Qed.

Lemma restart_spec sq d out :
  0 <= C -> shape C d ->
  restart C sq d out = Some (reseated C sq d, out ++ (Release <$> cached d)).
Proof.
  intros HC0 [Hc Ht Hs]. unfold restart.
  destruct d as [c t mt dr s si]. simpl in *.
  pose proof (purge_from (Z.to_nat C) 0 c t mt dr s si out) as Hp.
  change (Z.of_nat 0) with 0 in Hp. cbn [replicate app] in Hp.
  rewrite Hp by lia. simpl.
  unfold reseated, make, cached. simpl. destruct (C <? sq); reflexivity.
Qed.

End Purge.

Lemma elem_of_insert_inv {A} (l : list A) (i : nat) (x t : A) :
  t ∈ <[i := x]> l -> t ∈ l \/ t = x.
Proof.
  intros Ht. apply list_elem_of_lookup_1 in Ht as [j Hj].
  apply list_lookup_insert_Some in Hj as [(_ & -> & _)|(_ & Hj)].
  - right. reflexivity.
  - left. eapply list_elem_of_lookup_2. exact Hj.
Qed.

Lemma restamped_refl ts d : restamped ts d d.
Proof. unfold restamped. repeat split; auto. Qed.

Lemma restamped_trans ts d1 d2 d3 :
  restamped ts d1 d2 -> restamped ts d2 d3 -> restamped ts d1 d3.
Proof.
  intros (a1 & a2 & a3 & a4 & a5 & a6 & a7) (b1 & b2 & b3 & b4 & b5 & b6 & b7).
  unfold restamped. repeat split; try congruence.
  intros t Ht. apply b7 in Ht as [Ht| ->]; [apply a7; exact Ht|right; reflexivity].
Qed.

Lemma restamped_put ts d i :
  restamped ts d (set_timestamp d (<[i := ts]> (timestamp d))).
Proof.
  unfold restamped. simpl. repeat split; try reflexivity.
  - apply length_insert.
  - apply elem_of_insert_inv.
Qed.

Lemma restamped_shape C ts d d' : restamped ts d d' -> shape C d -> shape C d'.
Proof.
  intros (a1 & a2 & a3 & a4 & a5 & a6 & a7) [Hc Ht Hs].
  split; [rewrite a1|rewrite a6|rewrite a3]; assumption.
Qed.

Lemma restamped_slot C ts d d' k : restamped ts d d' -> slot C d' k = slot C d k.
Proof. intros (a1 & a2 & a3 & _). unfold slot. rewrite a1, a3. reflexivity. Qed.

Lemma restamped_wf C ts d d' : restamped ts d d' -> wf C d -> wf C d'.
Proof.
  intros Hr [Hsh Hseq Hslots Hun].
  pose proof Hr as (a1 & a2 & a3 & _). split.
  - eapply restamped_shape; eassumption.
  - rewrite a2. exact Hseq.
  - intros k p Hk. rewrite (restamped_slot C ts d d' k Hr), a2. apply Hslots. exact Hk.
  - rewrite a2. intros Hz k Hk. rewrite (restamped_slot C ts d d' k Hr). apply Hun; assumption.
Qed.

Section Backfill.
Variables (C n : Z).
Hypothesis HC : pow2 C.
Hypothesis Hn : 1 <= n.

Lemma backfill_unfold ts fuel i d :
  backfill C ts fuel i d =
  if i =? startIndex d then Some d
  else match fuel with
       | O => None
       | S k =>
           let i' := mask C (i - 1) in
           c ← index (cache d) i';
           match c with
           | Some _ => Some d
           | None => d' ← timestamp_put d i' ts; backfill C ts k i' d'
           end
       end.
Proof. destruct fuel; reflexivity. Qed.

(** Started [k] slots after the head, the stamping loop ends within [k]
    iterations and only writes timestamps. *)
Lemma backfill_spec ts fuel : forall k d,
  shape C d -> 0 <= k < C -> k <= Z.of_nat fuel ->
  exists d', backfill C ts fuel ((startIndex d + k) mod C) d = Some d' /\
             restamped ts d d'.
Proof.
  pose proof (pow2_range C HC) as HR.
  induction fuel as [|fuel IH]; intros k d Hsh Hk Hf; rewrite backfill_unfold.
  - assert (k = 0) as -> by lia. rewrite ring_head by apply Hsh.
    rewrite Z.eqb_refl. exists d. split; [reflexivity|apply restamped_refl].
  - destruct (Z.eqb_spec ((startIndex d + k) mod C) (startIndex d)) as [He|Hne].
    { exists d. split; [reflexivity|apply restamped_refl]. }
    assert (Hk0 : k <> 0).
    { intros ->. apply Hne. apply ring_head. apply Hsh. }
    cbn zeta. rewrite mask_mod by assumption.
    rewrite Zminus_mod_idemp_l.
    replace (startIndex d + k - 1) with (startIndex d + (k - 1)) by lia.
    pose proof (ring_range C (startIndex d + (k - 1))) as Hrg.
    destruct (slot_defined C HC d (k - 1) Hsh) as [c Hc]. unfold slot in Hc.
    rewrite Hc. cbn [mbind option_bind]. destruct c as [p|].
    { exists d. split; [reflexivity|apply restamped_refl]. }
    rewrite (timestamp_put_ok C) by (assumption || lia). cbn [mbind option_bind].
    set (d1 := set_timestamp d _).
    assert (Hr1 : restamped ts d d1) by apply restamped_put.
    destruct (IH (k - 1) d1) as (d' & E & Hr); [|lia|lia|].
    { eapply restamped_shape; eassumption. }
    exists d'. split; [exact E|]. eapply restamped_trans; eassumption.
Qed.

End Backfill.

(** * Runs of iterations *)

Section Chains.
Variables (C n : Z).
Hypothesis HC : pow2 C.
Hypothesis Hn : 1 <= n.

Lemma chain_snoc R i st j st1 st2 :
  chain R i st j st1 -> R j st1 st2 -> chain R i st (j + 1) st2.
Proof.
  induction 1 as [i st|i st sta j st' H1 H2 IH]; intros HR.
  - eapply chain_step; [exact HR|apply chain_nil].
  - eapply chain_step; [exact H1|apply IH; exact HR].
Qed.

Lemma chain_le R i st j st' : chain R i st j st' -> i <= j.
Proof. induction 1; lia. Qed.

Lemma passed_shape i st st' : passed n C i st st' -> shape C (fd st) -> shape C (fd st').
Proof. intros [E _] Hsh. rewrite E. apply advance_shape. exact Hsh. Qed.

Lemma forceFlush_chain st :
  shape C (fd st) ->
  exists st' j, forceFlush C n (Z.to_nat C) 0 st = Some st' /\
                chain (forced n C) 0 st j st' /\ shape C (fd st') /\
                (j = C \/ foffset st' < C).
Proof.
  intros Hsh. pose proof (pow2_range C HC) as HR.
  destruct (forceFlush_rule C n
              (fun i st' => chain (forced n C) 0 st i st' /\ shape C (fd st')))
    with (m := Z.to_nat C) (i := 0) (st := st)
    as (st' & j & E & Hj & [Hch Hsh'] & Hex).
  - intros i sta Hi Hoff [Hch Hsa].
    destruct (forceStep_cases C n HC Hn i sta Hsa Hi) as (stb & E & Hp & Ho).
    exists stb. split; [exact E|]. split.
    + eapply chain_snoc; [exact Hch|].
      split; [lia|]. split; [exact Hoff|]. split; assumption.
    + eapply passed_shape; eassumption.
  - lia.
  - lia.
  - split; [apply chain_nil|exact Hsh].
  - exists st', j. auto.
Qed.

Lemma flush_chain ts st :
  shape C (fd st) ->
  exists st' j, flush C n ts (Z.to_nat C) 0 st = Some st' /\
                chain (flushed n C ts) 0 st j st' /\ shape C (fd st') /\
                (j = C \/ flush_stops C ts st').
Proof.
  intros Hsh. pose proof (pow2_range C HC) as HR.
  destruct (flush_rule C n ts
              (fun i st' => chain (flushed n C ts) 0 st i st' /\ shape C (fd st')))
    with (m := Z.to_nat C) (i := 0) (st := st)
    as (st' & j & E & Hj & [Hch Hsh'] & Hex).
  - intros i sta Hi [Hch Hsa].
    destruct (flushStep_cases C n HC Hn ts i sta Hsa Hi) as (r & E & Hr).
    exists r. split; [exact E|]. destruct r as [stb|stb].
    + apply Hr.
    + destruct Hr as (Hp & Ho & Hto). split.
      * eapply chain_snoc; [exact Hch|].
        split; [lia|]. split; [exact Hp|]. split; assumption.
      * eapply passed_shape; eassumption.
  - lia.
  - lia.
  - split; [apply chain_nil|exact Hsh].
  - exists st', j. split; [exact E|]. split; [exact Hch|]. split; [exact Hsh'|].
    destruct Hex as [->|Hbr]; [left; reflexivity|].
    destruct (decide (j = C)) as [->|Hne]; [left; reflexivity|]. right.
    destruct (flushStep_cases C n HC Hn ts j st' Hsh') as (r & E' & Hr); [lia|].
    rewrite E' in Hbr. injection Hbr as ->. destruct Hr as (_ & Hh & Ht).
    split; assumption.
Qed.

(** [insert] never panics on a window of the right shape, and it is the
    composition of its phases. *)
Lemma insert_phases p d out :
  shape C d ->
  exists st1 j1 d5 st6 j6,
    let sq := Seq (decoder p) in
    let ts := Decoder.timestamp (decoder p) in
    let st2 := bulkGap C st1 in
    chain (forced n C) 0 (mkFrame (stamp d ts) 0 (u64 (sq - seq d)) out) j1 st1 /\
    (j1 = C \/ foffset st1 < C) /\
    restamped ts (place C p st2) d5 /\
    chain (flushed n C ts) 0 (mkFrame d5 (fdropped st2) (foffset st2) (fout st2)) j6 st6 /\
    (j6 = C \/ flush_stops C ts st6) /\
    insert C n p d out = Some (settle st6, fout st6, fdropped st6, 0).
Proof.
  intros Hsh. pose proof (pow2_range C HC) as HR. unfold insert.
  fold (stamp d (Decoder.timestamp (decoder p))).
  set (ts := Decoder.timestamp (decoder p)). set (sq := Seq (decoder p)).
  assert (Hs0 : shape C (stamp d ts)).
  { unfold stamp. destruct (maxTimestamp d <? ts); [|exact Hsh].
    destruct Hsh. split; assumption. }
  assert (Eseq : seq (stamp d ts) = seq d).
  { unfold stamp. destruct (maxTimestamp d <? ts); reflexivity. }
  rewrite Eseq.
  destruct (forceFlush_chain (mkFrame (stamp d ts) 0 (u64 (sq - seq d)) out) Hs0)
    as (st1 & j1 & E1 & Hch1 & Hsh1 & Hex1).
  rewrite E1. cbn [mbind option_bind].
  set (st2 := bulkGap C st1).
  assert (Hsh2 : shape C (fd st2)).
  { unfold st2, bulkGap. destruct (C <=? foffset st1); [|exact Hsh1].
    destruct Hsh1 as [Hc Ht Hs]. split; simpl; [assumption..|].
    rewrite mask_mod by assumption. apply ring_range. lia. }
  rewrite mask_mod by assumption.
  pose proof (ring_range C (startIndex (fd st2) + foffset st2)) as Hcur.
  set (cur := (startIndex (fd st2) + foffset st2) mod C) in *.
  rewrite (cache_put_ok C) by (assumption || lia). cbn [mbind option_bind].
  rewrite (timestamp_put_ok C);
    [|apply set_cache_shape; [assumption|apply length_insert]|lia].
  cbn [mbind option_bind]. cbn [timestamp set_cache].
  assert (Epl : set_timestamp
                  (set_cache (fd st2) (<[Z.to_nat cur := Some p]> (cache (fd st2))))
                  (<[Z.to_nat cur := ts]> (timestamp (fd st2)))
                = place C p st2) by reflexivity.
  rewrite Epl.
  assert (Hsh3 : shape C (place C p st2)).
  { destruct Hsh2 as [Hc Ht Hs]. split; simpl; rewrite ?length_insert; assumption. }
  set (k := foffset st2 mod C).
  assert (Ek : cur = (startIndex (place C p st2) + k) mod C).
  { unfold k, cur. simpl. rewrite Zplus_mod_idemp_r. reflexivity. }
  rewrite Ek.
  destruct (backfill_spec C HC ts (Z.to_nat C) k (place C p st2) Hsh3)
    as (d5 & E5 & Hr5).
  { apply ring_range. lia. }
  { pose proof (ring_range C (foffset st2)). lia. }
  rewrite E5. cbn [mbind option_bind].
  assert (Hsh5 : shape C d5) by (eapply restamped_shape; eassumption).
  destruct (flush_chain ts (mkFrame d5 (fdropped st2) (foffset st2) (fout st2)) Hsh5)
    as (st6 & j6 & E6 & Hch6 & Hsh6 & Hex6).
  rewrite E6. cbn [mbind option_bind].
  exists st1, j1, d5, st6, j6. cbn zeta. fold st2.
  split; [exact Hch1|]. split; [exact Hex1|]. split; [exact Hr5|].
  split; [exact Hch6|]. split; [exact Hex6|]. reflexivity.
Qed.

End Chains.

(** * Well-formedness is kept by [cacheLookup] *)

Lemma same_ring_slot C d d' k : same_ring d d' -> slot C d' k = slot C d k.
Proof. intros (a1 & a2 & a3 & a4). unfold slot. rewrite a1, a4. reflexivity. Qed.

Lemma same_ring_shape C d d' : same_ring d d' -> shape C d -> shape C d'.
Proof.
  intros (a1 & a2 & a3 & a4) [Hc Ht Hs].
  split; [rewrite a1|rewrite a2|rewrite a4]; assumption.
Qed.

Lemma same_ring_wf C d d' : same_ring d d' -> wf C d -> wf C d'.
Proof.
  intros Hr [Hsh Hseq Hslots Hun]. pose proof Hr as (a1 & a2 & a3 & a4). split.
  - eapply same_ring_shape; eassumption.
  - rewrite a3. exact Hseq.
  - intros k p Hk. rewrite (same_ring_slot C d d' k Hr), a3. apply Hslots. exact Hk.
  - rewrite a3. intros Hz k Hk. rewrite (same_ring_slot C d d' k Hr). apply Hun; assumption.
Qed.

Lemma same_ring_stable C d d' : same_ring d d' -> stable C d -> stable C d'.
Proof.
  intros Hr [Hw Hh]. split; [eapply same_ring_wf; eassumption|].
  rewrite (same_ring_slot C d d' 0 Hr). exact Hh.
Qed.

Lemma stamp_same_ring d ts : same_ring d (stamp d ts).
Proof. unfold stamp, same_ring. destruct (maxTimestamp d <? ts); simpl; auto. Qed.

Lemma settle_same_ring st : same_ring (fd st) (settle st).
Proof. unfold settle, same_ring. destruct (0 <? fdropped st); simpl; auto. Qed.

Lemma restamped_same_ring ts d d' : restamped ts d d' -> same_ring d d'.
Proof. intros (a1 & a2 & a3 & a4 & a5 & a6 & a7). unfold same_ring. auto. Qed.

Section WellFormed.
Variables (C n : Z).
Hypothesis HC : pow2 C.
Hypothesis Hn : 1 <= n.

Lemma forced_passed i a b : forced n C i a b -> passed n C i a b.
Proof. intros (_ & _ & H & _). exact H. Qed.

Lemma flushed_passed ts i a b : flushed n C ts i a b -> passed n C i a b.
Proof. intros (_ & H & _). exact H. Qed.

Section AnyChain.
Variable R : Z -> frame -> frame -> Prop.
Hypothesis R_passed : forall i a b, R i a b -> passed n C i a b.

Lemma chain_shape i st j st' :
  chain R i st j st' -> shape C (fd st) -> shape C (fd st').
Proof.
  induction 1 as [|i st st1 j st' H1 H2 IH]; intros Hsh; [exact Hsh|].
  apply IH. eapply passed_shape; [apply R_passed; exact H1|exact Hsh].
Qed.

Lemma chain_wf i st j st' :
  chain R i st j st' -> wf C (fd st) -> wf C (fd st').
Proof.
  induction 1 as [|i st st1 j st' H1 H2 IH]; intros Hw; [exact Hw|].
  apply IH. destruct (R_passed _ _ _ H1) as [E _]. rewrite E.
  apply advance_wf; assumption.
Qed.

Lemma chain_tail i st j st' t :
  chain R i st j st' -> shape C (fd st) -> tail_empty C (fd st) t ->
  tail_empty C (fd st') (t + (j - i)).
Proof.
  induction 1 as [i st|i st st1 j st' H1 H2 IH] in t |- *; intros Hsh Ht.
  - replace (t + (i - i)) with t by lia. exact Ht.
  - replace (t + (j - i)) with (t + 1 + (j - (i + 1))) by lia.
    destruct (R_passed _ _ _ H1) as [E _]. apply IH.
    + rewrite E. apply advance_shape. exact Hsh.
    + rewrite E. apply advance_tail; assumption.
Qed.

End AnyChain.

Lemma all_empty_index d i :
  shape C d -> tail_empty C d C -> 0 <= i < C -> index (cache d) i = Some None.
Proof.
  intros Hsh Ht Hi. pose proof (pow2_range C HC) as HR.
  pose proof (ring_range C (i - startIndex d) ltac:(lia)) as Hk.
  pose proof (Ht ((i - startIndex d) mod C)) as Hs. unfold slot in Hs.
  rewrite Zplus_mod_idemp_r in Hs.
  replace (startIndex d + (i - startIndex d)) with i in Hs by lia.
  rewrite (Z.mod_small i C) in Hs by lia. apply Hs; lia.
Qed.

Lemma all_empty_slots d d' k :
  shape C d -> tail_empty C d C -> cache d' = cache d -> slot C d' k = Some None.
Proof.
  intros Hsh Ht Hc. unfold slot. rewrite Hc. apply all_empty_index; try assumption.
  apply ring_range. pose proof (pow2_range C HC). lia.
Qed.

(** The forced flush keeps the incoming packet aligned with the head. *)
Lemma chain_forced_aligned sq i st j st' :
  chain (forced n C) i st j st' ->
  wf C (fd st) -> aligned (fd st) sq (foffset st) ->
  aligned (fd st') sq (foffset st').
Proof.
  pose proof (pow2_range C HC) as HR.
  induction 1 as [|i st st1 j st' H1 H2 IH]; intros Hw Ha; [exact Ha|].
  apply IH.
  - destruct H1 as (_ & _ & [E _] & _). rewrite E. apply advance_wf; assumption.
  - destruct H1 as (_ & Hoff & [E _] & Eo). destruct Ha as (a1 & a2 & a3 & a4).
    pose proof (wf_seq C _ Hw) as Hs.
    unfold aligned. rewrite Eo, E. unfold advance. cbn [seq].
    rewrite (u64_small (foffset st - 1)) by lia.
    destruct (decide (seq (fd st) + 1 < 2 ^ 64)) as [Hlt|Hge].
    + rewrite (u64_small (seq (fd st) + 1)) by lia.
      replace (seq (fd st) + 1 + (foffset st - 1)) with (seq (fd st) + foffset st) by lia.
      repeat split; first [lia | exact a3].
    + assert (seq (fd st) + 1 = 2 ^ 64 /\ foffset st = 1) as [E1 E2] by lia.
      rewrite E1, u64_wrap, E2. repeat split; try lia.
      rewrite a3. replace (seq (fd st) + foffset st) with (2 ^ 64) by lia. reflexivity.
Qed.

(** After the bulk advance the packet falls inside the window. *)
Lemma bulkGap_wf sq st :
  wf C (fd st) -> aligned (fd st) sq (foffset st) ->
  (C <= foffset st -> tail_empty C (fd st) C) ->
  wf C (fd (bulkGap C st)) /\ aligned (fd (bulkGap C st)) sq (foffset (bulkGap C st)) /\
  foffset (bulkGap C st) < C.
Proof.
  pose proof (pow2_range C HC) as HR.
  intros Hw Ha Hem. unfold bulkGap.
  destruct (Z.leb_spec C (foffset st)) as [Hge|Hlt]; [|auto].
  specialize (Hem Hge). destruct Ha as (a1 & a2 & a3 & a4).
  pose proof (wf_seq C _ Hw) as Hs. pose proof (wf_shape C _ Hw) as Hsh.
  rewrite (u64_small (foffset st - C)) by lia.
  rewrite (u64_small (foffset st - C + 1)) by lia.
  cbn [fd foffset]. rewrite mask_mod by assumption.
  set (d' := set_startIndex _ _).
  assert (Hsl : forall k, slot C d' k = Some None).
  { intros k. eapply all_empty_slots; [exact Hsh|exact Hem|reflexivity]. }
  split; [|split].
  - split.
    + destruct Hsh as [Hc Ht Hi]. split; simpl; [assumption..|]. apply ring_range. lia.
    + simpl. apply u64_range.
    + intros k p _ Hp. rewrite Hsl in Hp. discriminate.
    + intros _ k _. apply Hsl.
  - unfold aligned. subst d'. cbn [fd foffset seq set_startIndex set_seq].
    replace (foffset st - (foffset st - C + 1)) with (C - 1) by lia.
    rewrite (u64_small (C - 1)) by lia.
    destruct (decide (seq (fd st) + (foffset st - C + 1) < 2 ^ 64)) as [Hl|Hg].
    + rewrite (u64_small (seq (fd st) + (foffset st - C + 1))) by lia.
      replace (seq (fd st) + (foffset st - C + 1) + (C - 1))
        with (seq (fd st) + foffset st) by lia.
      repeat split; first [lia | exact a3].
    + assert (seq (fd st) + (foffset st - C + 1) = 2 ^ 64 /\ C = 1) as [E1 E2] by lia.
      rewrite E1, u64_wrap. repeat split; try lia.
      rewrite a3. replace (seq (fd st) + foffset st) with (2 ^ 64) by lia.
      replace (0 + (C - 1)) with 0 by lia. reflexivity.
  - cbn [foffset]. replace (foffset st - (foffset st - C + 1)) with (C - 1) by lia.
    rewrite (u64_small (C - 1)) by lia. lia.
Qed.

(** The slots after the packet is placed. *)
Lemma slot_place_eq p st :
  shape C (fd st) -> 0 <= foffset st < C ->
  slot C (place C p st) (foffset st) = Some (Some p).
Proof.
  intros [Hc Ht Hs] Ho. unfold slot, place. simpl.
  apply index_insert_eq. rewrite Hc. apply ring_range. lia.
Qed.

Lemma slot_place_ne p st k :
  shape C (fd st) -> 0 <= foffset st < C -> 0 <= k < C -> k <> foffset st ->
  slot C (place C p st) k = slot C (fd st) k.
Proof.
  intros [Hc Ht Hs] Ho Hk Hne. unfold slot, place. simpl.
  apply index_insert_ne; try (apply ring_range; lia).
  intros He. apply ring_inj in He; lia.
Qed.

Lemma place_shape p st : shape C (fd st) -> shape C (place C p st).
Proof. intros [Hc Ht Hs]. split; simpl; rewrite ?length_insert; assumption. Qed.

Lemma place_wf p st :
  wf C (fd st) -> aligned (fd st) (Seq (decoder p)) (foffset st) -> foffset st < C ->
  wf C (place C p st).
Proof.
  intros Hw (a1 & a2 & a3 & a4) Ho.
  pose proof (wf_shape C _ Hw) as Hsh. split.
  - apply place_shape. exact Hsh.
  - simpl. apply (wf_seq C _ Hw).
  - intros k q Hk Hq. cbn [place seq set_timestamp set_cache].
    destruct (decide (k = foffset st)) as [->|Hne].
    + rewrite slot_place_eq in Hq by (assumption || lia).
      injection Hq as <-. split; assumption.
    + rewrite slot_place_ne in Hq by (assumption || lia).
      apply (wf_slots C _ Hw); assumption.
  - cbn [place seq set_timestamp set_cache]. intros Hz k Hk.
    rewrite slot_place_ne by (assumption || lia).
    apply (wf_unseeded C _ Hw); assumption.
Qed.

(** The windows between the phases of [insert] are well formed. *)
Lemma phases_wf p d out st1 j1 d5 st6 j6 :
  let sq := Seq (decoder p) in
  let ts := Decoder.timestamp (decoder p) in
  let st2 := bulkGap C st1 in
  wf C d -> aligned d sq (u64 (sq - seq d)) ->
  chain (forced n C) 0 (mkFrame (stamp d ts) 0 (u64 (sq - seq d)) out) j1 st1 ->
  (j1 = C \/ foffset st1 < C) ->
  restamped ts (place C p st2) d5 ->
  chain (flushed n C ts) 0 (mkFrame d5 (fdropped st2) (foffset st2) (fout st2)) j6 st6 ->
  (j6 = C \/ flush_stops C ts st6) ->
  wf C (fd st1) /\ aligned (fd st1) sq (foffset st1) /\
  wf C (fd st2) /\ aligned (fd st2) sq (foffset st2) /\ foffset st2 < C /\
  wf C d5 /\ wf C (fd st6) /\ slot C (fd st6) 0 = Some None.
Proof.
  intros sq ts st2 Hw Ha Hch1 Hex1 Hr5 Hch6 Hex6. pose proof (pow2_range C HC) as HR.
  set (st0 := mkFrame (stamp d ts) 0 _ out) in *.
  assert (Hw0 : wf C (fd st0)).
  { eapply same_ring_wf; [apply stamp_same_ring|exact Hw]. }
  assert (Ha0 : aligned (fd st0) sq (foffset st0)).
  { unfold aligned, st0. simpl. destruct (stamp_same_ring d ts) as (_ & _ & -> & _). exact Ha. }
  assert (Hw1 : wf C (fd st1)) by (eapply (chain_wf _ forced_passed); eassumption).
  assert (Ha1 : aligned (fd st1) sq (foffset st1))
    by (eapply chain_forced_aligned; eassumption).
  assert (Hem : C <= foffset st1 -> tail_empty C (fd st1) C).
  { intros Hge. destruct Hex1 as [->|Hlt]; [|lia].
    replace C with (0 + (C - 0)) at 2 by lia.
    eapply (chain_tail _ forced_passed); [eassumption|apply (wf_shape C _ Hw0)|].
    apply tail_empty_0. }
  destruct (bulkGap_wf _ _ Hw1 Ha1 Hem) as (Hw2 & Ha2 & Ho2). fold st2 in Hw2, Ha2, Ho2.
  assert (Hw3 : wf C (place C p st2)) by (apply place_wf; assumption).
  assert (Hw5 : wf C d5).
  { eapply same_ring_wf; [eapply restamped_same_ring; eassumption|exact Hw3]. }
  set (st5 := mkFrame d5 _ _ _) in *.
  assert (Hw6 : wf C (fd st6)) by (eapply (chain_wf _ (flushed_passed ts)); eassumption).
  assert (Hh6 : slot C (fd st6) 0 = Some None).
  { destruct Hex6 as [->|[Hh _]]; [|exact Hh].
    assert (Ht : tail_empty C (fd st6) (0 + (C - 0))).
    { eapply (chain_tail _ (flushed_passed ts)); [eassumption|apply (wf_shape C _ Hw5)|].
      apply tail_empty_0. }
    apply Ht; lia. }
  split; [exact Hw1|]. split; [exact Ha1|]. split; [exact Hw2|].
  split; [exact Ha2|]. split; [exact Ho2|]. split; [exact Hw5|].
  split; [exact Hw6|exact Hh6].
Qed.

(** [insert] on a well-formed window the packet is aligned with. *)
Lemma insert_stable p d out :
  wf C d -> aligned d (Seq (decoder p)) (u64 (Seq (decoder p) - seq d)) ->
  exists d' out' dr, insert C n p d out = Some (d', out', dr, 0) /\ stable C d'.
Proof.
  intros Hw Ha.
  destruct (insert_phases C n HC Hn p d out (wf_shape C d Hw))
    as (st1 & j1 & d5 & st6 & j6 & Hch1 & Hex1 & Hr5 & Hch6 & Hex6 & E).
  destruct (phases_wf p d out st1 j1 d5 st6 j6 Hw Ha Hch1 Hex1 Hr5 Hch6 Hex6)
    as (_ & _ & _ & _ & _ & _ & Hw6 & Hh6).
  eexists _, _, _. split; [exact E|].
  eapply same_ring_stable; [apply settle_same_ring|]. split; assumption.
Qed.

End WellFormed.

Section Calls.
Variables (C n : Z).
Hypothesis HC : pow2 C.
Hypothesis Hn : 1 <= n.

Lemma seeded_backward d p :
  0 <= Seq (decoder p) -> is_backward d p = true ->
  seeded d (Seq (decoder p)) = d /\ seq d <> 0 /\ Seq (decoder p) < seq d.
Proof.
  unfold is_backward, seeded. intros Hp.
  destruct (Z.eqb_spec (seq d) 0) as [E|E]; simpl; intros Hb.
  - apply Z.ltb_lt in Hb. lia.
  - apply Z.ltb_lt in Hb. auto.
Qed.

(** [cacheLookup] by cases. *)
Lemma cacheLookup_stale d p :
  is_stale d p = true ->
  cacheLookup C n d p = Some (seeded d (Seq (decoder p)), [Release p], 0, 1).
Proof.
  unfold is_stale, is_backward, cacheLookup, seeded. intros H.
  apply andb_prop in H as [H1 H2]. apply negb_true_iff in H2.
  destruct (seq d =? 0); simpl in *; rewrite H1, H2; reflexivity.
Qed.

Lemma cacheLookup_restart d p :
  is_restart d p = true ->
  cacheLookup C n d p =
  '(d1, out) ← restart C (Seq (decoder p)) (seeded d (Seq (decoder p))) [];
  insert C n p d1 out.
Proof.
  unfold is_restart, is_backward, cacheLookup, seeded. intros H.
  apply andb_prop in H as [H1 H2].
  destruct (seq d =? 0); simpl in *; rewrite H1, H2; reflexivity.
Qed.

Lemma cacheLookup_forward d p :
  is_backward d p = false ->
  cacheLookup C n d p = insert C n p (seeded d (Seq (decoder p))) [].
Proof.
  unfold is_backward, cacheLookup, seeded. intros H.
  destruct (seq d =? 0); simpl in *; rewrite H; reflexivity.
Qed.

Lemma call_cases d p :
  is_stale d p = true \/ is_restart d p = true \/ is_backward d p = false.
Proof.
  unfold is_stale, is_restart. destruct (is_backward d p); simpl; [|auto].
  destruct (maxTimestamp d <? _); auto.
Qed.

Lemma stable_unseeded_empty d k :
  stable C d -> seq d = 0 -> 0 <= k < C -> slot C d k = Some None.
Proof.
  intros [Hw Hh] Hz Hk. destruct (decide (k = 0)) as [->|Hne]; [exact Hh|].
  apply (wf_unseeded C d Hw Hz). lia.
Qed.

(** A window whose slots are all empty is well formed wherever it starts. *)
Lemma empty_wf d :
  shape C d -> 0 <= seq d < 2 ^ 64 -> (forall k, 0 <= k < C -> slot C d k = Some None) ->
  wf C d.
Proof.
  intros Hsh Hs He. split; [assumption..| |].
  - intros k p Hk Hp. rewrite He in Hp by assumption. discriminate.
  - intros _ k Hk. apply He. lia.
Qed.

Lemma seeded_wf d sq :
  stable C d -> 0 <= sq < 2 ^ 64 -> wf C (seeded d sq).
Proof.
  intros Hst Hsq. unfold seeded. destruct (Z.eqb_spec (seq d) 0) as [Hz|Hz]; [|apply Hst].
  apply empty_wf.
  - destruct Hst as [[[Hc Ht Hs] _ _ _] _]. split; assumption.
  - exact Hsq.
  - intros k Hk. apply (stable_unseeded_empty d k Hst Hz Hk).
Qed.

Lemma seeded_aligned d p :
  valid p -> is_backward d p = false ->
  wf C (seeded d (Seq (decoder p))) ->
  aligned (seeded d (Seq (decoder p))) (Seq (decoder p))
          (u64 (Seq (decoder p) - seq (seeded d (Seq (decoder p))))).
Proof.
  intros [Hsq _] Hb Hw. unfold is_backward in Hb. apply Z.ltb_ge in Hb.
  pose proof (wf_seq C _ Hw) as Hs.
  set (d0 := seeded d (Seq (decoder p))) in *.
  rewrite u64_small by lia. unfold aligned.
  replace (seq d0 + (Seq (decoder p) - seq d0)) with (Seq (decoder p)) by lia.
  rewrite u64_small by lia. repeat split; try lia.
  intros Hz. unfold d0, seeded in Hz |- *.
  destruct (Z.eqb_spec (seq d) 0) as [E|E]; simpl in *; lia.
Qed.

Lemma reseated_shape sq d : shape C (reseated C sq d).
Proof.
  pose proof (pow2_range C HC). split; simpl; rewrite ?length_make; lia.
Qed.

Lemma reseated_slot sq d k : 0 <= k < C -> slot C (reseated C sq d) k = Some None.
Proof.
  intros Hk. unfold slot. simpl. apply index_make. apply ring_range. lia.
Qed.

Lemma reseated_wf sq d : 0 <= sq < 2 ^ 64 -> wf C (reseated C sq d).
Proof.
  intros Hsq. pose proof (pow2_range C HC). apply empty_wf.
  - apply reseated_shape.
  - simpl. destruct (Z.ltb_spec C sq); [apply u64_range|lia].
  - apply reseated_slot.
Qed.

Lemma reseated_aligned sq d :
  0 <= sq < 2 ^ 64 ->
  aligned (reseated C sq d) sq (u64 (sq - seq (reseated C sq d))).
Proof.
  intros Hsq. pose proof (pow2_range C HC). unfold aligned. simpl.
  destruct (Z.ltb_spec C sq) as [Hlt|Hge].
  - rewrite (u64_small (sq - C)) by lia.
    replace (sq - (sq - C)) with C by lia. rewrite (u64_small C) by lia.
    replace (sq - C + C) with sq by lia. rewrite u64_small by lia. lia.
  - destruct (decide (sq = 0)) as [->|Hnz].
    + change (u64 (0 - 1)) with (2 ^ 64 - 1).
      replace (1 + (2 ^ 64 - 1)) with (2 ^ 64) by lia. rewrite u64_wrap. lia.
    + rewrite (u64_small (sq - 1)) by lia.
      replace (1 + (sq - 1)) with sq by lia. rewrite u64_small by lia. lia.
Qed.

(** Every call on a stable window returns, and leaves the window stable. *)
Lemma cacheLookup_stable d p :
  stable C d -> valid p ->
  exists d' out dr ex, cacheLookup C n d p = Some (d', out, dr, ex) /\ stable C d'.
Proof.
  intros Hst Hv. pose proof (pow2_range C HC) as HR.
  pose proof Hv as [Hsq _].
  pose proof (seeded_wf d _ Hst Hsq) as Hw0.
  destruct (call_cases d p) as [Hc|[Hc|Hc]].
  - rewrite cacheLookup_stale by exact Hc.
    eexists _, _, _, _. split; [reflexivity|].
    apply andb_prop in Hc as [Hb _].
    destruct (seeded_backward d p) as (-> & _); [lia|exact Hb|exact Hst].
  - rewrite cacheLookup_restart by exact Hc.
    rewrite restart_spec by (lia || apply Hw0). cbn [mbind option_bind].
    destruct (insert_stable C n HC Hn p (reseated C (Seq (decoder p)) (seeded d (Seq (decoder p))))
                ([] ++ (Release <$> cached (seeded d (Seq (decoder p))))))
      as (d' & out' & dr & E & Hst').
    + apply reseated_wf. exact Hsq.
    + apply reseated_aligned. exact Hsq.
    + eexists _, _, _, _. split; [exact E|exact Hst'].
  - rewrite cacheLookup_forward by exact Hc.
    destruct (insert_stable C n HC Hn p (seeded d (Seq (decoder p))) [])
      as (d' & out' & dr & E & Hst').
    + exact Hw0.
    + apply seeded_aligned; assumption.
    + eexists _, _, _, _. split; [exact E|exact Hst'].
Qed.

Lemma fresh_stable : stable C (freshDispatcher C).
Proof.
  pose proof (pow2_range C HC) as HR.
  assert (He : forall k, 0 <= k < C -> slot C (freshDispatcher C) k = Some None).
  { intros k Hk. unfold slot. simpl. apply index_make. apply ring_range. lia. }
  split; [|apply He; lia]. apply empty_wf.
  - split; simpl; rewrite ?length_make; lia.
  - simpl. lia.
  - exact He.
Qed.

Lemma feed_stable ps : forall d,
  stable C d -> Forall valid ps ->
  exists d' out dr ex, feed C n d ps = Some (d', out, dr, ex) /\ stable C d'.
Proof.
  induction ps as [|p ps IH]; intros d Hst Hv.
  - eexists _, _, _, _. split; [reflexivity|exact Hst].
  - apply Forall_cons in Hv as [Hp Hv].
    destruct (cacheLookup_stable d p Hst Hp) as (d1 & o1 & dr1 & ex1 & E1 & Hst1).
    destruct (IH d1 Hst1 Hv) as (d2 & o2 & dr2 & ex2 & E2 & Hst2).
    simpl. rewrite E1. simpl. rewrite E2. simpl.
    eexists _, _, _, _. split; [reflexivity|exact Hst2].
Qed.

(** The well-formedness of a stable window, slot by slot. *)
Lemma stable_by_index d :
  stable C d ->
  0 <= startIndex d < C /\
  index (cache d) (startIndex d) = Some None /\
  forall i p, 0 <= i < C -> index (cache d) i = Some (Some p) ->
              Seq (decoder p) = u64 (seq d + (i - startIndex d) mod C).
Proof.
  intros [Hw Hh]. pose proof (pow2_range C HC) as HR.
  pose proof (wf_shape C d Hw) as Hsh. split; [apply Hsh|]. split.
  - rewrite <- (slot_head C) by assumption. exact Hh.
  - intros i p Hi Hp.
    pose proof (ring_range C (i - startIndex d) ltac:(lia)) as Hk.
    apply (wf_slots C d Hw _ p Hk). unfold slot.
    rewrite Zplus_mod_idemp_r.
    replace (startIndex d + (i - startIndex d)) with i by lia.
    rewrite Z.mod_small by lia. exact Hp.
Qed.

End Calls.

(** * The largest timestamp seen *)

Section MaxTimestamp.
Variables (C n : Z).
Hypothesis HC : pow2 C.
Hypothesis Hn : 1 <= n.

Lemma chain_maxTimestamp R i st j st' :
  (forall i a b, R i a b -> passed n C i a b) ->
  chain R i st j st' -> maxTimestamp (fd st') = maxTimestamp (fd st).
Proof.
  intros HR. induction 1 as [|i st st1 j st' H1 H2 IH]; [reflexivity|].
  rewrite IH. destruct (HR _ _ _ H1) as [E _]. rewrite E. reflexivity.
Qed.

Lemma bulkGap_maxTimestamp st :
  maxTimestamp (fd (bulkGap C st)) = maxTimestamp (fd st).
Proof. unfold bulkGap. destruct (C <=? foffset st); reflexivity. Qed.

Lemma settle_maxTimestamp st : maxTimestamp (settle st) = maxTimestamp (fd st).
Proof. unfold settle. destruct (0 <? fdropped st); reflexivity. Qed.

Lemma stamp_maxTimestamp d ts : maxTimestamp (stamp d ts) = Z.max (maxTimestamp d) ts.
Proof. unfold stamp. destruct (Z.ltb_spec (maxTimestamp d) ts); simpl; lia. Qed.

Lemma insert_maxTimestamp p d out :
  shape C d ->
  exists d' out' dr,
    insert C n p d out = Some (d', out', dr, 0) /\
    maxTimestamp d' = Z.max (maxTimestamp d) (Decoder.timestamp (decoder p)).
Proof.
  intros Hsh.
  destruct (insert_phases C n HC Hn p d out Hsh)
    as (st1 & j1 & d5 & st6 & j6 & Hch1 & Hex1 & Hr5 & Hch6 & Hex6 & E).
  cbn zeta in *. eexists _, _, _. split; [exact E|].
  rewrite settle_maxTimestamp.
  rewrite (chain_maxTimestamp _ _ _ _ _ (flushed_passed C n _) Hch6). cbn [fd].
  destruct Hr5 as (_ & _ & _ & -> & _). cbn [place maxTimestamp set_timestamp set_cache].
  rewrite bulkGap_maxTimestamp.
  rewrite (chain_maxTimestamp _ _ _ _ _ (forced_passed C n) Hch1). cbn [fd].
  apply stamp_maxTimestamp.
Qed.

Lemma seeded_maxTimestamp d sq : maxTimestamp (seeded d sq) = maxTimestamp d.
Proof. unfold seeded. destruct (seq d =? 0); reflexivity. Qed.

Lemma seeded_shape d sq : shape C d -> shape C (seeded d sq).
Proof.
  intros [Hc Ht Hs]. unfold seeded. destruct (seq d =? 0); split; assumption.
Qed.

Lemma cacheLookup_maxTimestamp d p :
  shape C d ->
  exists d' out dr ex,
    cacheLookup C n d p = Some (d', out, dr, ex) /\
    maxTimestamp d' =
      (if is_stale d p then maxTimestamp d
       else Z.max (maxTimestamp d) (Decoder.timestamp (decoder p))).
Proof.
  intros Hsh. pose proof (pow2_range C HC) as HR.
  destruct (call_cases d p) as [Hc|[Hc|Hc]].
  - rewrite cacheLookup_stale by exact Hc. rewrite Hc.
    eexists _, _, _, _. split; [reflexivity|]. apply seeded_maxTimestamp.
  - rewrite cacheLookup_restart by exact Hc.
    rewrite restart_spec by (lia || apply seeded_shape; exact Hsh).
    cbn [mbind option_bind].
    assert (Hs : is_stale d p = false).
    { unfold is_restart in Hc. unfold is_stale.
      apply andb_prop in Hc as [-> ->]. reflexivity. }
    rewrite Hs.
    edestruct (insert_maxTimestamp p) as (d' & out' & dr & E & Hm);
      [apply (reseated_shape C HC)|].
    eexists _, _, _, _. split; [exact E|]. rewrite Hm. simpl.
    rewrite seeded_maxTimestamp. reflexivity.
  - rewrite cacheLookup_forward by exact Hc.
    assert (Hs : is_stale d p = false) by (unfold is_stale; rewrite Hc; reflexivity).
    rewrite Hs.
    edestruct (insert_maxTimestamp p) as (d' & out' & dr & E & Hm);
      [apply seeded_shape; exact Hsh|].
    eexists _, _, _, _. split; [exact E|]. rewrite Hm.
    rewrite seeded_maxTimestamp. reflexivity.
Qed.

End MaxTimestamp.

(** * Where the packets go *)

Lemma cached_take (l : list (option packetBuffer)) i p :
  l !! i = Some (Some p) -> omap id l ≡ₚ p :: omap id (<[i := None]> l).
Proof.
  revert i. induction l as [|a l IH]; intros [|i] H; try discriminate.
  - simpl in H. injection H as ->. reflexivity.
  - simpl in H. cbn [insert list_insert omap list_omap].
    destruct a as [q|]; cbn [id].
    + rewrite (IH i H). apply perm_swap.
    + apply (IH i H).
Qed.

Lemma cached_place (l : list (option packetBuffer)) i p :
  (i < length l)%nat -> omap id (<[i := Some p]> l) ⊆+ p :: omap id l.
Proof.
  revert i. induction l as [|a l IH]; intros [|i] H; simpl in H; try lia.
  - cbn [insert list_insert omap list_omap id]. destruct a as [q|].
    + apply submseteq_skip. apply submseteq_cons. reflexivity.
    + reflexivity.
  - cbn [insert list_insert omap list_omap]. destruct a as [q|]; cbn [id].
    + rewrite <- (perm_swap p q). apply submseteq_skip. apply IH. lia.
    + apply IH. lia.
Qed.

Lemma delivered_app o1 o2 : delivered (o1 ++ o2) = delivered o1 ++ delivered o2.
Proof. apply omap_app. Qed.

Lemma released_app o1 o2 : released (o1 ++ o2) = released o1 ++ released o2.
Proof. apply omap_app. Qed.

Lemma delivered_releases l : delivered (Release <$> l) = [].
Proof. induction l; [reflexivity|exact IHl]. Qed.

Lemma released_releases l : released (Release <$> l) = l.
Proof. induction l as [|x l IH]; [reflexivity|]. simpl. f_equal. exact IH. Qed.

Lemma cached_make C : cached (mkDispatcher (make C None) (make C 0) 0 0 0 0) = [].
Proof. unfold cached, make. simpl. induction (Z.to_nat C); [reflexivity|assumption]. Qed.

Section Conservation.
Variables (C n : Z).
Hypothesis HC : pow2 C.
Hypothesis Hn : 1 <= n.

Lemma slot_lookup d k v :
  slot C d k = Some v -> cache d !! Z.to_nat ((startIndex d + k) mod C) = Some v.
Proof. unfold slot, index. case_decide; [auto|discriminate]. Qed.

(** Passing the head moves a packet from the window to the output, or moves
    nothing. *)
Lemma passed_conserves i st st' :
  passed n C i st st' -> shape C (fd st) ->
  delivered (fout st') ++ cached (fd st') ≡ₚ delivered (fout st) ++ cached (fd st) /\
  released (fout st') = released (fout st).
Proof.
  intros [E [(p & Hh & Eo & _)|(Hh & Eo & _)]] Hsh.
  - rewrite Eo, delivered_app, released_app, E. simpl. rewrite app_nil_r. split; [|reflexivity].
    rewrite <- app_assoc. apply Permutation_app_head. simpl. symmetry.
    apply cached_take. apply slot_lookup in Hh.
    rewrite ring_head in Hh by apply Hsh. exact Hh.
  - rewrite Eo, E. rewrite advance_head_empty by assumption. split; reflexivity.
Qed.

Lemma chain_conserves R i st j st' :
  (forall i a b, R i a b -> passed n C i a b) ->
  chain R i st j st' -> shape C (fd st) ->
  delivered (fout st') ++ cached (fd st') ≡ₚ delivered (fout st) ++ cached (fd st) /\
  released (fout st') = released (fout st).
Proof.
  intros HR. induction 1 as [|i st st1 j st' H1 H2 IH]; intros Hsh.
  - split; reflexivity.
  - destruct (passed_conserves _ _ _ (HR _ _ _ H1) Hsh) as [P1 R1].
    destruct IH as [P2 R2]; [eapply passed_shape; eauto|].
    split; [rewrite P2; exact P1|congruence].
Qed.

Lemma bulkGap_cache st : cache (fd (bulkGap C st)) = cache (fd st).
Proof. unfold bulkGap. destruct (C <=? foffset st); reflexivity. Qed.

Lemma bulkGap_fout st : fout (bulkGap C st) = fout st.
Proof. unfold bulkGap. destruct (C <=? foffset st); reflexivity. Qed.

Lemma bulkGap_shape st : shape C (fd st) -> shape C (fd (bulkGap C st)).
Proof.
  intros Hsh. pose proof (pow2_range C HC). unfold bulkGap.
  destruct (C <=? foffset st); [|exact Hsh].
  destruct Hsh as [Hc Ht Hs]. split; simpl; [assumption..|].
  rewrite mask_mod by assumption. apply ring_range. lia.
Qed.

Lemma stamp_shape d ts : shape C d -> shape C (stamp d ts).
Proof. apply same_ring_shape, stamp_same_ring. Qed.

(** [insert] puts the packet in the window and hands some of what the
    window holds downstream; it releases nothing. *)
Lemma insert_conserves p d out :
  shape C d ->
  exists d' out' dr,
    insert C n p d out = Some (d', out', dr, 0) /\
    delivered out' ++ cached d' ⊆+ delivered out ++ p :: cached d /\
    released out' = released out.
Proof.
  intros Hsh. pose proof (pow2_range C HC) as HR.
  destruct (insert_phases C n HC Hn p d out Hsh)
    as (st1 & j1 & d5 & st6 & j6 & Hch1 & Hex1 & Hr5 & Hch6 & Hex6 & E).
  cbn zeta in *. set (ts := Decoder.timestamp (decoder p)) in *.
  eexists _, _, _. split; [exact E|].
  destruct (chain_conserves _ _ _ _ _ (forced_passed C n) Hch1) as [P1 R1];
    [apply stamp_shape; exact Hsh|].
  cbn [fd fout] in P1, R1.
  assert (Hsh1 : shape C (fd st1)).
  { eapply (chain_shape C n _ (forced_passed C n)); [eassumption|].
    apply stamp_shape; exact Hsh. }
  pose proof (bulkGap_shape st1 Hsh1) as Hsh2.
  assert (Hsh5 : shape C d5).
  { eapply restamped_shape; [eassumption|]. apply place_shape. exact Hsh2. }
  destruct (chain_conserves _ _ _ _ _ (flushed_passed C n ts) Hch6) as [P6 R6];
    [exact Hsh5|].
  cbn [fd fout] in P6, R6. rewrite bulkGap_fout in P6, R6.
  split; [|congruence].
  assert (Ec : cached (settle st6) = cached (fd st6)).
  { unfold settle. destruct (0 <? fdropped st6); reflexivity. }
  rewrite Ec, P6.
  assert (Ec5 : cached d5 = cached (place C p (bulkGap C st1))).
  { unfold cached. destruct Hr5 as (-> & _). reflexivity. }
  rewrite Ec5.
  assert (Hpl : cached (place C p (bulkGap C st1)) ⊆+ p :: cached (fd st1)).
  { unfold cached, place. cbn [cache set_timestamp set_cache].
    rewrite <- (bulkGap_cache st1). apply cached_place.
    destruct Hsh2 as [Hc _ _].
    pose proof (ring_range C (startIndex (fd (bulkGap C st1)) + foffset (bulkGap C st1))).
    lia. }
  assert (Ec0 : cached (stamp d ts) = cached d).
  { unfold stamp. destruct (maxTimestamp d <? ts); reflexivity. }
  rewrite Ec0 in P1.
  transitivity (delivered (fout st1) ++ p :: cached (fd st1)).
  - apply submseteq_app; [reflexivity|exact Hpl].
  - rewrite <- !Permutation_middle. apply submseteq_skip.
    rewrite P1. reflexivity.
Qed.

Lemma seeded_cached d sq : cached (seeded d sq) = cached d.
Proof. unfold seeded. destruct (seq d =? 0); reflexivity. Qed.

Lemma reseated_cached sq d : cached (reseated C sq d) = [].
Proof. unfold cached, reseated, make. simpl. induction (Z.to_nat C); [reflexivity|assumption]. Qed.

(** One call, packet by packet: a stale packet is released; a restart
    releases what the window held; otherwise nothing is released.  What is
    delivered, and what the window holds afterwards, comes from the packet
    and from what the window held (nothing of the latter after a restart). *)
Lemma cacheLookup_conserves d p :
  shape C d ->
  exists d' out dr ex,
    cacheLookup C n d p = Some (d', out, dr, ex) /\
    if is_stale d p
    then d' = seeded d (Seq (decoder p)) /\ out = [Release p] /\ dr = 0 /\ ex = 1
    else ex = 0 /\
         delivered out ++ cached d' ⊆+ p :: (if is_restart d p then [] else cached d) /\
         released out = (if is_restart d p then cached d else []).
Proof.
  intros Hsh. pose proof (pow2_range C HC) as HR.
  destruct (call_cases d p) as [Hc|[Hc|Hc]].
  - rewrite cacheLookup_stale by exact Hc. rewrite Hc.
    eexists _, _, _, _. split; [reflexivity|]. auto.
  - rewrite cacheLookup_restart by exact Hc.
    rewrite restart_spec by (lia || apply seeded_shape; exact Hsh).
    cbn [mbind option_bind].
    assert (Hs : is_stale d p = false).
    { unfold is_restart in Hc. unfold is_stale.
      apply andb_prop in Hc as [-> ->]. reflexivity. }
    rewrite Hs, Hc.
    edestruct (insert_conserves p) as (d' & out' & dr & E & Hsub & Hrel);
      [apply (reseated_shape C HC)|].
    eexists _, _, _, _. split; [exact E|]. split; [reflexivity|].
    rewrite Hrel. cbn [app]. rewrite released_releases, seeded_cached.
    split; [|reflexivity].
    rewrite Hsub. cbn [app]. rewrite delivered_releases, reseated_cached. reflexivity.
  - rewrite cacheLookup_forward by exact Hc.
    assert (Hs : is_stale d p = false) by (unfold is_stale; rewrite Hc; reflexivity).
    assert (Hr : is_restart d p = false) by (unfold is_restart; rewrite Hc; reflexivity).
    rewrite Hs, Hr.
    edestruct (insert_conserves p) as (d' & out' & dr & E & Hsub & Hrel);
      [apply seeded_shape; exact Hsh|].
    eexists _, _, _, _. split; [exact E|]. split; [reflexivity|].
    rewrite Hrel. split; [|reflexivity].
    rewrite Hsub. cbn [delivered omap list_omap app]. rewrite seeded_cached. reflexivity.
Qed.

End Conservation.

(** * Runs of calls on one window *)

Section Feeding.
Variables (C n : Z).
Hypothesis HC : pow2 C.
Hypothesis Hn : 1 <= n.

(** What every call on a stable window does. *)
Lemma cacheLookup_summary d p :
  stable C d -> valid p ->
  exists d' out dr ex,
    cacheLookup C n d p = Some (d', out, dr, ex) /\
    stable C d' /\
    maxTimestamp d' =
      (if is_stale d p then maxTimestamp d
       else Z.max (maxTimestamp d) (Decoder.timestamp (decoder p))) /\
    (if is_stale d p
     then d' = seeded d (Seq (decoder p)) /\ out = [Release p] /\ dr = 0 /\ ex = 1
     else ex = 0 /\
          delivered out ++ cached d' ⊆+ p :: (if is_restart d p then [] else cached d) /\
          released out = (if is_restart d p then cached d else [])).
Proof.
  intros Hst Hv. pose proof (wf_shape C d (proj1 Hst)) as Hsh.
  destruct (cacheLookup_stable C n HC Hn d p Hst Hv) as (d' & out & dr & ex & E & Hst').
  destruct (cacheLookup_maxTimestamp C n HC Hn d p Hsh) as (d1 & o1 & dr1 & ex1 & E1 & Hm).
  destruct (cacheLookup_conserves C n HC Hn d p Hsh) as (d2 & o2 & dr2 & ex2 & E2 & Hc).
  rewrite E in E1, E2. injection E1 as <- <- <- <-. injection E2 as <- <- <- <-.
  exists d', out, dr, ex. auto.
Qed.

Lemma is_stale_not_restart d p : is_stale d p = true -> is_restart d p = false.
Proof.
  unfold is_stale, is_restart. destruct (is_backward d p); [|discriminate].
  simpl. destruct (maxTimestamp d <? _); [discriminate|reflexivity].
Qed.

(** A call delivers and keeps only the packet and what the window held. *)
Lemma call_contents d p d' out dr ex :
  cacheLookup C n d p = Some (d', out, dr, ex) ->
  stable C d -> valid p ->
  delivered out ++ cached d' ⊆+ p :: cached d.
Proof.
  intros E Hst Hv.
  destruct (cacheLookup_summary d p Hst Hv) as (d1 & o1 & dr1 & ex1 & E1 & _ & _ & Hc).
  rewrite E in E1. injection E1 as <- <- <- <-.
  destruct (is_stale d p).
  - destruct Hc as (-> & -> & _). cbn [delivered omap list_omap app].
    rewrite seeded_cached. apply submseteq_cons. reflexivity.
  - destruct Hc as (_ & Hc & _). rewrite Hc. apply submseteq_skip.
    destruct (is_restart d p); [apply submseteq_nil_l|reflexivity].
Qed.

(** A run of calls never panics, keeps the window stable, never lowers
    [maxTimestamp], and delivers only packets that were fed or held. *)
Lemma feed_summary ps : forall d,
  stable C d -> Forall valid ps ->
  exists d' out dr ex,
    feed C n d ps = Some (d', out, dr, ex) /\
    stable C d' /\ maxTimestamp d <= maxTimestamp d' /\
    delivered out ++ cached d' ⊆+ ps ++ cached d.
Proof.
  induction ps as [|p ps IH]; intros d Hst Hv.
  - eexists _, _, _, _. split; [reflexivity|]. split; [exact Hst|]. split; [lia|].
    reflexivity.
  - apply Forall_cons in Hv as [Hp Hv].
    destruct (cacheLookup_summary d p Hst Hp) as (d1 & o1 & dr1 & ex1 & E1 & Hst1 & Hm1 & _).
    pose proof (call_contents d p _ _ _ _ E1 Hst Hp) as Hc1.
    destruct (IH d1 Hst1 Hv) as (d2 & o2 & dr2 & ex2 & E2 & Hst2 & Hm2 & Hc2).
    simpl. rewrite E1. simpl. rewrite E2. simpl.
    eexists _, _, _, _. split; [reflexivity|]. split; [exact Hst2|]. split.
    + rewrite Hm1 in Hm2. destruct (is_stale d p); lia.
    + rewrite delivered_app, <- app_assoc.
      transitivity (delivered o1 ++ ps ++ cached d1).
      { apply submseteq_app; [reflexivity|exact Hc2]. }
      transitivity (ps ++ p :: cached d).
      { rewrite app_assoc, (Permutation_app_comm (delivered o1) ps), <- app_assoc.
        apply submseteq_app; [reflexivity|exact Hc1]. }
      rewrite <- Permutation_middle. reflexivity.
Qed.

End Feeding.

Lemma pow2_4 : pow2 4.
Proof. exists 2. split; [lia|reflexivity]. Qed.

Lemma valid_pkt s t : 0 <= s < 2 ^ 64 -> - 2 ^ 63 <= t < 2 ^ 63 -> valid (pkt s t).
Proof. intros Hs Ht. split; assumption. Qed.

Lemma stable_after_1000 : stable 4 after_1000.
Proof.
  destruct (feed_stable 4 1 pow2_4 ltac:(lia) [pkt 1000 10] (freshDispatcher 4))
    as (d & out & dr & ex & E & Hst).
  - apply fresh_stable, pow2_4.
  - repeat constructor; simpl; lia.
  - rewrite after_1000_reached in E. injection E as <- _ _ _. exact Hst.
Qed.

Lemma is_restart_inv d p :
  is_restart d p = true ->
  is_stale d p = false /\ maxTimestamp d < Decoder.timestamp (decoder p).
Proof.
  unfold is_restart, is_stale. intros H. apply andb_prop in H as [-> H].
  rewrite H. split; [reflexivity|]. apply Z.ltb_lt. exact H.
Qed.

(** * The adapter's counters *)

Lemma minPowerOfTwo_from_pow2 m : forall i v,
  0 <= i -> i + Z.of_nat m = 30 ->
  exists k, 0 <= k <= 30 /\ minPowerOfTwo_from m i v = 2 ^ k.
Proof.
  induction m as [|m IH]; intros i v Hi Hm; simpl.
  - exists 30. split; [lia|reflexivity].
  - destruct (v <=? Z.shiftl 1 i).
    + exists i. split; [lia|]. rewrite Z.shiftl_1_l. reflexivity.
    + apply IH; lia.
Qed.

Lemma minPowerOfTwo_pow2 v : pow2 (u64 (minPowerOfTwo v)).
Proof.
  destruct (minPowerOfTwo_from_pow2 30 0 v) as (k & Hk & E); [lia|reflexivity|].
  unfold minPowerOfTwo. rewrite E. exists k. split; [lia|].
  apply u64_small. split; [apply Z.pow_nonneg; lia|].
  apply Z.pow_lt_mono_r; lia.
Qed.

Lemma sum_list_insert (l : list nat) i x y :
  l !! i = Some x -> (sum_list (<[i := y]> l) + x = sum_list l + y)%nat.
Proof.
  revert i. induction l as [|a l IH]; intros [|i] H; try discriminate; simpl in *.
  - injection H as ->. lia.
  - specialize (IH i H). lia.
Qed.

Lemma instHeld_insert (inst : tridentInstance) i d d' :
  inst !! i = Some d ->
  (instHeld (<[i := d']> inst) + occupied d = instHeld inst + occupied d')%nat.
Proof.
  intros H. unfold instHeld. rewrite list_fmap_insert.
  apply sum_list_insert. rewrite list_lookup_fmap, H. reflexivity.
Qed.

Lemma heldIn_insert_new (m : gmap Z tridentInstance) ip inst :
  m !! ip = None -> heldIn (<[ip := inst]> m) = (instHeld inst + heldIn m)%nat.
Proof.
  intros H. unfold heldIn.
  rewrite (map_fold_insert_L (fun _ i acc => (instHeld i + acc)%nat) 0%nat ip inst m);
    [reflexivity| |exact H].
  intros. lia.
Qed.

Lemma heldIn_insert (m : gmap Z tridentInstance) ip inst :
  (heldIn (<[ip := inst]> m) + from_option instHeld 0%nat (m !! ip)
   = heldIn m + instHeld inst)%nat.
Proof.
  destruct (m !! ip) as [old|] eqn:E; simpl.
  - rewrite <- (insert_delete_eq m), heldIn_insert_new by apply lookup_delete_eq.
    rewrite <- (insert_delete_id m ip old E) at 2.
    rewrite heldIn_insert_new by apply lookup_delete_eq. lia.
  - rewrite heldIn_insert_new by exact E. lia.
Qed.

Lemma occupied_zero : occupied zeroDispatcher = 0%nat.
Proof. reflexivity. Qed.

Lemma occupied_fresh C : occupied (freshDispatcher C) = 0%nat.
Proof. unfold occupied, freshDispatcher. rewrite cached_make. reflexivity. Qed.

Lemma instHeld_zero : instHeld zeroInstance = 0%nat.
Proof. reflexivity. Qed.

Lemma u64_add_l a b : u64 (u64 a + b) = u64 (a + b).
Proof. unfold u64. apply Zplus_mod_idemp_l. Qed.

Section Adapter.

Lemma stable_cache_cons C d : pow2 C -> stable C d -> exists c cs, cache d = c :: cs.
Proof.
  intros HC [[[Hc _ _] _ _ _] _]. pose proof (pow2_range C HC).
  destruct (cache d) as [|c cs]; [simpl in Hc; lia|eauto].
Qed.

(** The dispatcher [findAndAdd] works on: allocated on first use. *)
Lemma prepared_window C d :
  pow2 C -> window_ok C d ->
  exists d0, (match cache d with [] => allocate C d | _ => d end) = d0 /\
             stable C d0 /\ occupied d0 = occupied d.
Proof.
  intros HC [->|Hst].
  - exists (freshDispatcher C). split; [reflexivity|].
    split; [apply fresh_stable; exact HC|]. rewrite occupied_fresh. reflexivity.
  - exists d. destruct (stable_cache_cons C d HC Hst) as (c & cs & ->). auto.
Qed.

(** One call counts at most one packet more as expired, delivered or held. *)
Lemma call_count C n d p d' out dr ex :
  pow2 C -> 1 <= n -> stable C d -> valid p ->
  cacheLookup C n d p = Some (d', out, dr, ex) ->
  stable C d' /\ 0 <= ex /\
  ex + Z.of_nat (length (delivered out)) + Z.of_nat (occupied d')
    <= 1 + Z.of_nat (occupied d).
Proof.
  intros HC Hn Hst Hv E.
  destruct (cacheLookup_summary C n HC Hn d p Hst Hv)
    as (d1 & o1 & dr1 & ex1 & E1 & Hst1 & _ & Hc).
  rewrite E in E1. injection E1 as <- <- <- <-. split; [exact Hst1|].
  destruct (is_stale d p).
  - destruct Hc as (-> & -> & _ & ->). unfold occupied. rewrite seeded_cached.
    simpl. lia.
  - destruct Hc as (-> & Hc & _).
    assert (Hs : delivered out ++ cached d' ⊆+ p :: cached d).
    { rewrite Hc. apply submseteq_skip.
      destruct (is_restart d p); [apply submseteq_nil_l|reflexivity]. }
    apply submseteq_length in Hs. rewrite length_app in Hs. simpl in Hs.
    unfold occupied. lia.
Qed.

Lemma findAndAdd_accounted a p k nd :
  adapter_ok a -> routable p -> accounted a k nd ->
  exists a' out,
    findAndAdd a p = Some (a', out) /\ adapter_ok a' /\
    accounted a' (k + 1) (nd + length (delivered out)).
Proof.
  intros (HC & Hn & Hstats & Hall) [Hv Hix] (Hrx & e & He & Hex & Hsum).
  unfold TRIDENT_DISPATCHER_MAX in Hix.
  set (ix := tridentDispatcherIndex (decoder p)) in *.
  set (C := cacheSize a) in *.
  (* the instance the packet is routed to *)
  assert (Hinst : exists inst,
             match instances a !! tridentIp p return option tridentInstance with
             | None => dispatcher ← index zeroInstance ix;
                       store zeroInstance ix (allocate C dispatcher)
             | Some instance => Some instance
             end = Some inst /\
             instance_ok C inst /\
             instHeld inst = from_option instHeld 0%nat (instances a !! tridentIp p)).
  { destruct (instances a !! tridentIp p) as [inst|] eqn:El.
    - exists inst. split; [reflexivity|]. split; [|reflexivity].
      apply (map_Forall_lookup_1 _ _ _ _ Hall El).
    - destruct (index_in_range zeroInstance ix) as [z Hz]; [simpl; lia|].
      assert (z = zeroDispatcher) as ->.
      { unfold index in Hz. case_decide; [|discriminate].
        apply lookup_replicate_1 in Hz. apply Hz. }
      rewrite Hz. cbn [mbind option_bind]. rewrite store_in_range by (simpl; lia).
      eexists. split; [reflexivity|]. split; [split|].
      + rewrite length_insert. reflexivity.
      + apply Forall_insert.
        * apply Forall_replicate. left. reflexivity.
        * right. apply fresh_stable. exact HC.
      + unfold index in Hz. case_decide; [|discriminate].
        pose proof (instHeld_insert zeroInstance (Z.to_nat ix) zeroDispatcher
                      (allocate C zeroDispatcher) Hz) as Hh.
        change (allocate C zeroDispatcher) with (freshDispatcher C) in Hh |- *.
        rewrite occupied_fresh, occupied_zero, instHeld_zero in Hh. simpl. lia. }
  destruct Hinst as (inst & Einst & [Hlen Hwin] & Hheld).
  assert (Hlen' : Z.of_nat (length inst) = 16) by (rewrite Hlen; reflexivity).
  unfold findAndAdd. fold ix C. rewrite Einst. cbn [mbind option_bind].
  destruct (index_in_range inst ix) as [d Hd]; [lia|].
  rewrite Hd. cbn [mbind option_bind].
  assert (Hdl : inst !! Z.to_nat ix = Some d).
  { unfold index in Hd. case_decide; [exact Hd|discriminate]. }
  assert (Hwd : window_ok C d).
  { eapply Forall_lookup_1; eassumption. }
  destruct (prepared_window C d HC Hwd) as (d0 & -> & Hst0 & Hocc0).
  destruct (cacheLookup_stable C (slaves a) HC Hn d0 p Hst0 Hv)
    as (d' & out & dr & ex & E & _).
  destruct (call_count C (slaves a) d0 p d' out dr ex HC Hn Hst0 Hv E)
    as (Hst' & Hex0 & Hcount).
  rewrite E. cbn [mbind option_bind].
  rewrite store_in_range by lia. cbn [mbind option_bind].
  eexists _, _. split; [reflexivity|]. split.
  - split; [exact HC|]. split; [exact Hn|]. split; [cbn; rewrite Hstats; reflexivity|].
    cbn [instances cacheSize]. apply map_Forall_insert_2; [|exact Hall].
    split; [rewrite length_insert; exact Hlen|].
    apply Forall_insert; [exact Hwin|]. right. exact Hst'.
  - split.
    + cbn [counter count RxPackets]. rewrite Hrx. apply u64_add_l.
    + exists (e + ex). split; [lia|]. split.
      * cbn [counter count RxExpired]. rewrite Hex. apply u64_add_l.
      * unfold held in *. cbn [instances].
        pose proof (heldIn_insert (instances a) (tridentIp p) (<[Z.to_nat ix := d']> inst)) as H1.
        pose proof (instHeld_insert inst (Z.to_nat ix) d d' Hdl) as H2.
        rewrite <- Hheld in H1. lia.
Qed.

Lemma receive_accounted a invalid p k nd :
  adapter_ok a -> (invalid = false -> routable p) -> accounted a k nd ->
  exists a' out,
    receive a invalid p = Some (a', out) /\ adapter_ok a' /\
    accounted a' (if invalid then k else k + 1) (nd + length (delivered out)).
Proof.
  intros Hok Hr Hacc. unfold receive. destruct invalid.
  - eexists _, _. split; [reflexivity|]. split.
    + destruct Hok as (HC & Hn & Hstats & Hall).
      split; [exact HC|]. split; [exact Hn|]. split; [cbn; rewrite Hstats; reflexivity|].
      exact Hall.
    + cbn [delivered omap list_omap length]. rewrite Nat.add_0_r. exact Hacc.
  - apply findAndAdd_accounted; [exact Hok| |exact Hacc].
    destruct (Hr eq_refl) as [Hv Hix]. split; assumption.
Qed.

Lemma receiveAll_accounted batch : forall a k nd,
  adapter_ok a ->
  Forall (fun x => fst x = false -> routable (snd x)) batch ->
  accounted a k nd ->
  exists a' out,
    receiveAll a batch = Some (a', out) /\ adapter_ok a' /\
    accounted a' (k + Z.of_nat (length (accepted batch))) (nd + length (delivered out)).
Proof.
  induction batch as [|[inv p] batch IH]; intros a k nd Hok Hall Hacc.
  - eexists _, _. split; [reflexivity|]. split; [exact Hok|].
    simpl. rewrite Z.add_0_r, Nat.add_0_r. exact Hacc.
  - apply Forall_cons in Hall as [Hp Hall].
    destruct (receive_accounted a inv p k nd Hok Hp Hacc) as (a1 & o1 & E1 & Hok1 & Hacc1).
    destruct (IH a1 _ _ Hok1 Hall Hacc1) as (a2 & o2 & E2 & Hok2 & Hacc2).
    cbn [receiveAll]. rewrite E1. cbn [mbind option_bind]. rewrite E2. cbn [mbind option_bind].
    eexists _, _. split; [reflexivity|]. split; [exact Hok2|].
    rewrite delivered_app, length_app, Nat.add_assoc.
    assert (El : Z.of_nat (length (accepted ((inv, p) :: batch)))
                 = (if inv then 0 else 1) + Z.of_nat (length (accepted batch))).
    { unfold accepted. destruct inv.
      - rewrite filter_cons_False by (simpl; discriminate). lia.
      - rewrite filter_cons_True by reflexivity. cbn [length]. lia. }
    rewrite El. destruct inv.
    + replace (k + (0 + Z.of_nat (length (accepted batch))))
        with (k + Z.of_nat (length (accepted batch))) by lia. exact Hacc2.
    + replace (k + (1 + Z.of_nat (length (accepted batch))))
        with (k + 1 + Z.of_nat (length (accepted batch))) by lia. exact Hacc2.
Qed.

Lemma new_adapter_ok nq size : 1 <= nq -> adapter_ok (NewTridentAdapter nq size).
Proof.
  intros Hn. split; [apply minPowerOfTwo_pow2|]. split; [exact Hn|].
  split; [reflexivity|]. apply map_Forall_empty.
Qed.

Lemma new_adapter_accounted nq size : accounted (NewTridentAdapter nq size) 0 0.
Proof.
  split; [reflexivity|]. exists 0. split; [lia|]. split; [reflexivity|].
  unfold held, heldIn. simpl. rewrite map_fold_empty. simpl. lia.
Qed.

End Adapter.

(** * The order of delivery *)

Lemma deliveredSeqs_app o1 o2 : deliveredSeqs (o1 ++ o2) = deliveredSeqs o1 ++ deliveredSeqs o2.
Proof. unfold deliveredSeqs. rewrite delivered_app, fmap_app. reflexivity. Qed.

Section Order.
Variables (C n : Z).
Hypothesis HC : pow2 C.
Hypothesis Hn : 1 <= n.

(** One passage of the head, away from the end of the sequence space. *)
Lemma passed_increasing i st st' :
  passed n C i st st' -> wf C (fd st) -> seq (fd st) + 1 < 2 ^ 64 ->
  seq (fd st') = seq (fd st) + 1 /\
  (deliveredSeqs (fout st') = deliveredSeqs (fout st) \/
   deliveredSeqs (fout st') = deliveredSeqs (fout st) ++ [seq (fd st)]).
Proof.
  intros [E Hcase] Hw Hlt. pose proof (wf_seq C _ Hw) as Hs.
  pose proof (pow2_range C HC) as HR. split.
  - rewrite E. simpl. apply u64_small. lia.
  - destruct Hcase as [(p & Hh & Eo & _)|(_ & Eo & _)].
    + right. rewrite Eo, deliveredSeqs_app. f_equal.
      destruct (wf_slots C _ Hw 0 p) as [_ Hp]; [lia|exact Hh|].
      rewrite Z.add_0_r, u64_small in Hp by lia.
      unfold deliveredSeqs. simpl. rewrite Hp. reflexivity.
    + left. rewrite Eo. reflexivity.
Qed.

Lemma chain_increasing R i st j st' :
  (forall i a b, R i a b -> passed n C i a b) ->
  chain R i st j st' -> wf C (fd st) -> seq (fd st) + (j - i) < 2 ^ 64 ->
  seq (fd st') = seq (fd st) + (j - i) /\
  exists l, deliveredSeqs (fout st') = deliveredSeqs (fout st) ++ l /\
            StronglySorted Z.lt l /\
            Forall (fun s => seq (fd st) <= s < seq (fd st')) l.
Proof.
  intros HR. induction 1 as [i st|i st st1 j st' H1 H2 IH]; intros Hw Hb.
  - split; [lia|]. exists []. rewrite app_nil_r. repeat constructor.
  - pose proof (chain_le _ _ _ _ _ H2) as Hle.
    destruct (passed_increasing _ _ _ (HR _ _ _ H1) Hw) as [Es Hd]; [lia|].
    assert (Hw1 : wf C (fd st1)).
    { destruct (HR _ _ _ H1) as [E _]. rewrite E. apply advance_wf; assumption. }
    destruct IH as (Es' & l & El & Hsl & Hfl); [exact Hw1|lia|].
    split; [lia|].
    assert (Hfl' : Forall (fun s => seq (fd st) + 1 <= s < seq (fd st')) l).
    { eapply Forall_impl; [exact Hfl|]. simpl. intros s Hs. lia. }
    destruct Hd as [Ed|Ed]; rewrite El, Ed.
    + exists l. split; [reflexivity|]. split; [exact Hsl|].
      eapply Forall_impl; [exact Hfl'|]. simpl. intros s Hs. lia.
    + exists (seq (fd st) :: l). split; [rewrite <- app_assoc; reflexivity|]. split.
      * constructor; [exact Hsl|].
        eapply Forall_impl; [exact Hfl'|]. simpl. intros s Hs. lia.
      * constructor; [lia|].
        eapply Forall_impl; [exact Hfl'|]. simpl. intros s Hs. lia.
Qed.

Lemma chain_forced_offset i st j st' :
  chain (forced n C) i st j st' -> 0 <= foffset st < 2 ^ 64 ->
  foffset st' = foffset st - (j - i) /\ j - i <= foffset st.
Proof.
  pose proof (pow2_range C HC) as HR.
  induction 1 as [i st|i st st1 j st' H1 H2 IH]; intros Ho.
  - lia.
  - destruct H1 as (_ & Hge & _ & Eo).
    rewrite u64_small in Eo by lia.
    destruct IH as [E Hle]; lia.
Qed.

Lemma chain_flushed_bound ts i st j st' :
  chain (flushed n C ts) i st j st' -> i <= C -> j <= C.
Proof.
  induction 1 as [i st|i st st1 j st' H1 H2 IH]; intros Hi; [exact Hi|].
  apply IH. destruct H1 as (Hi1 & _). lia.
Qed.

Lemma bulkGap_seq st :
  0 <= seq (fd st) -> 0 <= foffset st -> seq (fd st) + foffset st < 2 ^ 64 ->
  seq (fd st) <= seq (fd (bulkGap C st)) <= seq (fd st) + foffset st /\
  seq (fd (bulkGap C st)) + foffset (bulkGap C st) = seq (fd st) + foffset st.
Proof.
  intros Hs Ho Hb. pose proof (pow2_range C HC) as HR. unfold bulkGap.
  destruct (Z.leb_spec C (foffset st)) as [Hge|Hlt]; [|lia].
  cbn [fd foffset seq set_startIndex set_seq].
  rewrite (u64_small (foffset st - C)) by lia.
  rewrite (u64_small (foffset st - C + 1)) by lia.
  rewrite (u64_small (seq (fd st) + _)) by lia.
  rewrite u64_small by lia. lia.
Qed.

(** [insert] of a packet at or after the head, away from the end of the
    sequence space: what goes downstream is in increasing order and lies
    between the old head and the new one. *)
Lemma insert_increasing p d :
  wf C d -> valid p -> seq d <= Seq (decoder p) -> Seq (decoder p) + C < 2 ^ 64 ->
  (seq d = 0 -> Seq (decoder p) = 0) ->
  exists d' out' dr,
    insert C n p d [] = Some (d', out', dr, 0) /\
    seq d <= seq d' /\
    StronglySorted Z.lt (deliveredSeqs out') /\
    Forall (fun s => seq d <= s < seq d') (deliveredSeqs out').
Proof.
  intros Hw Hv Hle Hb Hz. pose proof (pow2_range C HC) as HR.
  pose proof (wf_seq C d Hw) as Hs.
  set (sq := Seq (decoder p)) in *. set (ts := Decoder.timestamp (decoder p)).
  assert (Ha : aligned d sq (u64 (sq - seq d))).
  { rewrite u64_small by lia. unfold aligned.
    replace (seq d + (sq - seq d)) with sq by lia. rewrite u64_small by lia.
    repeat split; try lia. }
  destruct (insert_phases C n HC Hn p d [] (wf_shape C d Hw))
    as (st1 & j1 & d5 & st6 & j6 & Hch1 & Hex1 & Hr5 & Hch6 & Hex6 & E).
  destruct (phases_wf C n HC p d [] st1 j1 d5 st6 j6 Hw Ha Hch1 Hex1 Hr5 Hch6 Hex6)
    as (Hw1 & _ & Hw2 & _ & Ho2 & Hw5 & Hw6 & _).
  cbn zeta in *. fold sq ts in Hch1, Hr5, Hch6, Hex6.
  rewrite u64_small in Hch1 by lia.
  set (st0 := mkFrame (stamp d ts) 0 (sq - seq d) []) in *.
  assert (Hw0 : wf C (fd st0)).
  { eapply same_ring_wf; [apply stamp_same_ring|exact Hw]. }
  assert (Es0 : seq (fd st0) = seq d).
  { destruct (stamp_same_ring d ts) as (_ & _ & Es & _). exact Es. }
  destruct (chain_forced_offset _ _ _ _ Hch1) as [Eo1 Hj1]; [simpl; lia|].
  cbn [foffset st0] in Eo1, Hj1.
  destruct (chain_increasing _ _ _ _ _ (forced_passed C n) Hch1 Hw0)
    as (Es1 & l1 & El1 & Hsl1 & Hfl1); [lia|].
  rewrite Es0 in Es1, Hfl1. cbn [fout st0 deliveredSeqs delivered omap list_omap fmap list_fmap app] in El1.
  pose proof (chain_le _ _ _ _ _ Hch1) as Hj0.
  destruct (bulkGap_seq st1) as [Hs2 Hso2]; [lia|lia|lia|].
  set (st2 := bulkGap C st1) in *.
  set (st5 := mkFrame d5 (fdropped st2) (foffset st2) (fout st2)) in *.
  assert (Es5 : seq (fd st5) = seq (fd st2)).
  { destruct Hr5 as (_ & Es & _). exact Es. }
  pose proof (chain_flushed_bound _ _ _ _ _ Hch6 ltac:(lia)) as Hj6.
  pose proof (chain_le _ _ _ _ _ Hch6) as Hj60.
  destruct (chain_increasing _ _ _ _ _ (flushed_passed C n ts) Hch6 Hw5)
    as (Es6 & l6 & El6 & Hsl6 & Hfl6); [lia|].
  rewrite Es5 in Es6, Hfl6.
  assert (Eout : deliveredSeqs (fout st6) = l1 ++ l6).
  { rewrite El6. unfold st5. cbn [fout]. unfold st2. rewrite bulkGap_fout, El1. reflexivity. }
  assert (Esd : seq (settle st6) = seq (fd st6)).
  { destruct (settle_same_ring st6) as (_ & _ & Es & _). exact Es. }
  eexists _, _, _. split; [exact E|]. rewrite Esd, Eout. split; [lia|]. split.
  - apply StronglySorted_app_2; [|assumption..].
    intros x1 x2 H1 H2.
    pose proof (proj1 (Forall_forall _ _) Hfl1 x1 H1).
    pose proof (proj1 (Forall_forall _ _) Hfl6 x2 H2). simpl in *. lia.
  - apply Forall_app. split.
    + eapply Forall_impl; [exact Hfl1|]. simpl. intros s Hx. lia.
    + eapply Forall_impl; [exact Hfl6|]. simpl. intros s Hx. lia.
Qed.

Lemma cacheLookup_increasing d p :
  stable C d -> valid p -> Seq (decoder p) + C < 2 ^ 64 -> is_restart d p = false ->
  exists d' out dr ex,
    cacheLookup C n d p = Some (d', out, dr, ex) /\
    stable C d' /\ seq d <= seq d' /\
    StronglySorted Z.lt (deliveredSeqs out) /\
    Forall (fun s => seq d <= s < seq d') (deliveredSeqs out).
Proof.
  intros Hst Hv Hb Hr. pose proof Hv as [Hsq _].
  destruct (cacheLookup_stable C n HC Hn d p Hst Hv) as (d' & out & dr & ex & E & Hst').
  exists d', out, dr, ex. split; [exact E|]. split; [exact Hst'|].
  destruct (call_cases d p) as [Hc|[Hc|Hc]]; [|congruence|].
  - rewrite cacheLookup_stale in E by exact Hc. injection E as <- <- _ _.
    apply andb_prop in Hc as [Hbk _].
    destruct (seeded_backward d p) as (-> & _); [lia|exact Hbk|].
    split; [lia|]. split; constructor.
  - rewrite cacheLookup_forward in E by exact Hc.
    pose proof (seeded_wf C d _ Hst Hsq) as Hw0.
    assert (Hfw : seq (seeded d (Seq (decoder p))) <= Seq (decoder p)).
    { unfold is_backward in Hc. apply Z.ltb_ge in Hc. exact Hc. }
    assert (Hz : seq (seeded d (Seq (decoder p))) = 0 -> Seq (decoder p) = 0).
    { unfold seeded. destruct (Z.eqb_spec (seq d) 0); simpl; lia. }
    assert (Hsd : seq d <= seq (seeded d (Seq (decoder p)))).
    { unfold seeded. destruct (Z.eqb_spec (seq d) 0); simpl; lia. }
    destruct (insert_increasing p _ Hw0 Hv Hfw Hb Hz) as (d1 & o1 & dr1 & E1 & Hle & Hso & Hfo).
    rewrite E in E1. injection E1 as <- <- <-.
    split; [lia|]. split; [exact Hso|].
    eapply Forall_impl; [exact Hfo|]. simpl. intros s Hx. lia.
Qed.

Lemma feed_increasing ps : forall d,
  stable C d -> Forall valid ps ->
  Forall (fun p => Seq (decoder p) + C < 2 ^ 64) ps ->
  no_restart C n d ps ->
  exists d' out dr ex,
    feed C n d ps = Some (d', out, dr, ex) /\
    StronglySorted Z.lt (deliveredSeqs out) /\
    Forall (fun s => seq d <= s) (deliveredSeqs out).
Proof.
  induction ps as [|p ps IH]; intros d Hst Hv Hb Hnr.
  - eexists _, _, _, _. split; [reflexivity|]. split; constructor.
  - apply Forall_cons in Hv as [Hp Hv]. apply Forall_cons in Hb as [Hbp Hb].
    destruct Hnr as [Hr Hnr].
    destruct (cacheLookup_increasing d p Hst Hp Hbp Hr)
      as (d1 & o1 & dr1 & ex1 & E1 & Hst1 & Hle1 & Hs1 & Hf1).
    rewrite E1 in Hnr.
    destruct (IH d1 Hst1 Hv Hb Hnr) as (d2 & o2 & dr2 & ex2 & E2 & Hs2 & Hf2).
    simpl. rewrite E1. simpl. rewrite E2. simpl.
    eexists _, _, _, _. split; [reflexivity|]. rewrite deliveredSeqs_app. split.
    + apply StronglySorted_app_2; [|assumption..].
      intros x1 x2 H1 H2.
      pose proof (proj1 (Forall_forall _ _) Hf1 x1 H1).
      pose proof (proj1 (Forall_forall _ _) Hf2 x2 H2). simpl in *. lia.
    + apply Forall_app. split.
      * eapply Forall_impl; [exact Hf1|]. simpl. intros s Hx. lia.
      * eapply Forall_impl; [exact Hf2|]. simpl. intros s Hx. lia.
Qed.

End Order.

(** * Reordering within the window *)

Lemma i64_small x : - 2 ^ 63 <= x < 2 ^ 63 -> i64 x = x.
Proof. intros H. unfold i64. rewrite Z.mod_small by lia. lia. Qed.

Lemma no_timeout lo ts t :
  within_timeout lo ts -> within_timeout lo t -> i64 (ts - t) <= TRIDENT_TIMEOUT.
Proof.
  unfold within_timeout, TRIDENT_TIMEOUT, second. intros H1 H2.
  rewrite i64_small; lia.
Qed.

Section Clean.
Variables (C n : Z).
Hypothesis HC : pow2 C.
Hypothesis Hn : 1 <= n.

Lemma holds_advance i d s :
  wf C d -> seq d + 1 < 2 ^ 64 ->
  (holds C d s -> s = seq d \/ holds C (advance C i d) s) /\
  (holds C (advance C i d) s -> holds C d s /\ seq d < s).
Proof.
  intros Hw Hb. pose proof (wf_shape C d Hw) as Hsh. pose proof (wf_seq C d Hw) as Hs.
  assert (Es : seq (advance C i d) = seq d + 1) by (simpl; apply u64_small; lia).
  split.
  - intros (k & q & Hk & -> & Hq). destruct (decide (k = 0)) as [->|Hne]; [left; lia|].
    right. exists (k - 1), q. split; [lia|]. split; [lia|].
    rewrite slot_advance by (assumption || lia).
    replace (k - 1 + 1) with k by lia. exact Hq.
  - intros (k & q & Hk & -> & Hq). destruct (decide (k = C - 1)) as [->|Hne].
    + rewrite slot_advance_last in Hq by assumption. discriminate.
    + rewrite slot_advance in Hq by (assumption || lia). split; [|lia].
      exists (k + 1), q. split; [lia|]. split; [lia|exact Hq].
Qed.

(** Within one timeout span the final flush passes occupied slots only. *)
Lemma chain_clean ts lo i st j st' :
  chain (flushed n C ts) i st j st' ->
  wf C (fd st) -> stamps_ok lo (fd st) -> within_timeout lo ts ->
  seq (fd st) + (j - i) < 2 ^ 64 ->
  fdropped st' = fdropped st /\ stamps_ok lo (fd st') /\
  seq (fd st') = seq (fd st) + (j - i) /\
  deliveredSeqs (fout st') = deliveredSeqs (fout st) ++ seqZ (seq (fd st)) (j - i) /\
  (forall s, holds C (fd st) s -> s < seq (fd st') \/ holds C (fd st') s) /\
  (forall s, holds C (fd st') s -> holds C (fd st) s /\ seq (fd st') <= s) /\
  (forall s, seq (fd st) <= s < seq (fd st') -> holds C (fd st) s).
Proof.
  intros Hch. induction Hch as [i st|i st st1 j st' H1 H2 IH]; intros Hw Hst Hts Hb.
  - replace (i - i) with 0 by lia. rewrite Z.add_0_r, seqZ_nil, app_nil_r by lia.
    split; [reflexivity|]. split; [exact Hst|]. split; [lia|]. split; [reflexivity|].
    split; [intros s H; right; exact H|].
    split; [|intros s H; lia].
    intros s H. split; [exact H|]. destruct H as (k & q & Hk & -> & _). lia.
  - pose proof (chain_le _ _ _ _ _ H2) as Hle.
    pose proof (wf_shape C _ Hw) as Hsh. pose proof (wf_seq C _ Hw) as Hs.
    destruct H1 as (Hi & [E Hcase] & _ & Hto).
    assert (Hhead : exists p, slot C (fd st) 0 = Some (Some p) /\
                              fout st1 = fout st ++ [Put (slaveOf n p) p] /\
                              fdropped st1 = fdropped st).
    { destruct Hcase as [Hd|(Hh & _)]; [exact Hd|]. exfalso.
      destruct (Hto Hh) as (t & Ht & Hnz & Hlate).
      assert (Hin : t ∈ timestamp (fd st)).
      { unfold index in Ht. case_decide; [|discriminate].
        eapply list_elem_of_lookup_2. exact Ht. }
      pose proof (proj1 (Forall_forall _ _) Hst t Hin) as [Hz|Hwt]; [contradiction|].
      pose proof (no_timeout lo ts t Hts Hwt). lia. }
    destruct Hhead as (p & Hh & Eo & Ed).
    assert (Hp : Seq (decoder p) = seq (fd st)).
    { destruct (wf_slots C _ Hw 0 p) as [_ Hp]; [pose proof (pow2_range C HC); lia|exact Hh|].
      rewrite Z.add_0_r, u64_small in Hp by lia. exact Hp. }
    assert (Hw1 : wf C (fd st1)) by (rewrite E; apply advance_wf; assumption).
    assert (Hst1 : stamps_ok lo (fd st1)).
    { unfold stamps_ok. rewrite E. simpl. apply Forall_insert; [exact Hst|]. left. reflexivity. }
    assert (Es1 : seq (fd st1) = seq (fd st) + 1).
    { rewrite E. simpl. apply u64_small. lia. }
    destruct IH as (Ed' & Hst' & Es' & Eo' & Hfw & Hbw & Hrg);
      [exact Hw1|exact Hst1|exact Hts|lia|].
    split; [congruence|]. split; [exact Hst'|]. split; [lia|]. split; [|split; [|split]].
    + rewrite Eo', Eo, deliveredSeqs_app, <- app_assoc. f_equal.
      rewrite (seqZ_cons (seq (fd st))) by lia.
      unfold deliveredSeqs at 1. simpl. rewrite Hp, Es1. f_equal. f_equal; lia.
    + intros s Hhs. destruct (holds_advance i (fd st) s Hw ltac:(lia)) as [Ha _].
      destruct (Ha Hhs) as [->|Hh1]; [left; lia|].
      rewrite <- E in Hh1. apply Hfw. exact Hh1.
    + intros s Hhs. destruct (Hbw s Hhs) as [Hh1 Hge]. rewrite E in Hh1.
      destruct (holds_advance i (fd st) s Hw ltac:(lia)) as [_ Hb'].
      destruct (Hb' Hh1) as [Hh0 _]. split; [exact Hh0|lia].
    + intros s Hs'. destruct (decide (s = seq (fd st))) as [->|Hne].
      * exists 0, p. split; [pose proof (pow2_range C HC); lia|]. split; [lia|exact Hh].
      * destruct (Hrg s) as (k & q & Hk & Ek & Hq); [lia|].
        assert (Hh1 : holds C (advance C i (fd st)) s).
        { rewrite <- E. exists k, q. auto. }
        destruct (holds_advance i (fd st) s Hw ltac:(lia)) as [_ Hb'].
        apply Hb'. exact Hh1.
Qed.


Lemma chain_forced_nil i st j st' :
  chain (forced n C) i st j st' -> foffset st < C -> st' = st /\ j = i.
Proof.
  intros Hch Ho. destruct Hch as [|i st st1 j st' H1 H2]; [auto|].
  destruct H1 as (_ & Hge & _). lia.
Qed.

Lemma bulkGap_id st : foffset st < C -> bulkGap C st = st.
Proof. intros H. unfold bulkGap. destruct (Z.leb_spec C (foffset st)); [lia|reflexivity]. Qed.

Lemma holds_same_ring d d' s : same_ring d d' -> holds C d' s <-> holds C d s.
Proof.
  intros Hr. pose proof Hr as (_ & _ & Es & _). unfold holds. rewrite Es.
  split; intros (k & q & Hk & E & Hq); exists k, q;
    rewrite (same_ring_slot C d d' k Hr) in *; auto.
Qed.

Lemma holds_place p st s :
  shape C (fd st) -> 0 <= foffset st < C ->
  holds C (place C p st) s <-> holds C (fd st) s \/ s = seq (fd st) + foffset st.
Proof.
  intros Hsh Ho. unfold holds. cbn [place seq set_timestamp set_cache]. split.
  - intros (k & q & Hk & -> & Hq). destruct (decide (k = foffset st)) as [->|Hne].
    + right. reflexivity.
    + left. rewrite slot_place_ne in Hq by (assumption || lia). exists k, q. auto.
  - intros [(k & q & Hk & -> & Hq)| ->].
    + destruct (decide (k = foffset st)) as [->|Hne].
      * exists (foffset st), p. split; [lia|]. split; [reflexivity|].
        apply slot_place_eq; assumption.
      * exists k, q. split; [lia|]. split; [reflexivity|].
        rewrite slot_place_ne by (assumption || lia). exact Hq.
    + exists (foffset st), p. split; [lia|]. split; [reflexivity|].
      apply slot_place_eq; assumption.
Qed.

(** [insert] of a packet inside the window, within one timeout span: no
    drop, and the run of consecutive packets at the head goes downstream. *)
Lemma insert_clean lo p d :
  wf C d -> valid p -> 1 <= seq d ->
  seq d <= Seq (decoder p) < seq d + C -> Seq (decoder p) + C < 2 ^ 64 ->
  stamps_ok lo d -> within_timeout lo (Decoder.timestamp (decoder p)) ->
  exists d' out',
    insert C n p d [] = Some (d', out', 0, 0) /\
    stable C d' /\ stamps_ok lo d' /\ seq d <= seq d' /\
    deliveredSeqs out' = seqZ (seq d) (seq d' - seq d) /\
    (forall s, holds C d s \/ s = Seq (decoder p) -> s < seq d' \/ holds C d' s) /\
    (forall s, holds C d' s -> (holds C d s \/ s = Seq (decoder p)) /\ seq d' <= s) /\
    (forall s, seq d <= s < seq d' -> holds C d s \/ s = Seq (decoder p)).
Proof.
  intros Hw Hv Hs1 Hin Hb Hst Hts. pose proof (pow2_range C HC) as HR.
  pose proof (wf_seq C d Hw) as Hs.
  set (sq := Seq (decoder p)) in *. set (ts := Decoder.timestamp (decoder p)) in *.
  assert (Ha : aligned d sq (u64 (sq - seq d))).
  { rewrite u64_small by lia. unfold aligned.
    replace (seq d + (sq - seq d)) with sq by lia. rewrite u64_small by lia.
    repeat split; try lia. }
  destruct (insert_phases C n HC Hn p d [] (wf_shape C d Hw))
    as (st1 & j1 & d5 & st6 & j6 & Hch1 & Hex1 & Hr5 & Hch6 & Hex6 & E).
  destruct (phases_wf C n HC p d [] st1 j1 d5 st6 j6 Hw Ha Hch1 Hex1 Hr5 Hch6 Hex6)
    as (_ & _ & _ & _ & _ & Hw5 & Hw6 & Hh6).
  cbn zeta in *. fold sq ts in Hch1, Hr5, Hch6, Hex6.
  rewrite u64_small in Hch1 by lia.
  set (st0 := mkFrame (stamp d ts) 0 (sq - seq d) []) in *.
  destruct (chain_forced_nil _ _ _ _ Hch1) as [-> ->]; [simpl; lia|].
  rewrite bulkGap_id in Hr5, Hch6 by (simpl; lia).
  cbn [fdropped foffset fout st0] in Hch6.
  set (st5 := mkFrame d5 0 (sq - seq d) []) in *.
  pose proof (stamp_same_ring d ts) as Hr0.
  pose proof Hr0 as (_ & _ & Es0 & _).
  assert (Hsh0 : shape C (fd st0)) by (eapply same_ring_shape; [exact Hr0|apply Hw]).
  pose proof (restamped_same_ring _ _ _ Hr5) as Hr5'.
  pose proof Hr5' as (_ & _ & Es5 & _).
  cbn [place seq set_timestamp set_cache fd st0] in Es5. rewrite Es0 in Es5.
  assert (Hst5 : stamps_ok lo d5).
  { apply Forall_forall. intros t Ht.
    destruct Hr5 as (_ & _ & _ & _ & _ & _ & Hmem).
    destruct (Hmem t Ht) as [Ht'| ->]; [|right; exact Hts].
    cbn [place timestamp set_timestamp] in Ht'.
    apply elem_of_insert_inv in Ht' as [Ht'| ->]; [|right; exact Hts].
    assert (Et : timestamp (fd st0) = timestamp d).
    { unfold st0, stamp. cbn [fd]. destruct (maxTimestamp d <? ts); reflexivity. }
    rewrite Et in Ht'. apply (proj1 (Forall_forall _ _) Hst t Ht'). }
  pose proof (chain_flushed_bound C n _ _ _ _ _ Hch6 ltac:(lia)) as Hj6.
  pose proof (chain_le _ _ _ _ _ Hch6) as Hj60.
  destruct (chain_clean ts lo _ _ _ _ Hch6 Hw5 Hst5 Hts)
    as (Ed & Hst6 & Es6 & Eo & Hfw & Hbw & Hrg); [cbn [fd st5]; lia|].
  cbn [fd fdropped fout st5] in Ed, Es6, Eo, Hfw, Hbw, Hrg.
  rewrite Es5 in Es6, Eo, Hrg.
  assert (Hh5 : forall s, holds C d5 s <-> holds C d s \/ s = sq).
  { intros s. rewrite (holds_same_ring _ _ s Hr5'), holds_place by (assumption || simpl; lia).
    cbn [fd foffset st0]. rewrite (holds_same_ring _ _ s Hr0), Es0.
    replace (seq d + (sq - seq d)) with sq by lia. reflexivity. }
  assert (Eset : settle st6 = fd st6).
  { unfold settle. rewrite Ed. reflexivity. }
  rewrite Eset, Ed in E.
  exists (fd st6), (fout st6). split; [exact E|].
  split; [split; assumption|]. split; [exact Hst6|]. split; [lia|].
  split; [rewrite Eo; cbn; f_equal; lia|].
  split; [|split].
  - intros s Hs'. apply Hfw. apply Hh5. exact Hs'.
  - intros s Hs'. destruct (Hbw s Hs') as [H5 Hge]. split; [apply Hh5; exact H5|exact Hge].
  - intros s Hs'. apply Hh5. apply Hrg. lia.
Qed.


Lemma seeded_stamps lo d sq : stamps_ok lo d -> stamps_ok lo (seeded d sq).
Proof. unfold stamps_ok, seeded. destruct (seq d =? 0); auto. Qed.

Lemma stable_head_free d : stable C d -> ~ holds C d (seq d).
Proof.
  intros [_ Hh] (k & q & Hk & E & Hq). assert (k = 0) as -> by lia.
  rewrite Hh in Hq. discriminate.
Qed.

Lemma unseeded_holds_nothing d sq s :
  stable C d -> seq d = 0 -> ~ holds C (seeded d sq) s.
Proof.
  intros Hst Hz (k & q & Hk & _ & Hq).
  assert (Hr : slot C (seeded d sq) k = slot C d k).
  { unfold slot, seeded. destruct (seq d =? 0); reflexivity. }
  rewrite Hr, (stable_unseeded_empty C d k Hst Hz Hk) in Hq. discriminate.
Qed.

(** A call with the packet inside the window, within one timeout span. *)
Lemma cacheLookup_clean lo d p :
  let d0 := seeded d (Seq (decoder p)) in
  stable C d -> valid p -> 1 <= seq d0 ->
  seq d0 <= Seq (decoder p) < seq d0 + C -> Seq (decoder p) + C < 2 ^ 64 ->
  stamps_ok lo d -> within_timeout lo (Decoder.timestamp (decoder p)) ->
  exists d' out,
    cacheLookup C n d p = Some (d', out, 0, 0) /\
    stable C d' /\ stamps_ok lo d' /\ seq d0 <= seq d' /\
    deliveredSeqs out = seqZ (seq d0) (seq d' - seq d0) /\
    (forall s, holds C d0 s \/ s = Seq (decoder p) -> s < seq d' \/ holds C d' s) /\
    (forall s, holds C d' s -> (holds C d0 s \/ s = Seq (decoder p)) /\ seq d' <= s) /\
    (forall s, seq d0 <= s < seq d' -> holds C d0 s \/ s = Seq (decoder p)).
Proof.
  intros d0 Hst Hv Hs1 Hin Hb Hso Hts. pose proof Hv as [Hsq _].
  assert (Hfw : is_backward d p = false).
  { unfold is_backward. fold d0. apply Z.ltb_ge. lia. }
  rewrite (cacheLookup_forward C n d p Hfw). fold d0.
  apply insert_clean; try assumption.
  - apply seeded_wf; assumption.
  - apply seeded_stamps. exact Hso.
Qed.

Lemma in_window_tail p ps : in_window C (p :: ps) -> in_window C ps.
Proof. intros H i j x y Hij Hx Hy. apply (H (S i) (S j) x y); [lia|exact Hx|exact Hy]. Qed.

(** The rest of an in-window permutation of [1..K]: [A] lists the sequence
    numbers that have arrived, all below the head or held by the window. *)
Lemma feed_clean lo K post : forall d A,
  stable C d -> stamps_ok lo d -> 1 <= seq d -> 0 <= K -> K + C < 2 ^ 64 ->
  (forall s, s ∈ A -> s < seq d \/ holds C d s) ->
  (forall s, 1 <= s < seq d -> s ∈ A) ->
  (forall s, holds C d s -> s ∈ A) ->
  Forall valid post ->
  Forall (fun p => within_timeout lo (Decoder.timestamp (decoder p))) post ->
  NoDup (A ++ (seqOf <$> post)) ->
  (forall s, s ∈ A ++ (seqOf <$> post) <-> 1 <= s <= K) ->
  in_window C post ->
  seq d <= K + 1 /\
  exists d' out, feed C n d post = Some (d', out, 0, 0) /\
                 deliveredSeqs out = seqZ (seq d) (K + 1 - seq d).
Proof.
  induction post as [|p post IH]; intros d A Hst Hso Hs1 HK Hb H1 H2 H3 Hv Hts Hnd Hall Hwin.
  - simpl in Hall. rewrite app_nil_r in Hall.
    assert (Hge : K + 1 <= seq d).
    { destruct (decide (K + 1 <= seq d)) as [|Hlt]; [assumption|]. exfalso.
      assert (Hin : seq d ∈ A) by (apply Hall; lia).
      destruct (H1 _ Hin) as [|Hh]; [lia|]. exact (stable_head_free d Hst Hh). }
    assert (Hle : seq d <= K + 1).
    { destruct (decide (seq d <= K + 1)) as [|Hgt]; [assumption|]. exfalso.
      assert (Hin : K + 1 ∈ A) by (apply H2; lia).
      apply Hall in Hin. lia. }
    split; [exact Hle|]. exists d, []. split; [reflexivity|].
    rewrite seqZ_nil by lia. reflexivity.
  - apply Forall_cons in Hv as [Hvp Hv]. apply Forall_cons in Hts as [Htp Hts].
    set (sq := Seq (decoder p)) in *.
    assert (Hsq : 1 <= sq <= K).
    { apply Hall. apply elem_of_app. right. simpl. apply list_elem_of_here. }
    assert (HnA : sq ∉ A).
    { intros HA. apply NoDup_app in Hnd as (_ & Hdis & _).
      apply (Hdis sq HA). simpl. apply list_elem_of_here. }
    assert (Hlow : seq d <= sq).
    { destruct (decide (seq d <= sq)) as [|Hgt]; [assumption|]. exfalso.
      apply HnA. apply H2. lia. }
    assert (Hup : sq < seq d + C).
    { assert (Hin : seq d ∈ A ++ (seqOf <$> p :: post)) by (apply Hall; lia).
      apply elem_of_app in Hin as [Hin|Hin].
      - exfalso. destruct (H1 _ Hin) as [|Hh]; [lia|]. exact (stable_head_free d Hst Hh).
      - apply list_elem_of_fmap in Hin as (q & Eq & Hq).
        apply list_elem_of_lookup in Hq as [j Hj].
        pose proof (Hwin 0%nat j p q ltac:(lia) eq_refl Hj) as Hw.
        unfold seqOf in Eq. fold sq in Hw. lia. }
    assert (Ed0 : seeded d sq = d).
    { unfold seeded. destruct (Z.eqb_spec (seq d) 0); [lia|reflexivity]. }
    destruct (cacheLookup_clean lo d p Hst Hvp) as
      (d1 & o1 & E1 & Hst1 & Hso1 & Hle1 & Eo1 & Hf1 & Hf2 & Hf3);
      fold sq; rewrite ?Ed0; try assumption; try lia.
    fold sq in Hf1, Hf2, Hf3, Eo1, Hle1. rewrite Ed0 in *.
    destruct (IH d1 (A ++ [sq])) as (HleK & d2 & o2 & E2 & Eo2); try assumption; try lia.
    + intros s Hs. apply elem_of_app in Hs as [Hs|Hs].
      * destruct (H1 s Hs) as [|Hh]; [left; lia|]. apply Hf1. left. exact Hh.
      * apply list_elem_of_singleton in Hs. apply Hf1. right. exact Hs.
    + intros s Hs. apply elem_of_app.
      destruct (decide (s < seq d)) as [Hlt|Hge]; [left; apply H2; lia|].
      destruct (Hf3 s) as [Hh| ->]; [lia|left; apply H3; exact Hh|].
      right. apply list_elem_of_singleton. reflexivity.
    + intros s Hs. apply elem_of_app. destruct (Hf2 s Hs) as [[Hh| ->] _].
      * left. apply H3. exact Hh.
      * right. apply list_elem_of_singleton. reflexivity.
    + rewrite <- app_assoc. exact Hnd.
    + intros s. rewrite <- app_assoc. apply Hall.
    + eapply in_window_tail. exact Hwin.
    + split; [lia|]. exists d2, (o1 ++ o2). split.
      * cbn [feed]. rewrite E1. cbn [mbind option_bind]. rewrite E2. reflexivity.
      * rewrite deliveredSeqs_app, Eo1, Eo2.
        replace (K + 1 - seq d) with ((seq d1 - seq d) + (K + 1 - seq d1)) by lia.
        rewrite seqZ_app by lia. f_equal. f_equal. lia.
Qed.

End Clean.

Lemma in_window_small C ps :
  Forall (fun p => 1 <= Seq (decoder p) <= C) ps -> in_window C ps.
Proof.
  intros H i j p q _ Hp Hq.
  pose proof (Forall_lookup_1 _ _ _ _ H Hp). pose proof (Forall_lookup_1 _ _ _ _ H Hq).
  simpl in *. lia.
Qed.

Lemma fresh_stamps lo C : stamps_ok lo (freshDispatcher C).
Proof. unfold stamps_ok, freshDispatcher, make. simpl. apply Forall_replicate. left. reflexivity. Qed.

(** * The properties of the specification *)

(** C1, as stated, fails: a remote restart reseats the window at a lower
    sequence number, and the window then delivers sequence 1 after
    sequence 10. *)
Lemma delivery_order_broken_by_restart :
  exists d out dr ex,
    feed 4 1 (freshDispatcher 4) [pkt 10 1; pkt 1 2] = Some (d, out, dr, ex) /\
    deliveredSeqs out = [10; 1] /\
    ~ StronglySorted Z.lt (deliveredSeqs out).
Proof.
  eexists _, _, _, _. split; [vm_compute; reflexivity|].
  match goal with |- ?s = _ /\ _ => assert (E : s = [10; 1]) by reflexivity end.
  rewrite E. split; [reflexivity|].
  intros H. apply StronglySorted_inv in H as [_ H].
  apply Forall_cons in H as [H _]. lia.
Qed.

(** C1, amended.  Over any run of calls on a window in which no remote
    restart is detected (the sequence numbers staying more than [C] below
    [2^64]), the sequence numbers of the packets handed downstream are
    strictly increasing. *)
Theorem delivery_increasing_without_restart (C n : Z) (d : tridentDispatcher)
    (ps : list packetBuffer) :
  pow2 C -> 1 <= n -> stable C d -> Forall valid ps ->
  Forall (fun p => Seq (decoder p) + C < 2 ^ 64) ps ->
  no_restart C n d ps ->
  exists d' out dr ex,
    feed C n d ps = Some (d', out, dr, ex) /\
    StronglySorted Z.lt (deliveredSeqs out).
Proof.
  intros HC Hn Hst Hv Hb Hnr.
  destruct (feed_increasing C n HC Hn ps d Hst Hv Hb Hnr)
    as (d' & out & dr & ex & E & Hs & _).
  exists d', out, dr, ex. split; assumption.
Qed.

Lemma delivery_increasing_without_restart_witness :
  exists d' out dr ex,
    feed 4 1 after_1000 [pkt 1003 11; pkt 1001 12; pkt 5 3] = Some (d', out, dr, ex) /\
    StronglySorted Z.lt (deliveredSeqs out).
Proof.
  apply (delivery_increasing_without_restart 4 1 after_1000
           [pkt 1003 11; pkt 1001 12; pkt 5 3]).
  - exact pow2_4.
  - lia.
  - exact stable_after_1000.
  - repeat constructor; simpl; lia.
  - repeat constructor; simpl; lia.
  - vm_compute. repeat split; reflexivity.
Defined.

(** C2. The flush loops clear [timestamp[i]], [i] being the loop counter,
    not the slot at [start_index]: after two packets in order, the window
    has moved past slot 1 and that slot still carries timestamp 2.  Such
    stamps stay behind the head; when a packet arrives five seconds later,
    the final flush takes them for missing packets that have timed out and
    counts three drops, although every packet sent was delivered. *)
Theorem passed_slot_keeps_timestamp :
  (exists d out,
     feed 4 1 (freshDispatcher 4) two_in_order = Some (d, out, 0, 0) /\
     deliveredSeqs out = [1; 2] /\ seq d = 3 /\ startIndex d = 2 /\
     index (timestamp d) 1 = Some 2) /\
  result_seqs (feed 4 1 (freshDispatcher 4) pause_before_fifth)
    = Some ([1; 2; 3; 4; 5], 3, 0, 9, 0).
Proof.
  split; [|vm_compute; reflexivity].
  eexists _, _. vm_compute. repeat split; reflexivity.
Qed.

(** C3. After any sequence of complete calls to [cacheLookup] on a fresh
    window, the head index is in range, the slot at the head is empty, and
    every occupied slot [i] holds the packet whose sequence number is
    [start_seq + ((i - start_index) mod C)], the sum being taken in
    [uint64]. *)
Theorem window_well_formed (C n : Z) (ps : list packetBuffer) :
  pow2 C -> 1 <= n -> Forall valid ps ->
  exists d out dr ex,
    feed C n (freshDispatcher C) ps = Some (d, out, dr, ex) /\
    0 <= startIndex d < C /\
    index (cache d) (startIndex d) = Some None /\
    forall i p, 0 <= i < C -> index (cache d) i = Some (Some p) ->
                Seq (decoder p) = u64 (seq d + (i - startIndex d) mod C).
Proof.
  intros HC Hn Hv.
  destruct (feed_stable C n HC Hn ps (freshDispatcher C) (fresh_stable C HC) Hv)
    as (d & out & dr & ex & E & Hst).
  exists d, out, dr, ex. split; [exact E|]. apply stable_by_index; assumption.
Qed.

Lemma window_well_formed_witness :
  exists d out dr ex,
    feed 4 1 (freshDispatcher 4) [pkt 1 1; pkt 3 2] = Some (d, out, dr, ex) /\
    0 <= startIndex d < 4 /\
    index (cache d) (startIndex d) = Some None /\
    forall i p, 0 <= i < 4 -> index (cache d) i = Some (Some p) ->
                Seq (decoder p) = u64 (seq d + (i - startIndex d) mod 4).
Proof.
  apply (window_well_formed 4 1 [pkt 1 1; pkt 3 2]).
  - exists 2. split; [lia|reflexivity].
  - lia.
  - repeat constructor; simpl; lia.
Defined.

(** C4. A restart with a sequence number above the cache size counts a
    drop: the window is reseated at [seq - C], so the packet falls one slot
    beyond it and the forced flush passes one empty slot. *)
Theorem restart_counts_a_drop :
  exists d out,
    cacheLookup 4 1 after_1000 (pkt 5 11) = Some (d, out, 1, 0) /\
    is_restart after_1000 (pkt 5 11) = true /\
    seq d = 2 /\ dropped d = 1.
Proof. eexists _, _. vm_compute. repeat split; reflexivity. Qed.

(** C5. A packet behind the head of a seeded window whose timestamp does not
    exceed [max_timestamp] is released; the call returns
    [(dropped, reorder_drops) = (0, 1)] and leaves the window as it was. *)
Theorem stale_reorder_released (C n : Z) (d : tridentDispatcher) (p : packetBuffer) :
  seq d <> 0 ->
  Seq (decoder p) < seq d ->
  Decoder.timestamp (decoder p) <= maxTimestamp d ->
  cacheLookup C n d p = Some (d, [Release p], 0, 1).
Proof.
  intros Hseed Hlt Hts. unfold cacheLookup.
  destruct (Z.eqb_spec (seq d) 0) as [E|_]; [contradiction|].
  destruct (Z.ltb_spec (Seq (decoder p)) (seq d)) as [_|Hge]; [|lia].
  destruct (Z.ltb_spec (maxTimestamp d) (Decoder.timestamp (decoder p))) as [Hgt|_]; [lia|].
  reflexivity.
Qed.

Lemma stale_reorder_released_witness :
  cacheLookup 4 1 after_1000 (pkt 5 10) = Some (after_1000, [Release (pkt 5 10)], 0, 1).
Proof.
  apply (stale_reorder_released 4 1 after_1000 (pkt 5 10)); simpl; lia.
Defined.

(** C6, as stated, fails in three ways that the window has by design: the
    first packet seeds the window, so a permutation that does not begin with
    1 loses the packets before its first; a packet four or more sequence
    numbers ahead of a missing one forces the window past it; and a missing
    packet is given up once a packet arrives whose timestamp is more than the
    timeout after that of the first packet that overtook it. *)
Lemma permutation_not_delivered :
  result_seqs (feed 4 1 (freshDispatcher 4) swapped_first) = Some ([2], 0, 1, 3, 1) /\
  result_seqs (feed 4 1 (freshDispatcher 4) far_ahead)
    = Some ([1; 3; 4; 5; 6; 7; 8], 1, 1, 9, 0) /\
  result_seqs (feed 4 1 (freshDispatcher 4) slow_second) = Some ([1; 3; 4], 1, 1, 5, 0).
Proof. vm_compute. repeat split; reflexivity. Qed.

(** C6, amended.  Starting from a fresh window, feeding [K] packets whose
    sequence numbers are a permutation of [1..K] that begins with 1, in
    which no packet arrives before a packet whose sequence number is [C] or
    more below its own, and whose timestamps all lie within one timeout
    span, delivers exactly those packets, in the order [1..K] of their
    sequence numbers, with no drop and no reorder drop over all calls. *)
Theorem in_window_permutation_delivered (C n lo : Z) (ps : list packetBuffer) :
  pow2 C -> 1 <= n -> Forall valid ps ->
  seqOf <$> ps ≡ₚ seqZ 1 (Z.of_nat (length ps)) ->
  (forall p, head ps = Some p -> Seq (decoder p) = 1) ->
  in_window C ps ->
  Forall (fun p => within_timeout lo (Decoder.timestamp (decoder p))) ps ->
  Z.of_nat (length ps) + C < 2 ^ 64 ->
  exists d out,
    feed C n (freshDispatcher C) ps = Some (d, out, 0, 0) /\
    deliveredSeqs out = seqZ 1 (Z.of_nat (length ps)) /\
    delivered out ≡ₚ ps.
Proof.
  intros HC Hn Hv Hperm Hhead Hwin Hts Hb. pose proof (pow2_range C HC) as HR.
  assert (Hmain : exists d out,
             feed C n (freshDispatcher C) ps = Some (d, out, 0, 0) /\
             deliveredSeqs out = seqZ 1 (Z.of_nat (length ps))).
  { destruct ps as [|p1 rest].
    { exists (freshDispatcher C), []. split; reflexivity. }
    set (K := Z.of_nat (length (p1 :: rest))) in *.
    assert (HK : 1 <= K) by (unfold K; simpl; lia).
    pose proof (Hhead p1 eq_refl) as Hp1.
    pose proof (fresh_stable C HC) as Hst0.
    assert (Ed0 : seq (seeded (freshDispatcher C) (Seq (decoder p1))) = 1).
    { rewrite Hp1. reflexivity. }
    pose proof (Forall_inv Hv) as Hv1. pose proof (Forall_inv_tail Hv) as Hvr.
    pose proof (Forall_inv Hts) as Ht1. pose proof (Forall_inv_tail Hts) as Htr.
    destruct (cacheLookup_clean C n HC Hn lo (freshDispatcher C) p1 Hst0 Hv1) as
      (d1 & o1 & E1 & Hst1 & Hso1 & Hle1 & Eo1 & Hf1 & Hf2 & Hf3);
      rewrite ?Ed0; try assumption; try lia.
    { apply fresh_stamps. }
    rewrite Ed0 in *.
    assert (Hnone : forall s, ~ holds C (seeded (freshDispatcher C) (Seq (decoder p1))) s).
    { intros s. apply unseeded_holds_nothing; [exact Hst0|reflexivity]. }
    assert (Hnd : NoDup (seqOf <$> p1 :: rest)).
    { rewrite Hperm. apply NoDup_seqZ. }
    assert (Hall : forall s, s ∈ seqOf <$> p1 :: rest <-> 1 <= s <= K).
    { intros s. rewrite Hperm, elem_of_seqZ. fold K. lia. }
    destruct (feed_clean C n HC Hn lo K rest d1 [seqOf p1]) as (HleK & d2 & o2 & E2 & Eo2);
      try assumption; try lia.
    - intros s Hs. apply list_elem_of_singleton in Hs. apply Hf1. right. exact Hs.
    - intros s Hs. apply list_elem_of_singleton. unfold seqOf.
      destruct (Hf3 s) as [Hh|Hs']; [lia|exfalso; exact (Hnone s Hh)|lia].
    - intros s Hs. apply list_elem_of_singleton. unfold seqOf.
      destruct (Hf2 s Hs) as [[Hh|Hs'] _]; [exfalso; exact (Hnone s Hh)|lia].
    - eapply in_window_tail. exact Hwin.
    - exists d2, (o1 ++ o2). split.
      + cbn [feed]. rewrite E1. cbn [mbind option_bind]. rewrite E2. reflexivity.
      + rewrite deliveredSeqs_app, Eo1, Eo2.
        replace K with ((seq d1 - 1) + (K + 1 - seq d1)) at 2 by lia.
        rewrite seqZ_app by lia. f_equal. f_equal. lia. }
  destruct Hmain as (d & out & E & Eo). exists d, out.
  split; [exact E|]. split; [exact Eo|].
  destruct (feed_summary C n HC Hn ps (freshDispatcher C) (fresh_stable C HC) Hv)
    as (d' & out' & dr' & ex' & E' & _ & _ & Hsub).
  rewrite E in E'. injection E' as <- <- _ _.
  unfold freshDispatcher in Hsub. rewrite cached_make, app_nil_r in Hsub.
  apply submseteq_length_Permutation.
  - etransitivity; [|exact Hsub]. apply submseteq_inserts_r. reflexivity.
  - assert (El : length (deliveredSeqs out) = length ps).
    { rewrite Eo, length_seqZ. lia. }
    unfold deliveredSeqs in El. rewrite length_fmap in El. lia.
Qed.

Lemma in_window_permutation_delivered_witness :
  exists d out,
    feed 8 1 (freshDispatcher 8) scenario4 = Some (d, out, 0, 0) /\
    deliveredSeqs out = seqZ 1 (Z.of_nat (length scenario4)) /\
    delivered out ≡ₚ scenario4.
Proof.
  apply (in_window_permutation_delivered 8 1 1 scenario4).
  - exists 3. split; [lia|reflexivity].
  - lia.
  - repeat constructor; simpl; lia.
  - vm_compute. do 2 apply perm_skip. apply perm_swap.
  - intros p Hp. injection Hp as <-. reflexivity.
  - apply in_window_small. repeat constructor; simpl; lia.
  - unfold within_timeout, TRIDENT_TIMEOUT, second. repeat constructor; simpl; lia.
  - simpl. lia.
Defined.

(** C7, as stated, fails: [RxDropped] counts packets that never arrived.
    Two datagrams, the second a hundred sequence numbers after the first,
    leave [RxPackets = 2] and [RxDropped = 95]. *)
Lemma dropped_exceeds_received :
  exists a out,
    receiveAll (NewTridentAdapter 1 4) jump_batch = Some (a, out) /\
    RxPackets (counter a) = 2 /\ RxDropped (counter a) = 95 /\
    RxExpired (counter a) = 0 /\ length (delivered out) = 1%nat /\
    ~ (RxPackets (counter a) >=
       RxDropped (counter a) + RxExpired (counter a) + Z.of_nat (length (delivered out))).
Proof.
  eexists _, _. split; [vm_compute; reflexivity|].
  cbn [counter RxPackets RxDropped RxExpired]. repeat split. lia.
Qed.

(** C7, amended.  At every point of a run of the adapter over fewer than
    [2^64] datagrams, [RxPackets] counts the accepted datagrams and is at
    least [RxExpired] plus the number of packets delivered downstream.
    ([RxDropped] is not part of the bound: it counts packets that never
    arrived.) *)
Theorem received_covers_expired_and_delivered (nq size : Z)
    (batch : list (bool * packetBuffer)) :
  1 <= nq ->
  Forall (fun x => fst x = false -> routable (snd x)) batch ->
  Z.of_nat (length batch) < 2 ^ 64 ->
  exists a out,
    receiveAll (NewTridentAdapter nq size) batch = Some (a, out) /\
    RxPackets (counter a) = Z.of_nat (length (accepted batch)) /\
    RxPackets (counter a) >= RxExpired (counter a) + Z.of_nat (length (delivered out)).
Proof.
  intros Hn Hall Hlen.
  destruct (receiveAll_accounted batch (NewTridentAdapter nq size) 0 0%nat
              (new_adapter_ok nq size Hn) Hall (new_adapter_accounted nq size))
    as (a & out & E & _ & Hrx & e & He & Hex & Hsum).
  exists a, out. split; [exact E|].
  assert (Hk : Z.of_nat (length (accepted batch)) <= Z.of_nat (length batch)).
  { unfold accepted. pose proof (length_filter (fun x : bool * packetBuffer => x.1 = false) batch). lia. }
  rewrite Z.add_0_l in Hrx, Hsum. simpl in Hsum.
  rewrite u64_small in Hrx by lia. rewrite u64_small in Hex by lia.
  split; [exact Hrx|]. lia.
Qed.

Lemma received_covers_expired_and_delivered_witness :
  exists a out,
    receiveAll (NewTridentAdapter 1 4) jump_batch = Some (a, out) /\
    RxPackets (counter a) = Z.of_nat (length (accepted jump_batch)) /\
    RxPackets (counter a) >= RxExpired (counter a) + Z.of_nat (length (delivered out)).
Proof.
  apply (received_covers_expired_and_delivered 1 4 jump_batch).
  - lia.
  - repeat constructor; simpl; lia.
  - simpl. lia.
Defined.

(** C8, as stated, fails: after the restart at the second packet (the
    largest timestamp before it being 5), a packet with timestamp 3 whose
    sequence number is not behind the new head is accepted and delivered. *)
Lemma old_timestamp_delivered_after_restart :
  exists d1 o1 d2 o2 d3 o3,
    cacheLookup 4 1 (freshDispatcher 4) (pkt 10 5) = Some (d1, o1, 0, 0) /\
    maxTimestamp d1 = 5 /\ is_restart d1 (pkt 1 6) = true /\
    cacheLookup 4 1 d1 (pkt 1 6) = Some (d2, o2, 0, 0) /\
    cacheLookup 4 1 d2 (pkt 2 3) = Some (d3, o3, 0, 0) /\
    delivered o3 = [pkt 2 3] /\
    Decoder.timestamp (decoder (pkt 2 3)) <= maxTimestamp d1.
Proof.
  eexists _, _, _, _, _, _.
  split; [vm_compute; reflexivity|]. split; [reflexivity|]. split; [reflexivity|].
  split; [vm_compute; reflexivity|]. split; [vm_compute; reflexivity|].
  split; [reflexivity|]. simpl. lia.
Qed.

(** C8, amended.  From the call that detects a remote restart on, the
    window delivers only packets that arrive at or after that call: every
    packet it held before is released by that call.  A packet that arrives
    later with a timestamp not above the largest timestamp seen before the
    restart is released as a stale reorder whenever its sequence number is
    behind the head of the window at its arrival. *)
Theorem restart_discards_old (C n : Z) (d : tridentDispatcher) (p : packetBuffer)
    (qs : list packetBuffer) :
  pow2 C -> 1 <= n -> stable C d -> valid p -> Forall valid qs ->
  is_restart d p = true ->
  (exists d' out dr ex,
     feed C n d (p :: qs) = Some (d', out, dr, ex) /\
     (forall x, x ∈ delivered out -> x ∈ p :: qs) /\
     (forall x, x ∈ cached d -> x ∈ released out)) /\
  (forall qs1 q qs2, qs = qs1 ++ q :: qs2 ->
     Decoder.timestamp (decoder q) <= maxTimestamp d ->
     exists d1 o1 dr1 ex1,
       feed C n d (p :: qs1) = Some (d1, o1, dr1, ex1) /\
       (Seq (decoder q) < seq d1 ->
        cacheLookup C n d1 q = Some (d1, [Release q], 0, 1))).
Proof.
  intros HC Hn Hst Hp Hqs Hr.
  destruct (is_restart_inv d p Hr) as [Hs Hts].
  destruct (cacheLookup_summary C n HC Hn d p Hst Hp)
    as (d1 & o1 & dr1 & ex1 & E1 & Hst1 & Hm1 & Hc1).
  rewrite Hs in Hm1, Hc1. rewrite Hr in Hc1. destruct Hc1 as (_ & Hc1 & Hrel1).
  split.
  - destruct (feed_summary C n HC Hn qs d1 Hst1 Hqs)
      as (d2 & o2 & dr2 & ex2 & E2 & Hst2 & Hm2 & Hc2).
    exists d2, (o1 ++ o2), (dr1 + dr2), (ex1 + ex2). split.
    { simpl. rewrite E1. simpl. rewrite E2. reflexivity. }
    assert (Hin1 : forall x, x ∈ delivered o1 ++ cached d1 -> x = p).
    { intros x Hx. eapply elem_of_submseteq in Hx; [|exact Hc1].
      apply list_elem_of_singleton in Hx. exact Hx. }
    split.
    + intros x Hx. rewrite delivered_app in Hx. apply elem_of_app in Hx as [Hx|Hx].
      * rewrite (Hin1 x); [left|]. apply elem_of_app. left. exact Hx.
      * assert (Hx' : x ∈ qs ++ cached d1).
        { eapply elem_of_submseteq; [|exact Hc2]. apply elem_of_app. left. exact Hx. }
        apply elem_of_app in Hx' as [Hx'|Hx']; [right; exact Hx'|].
        rewrite (Hin1 x); [left|]. apply elem_of_app. right. exact Hx'.
    + intros x Hx. rewrite released_app, Hrel1. apply elem_of_app. left. exact Hx.
  - intros qs1 q qs2 -> Htq. apply Forall_app in Hqs as [Hqs1 Hq].
    apply Forall_cons in Hq as [Hq _].
    destruct (feed_summary C n HC Hn qs1 d1 Hst1 Hqs1)
      as (d2 & o2 & dr2 & ex2 & E2 & Hst2 & Hm2 & Hc2).
    exists d2, (o1 ++ o2), (dr1 + dr2), (ex1 + ex2). split.
    { simpl. rewrite E1. simpl. rewrite E2. reflexivity. }
    intros Hlt. destruct Hq as [Hsq _].
    assert (Hstale : is_stale d2 q = true).
    { unfold is_stale, is_backward, seeded.
      destruct (Z.eqb_spec (seq d2) 0) as [Hz|_]; [lia|].
      apply andb_true_intro. split; [apply Z.ltb_lt; exact Hlt|].
      apply negb_true_iff. apply Z.ltb_ge. lia. }
    rewrite (cacheLookup_stale C n d2 q Hstale). unfold seeded.
    destruct (Z.eqb_spec (seq d2) 0) as [Hz|_]; [lia|]. reflexivity.
Qed.

Lemma restart_discards_old_witness :
  (exists d' out dr ex,
     feed 4 1 after_1000 (pkt 5 11 :: [pkt 6 3]) = Some (d', out, dr, ex) /\
     (forall x, x ∈ delivered out -> x ∈ pkt 5 11 :: [pkt 6 3]) /\
     (forall x, x ∈ cached after_1000 -> x ∈ released out)) /\
  (forall qs1 q qs2, [pkt 6 3] = qs1 ++ q :: qs2 ->
     Decoder.timestamp (decoder q) <= maxTimestamp after_1000 ->
     exists d1 o1 dr1 ex1,
       feed 4 1 after_1000 (pkt 5 11 :: qs1) = Some (d1, o1, dr1, ex1) /\
       (Seq (decoder q) < seq d1 ->
        cacheLookup 4 1 d1 q = Some (d1, [Release q], 0, 1))).
Proof.
  apply (restart_discards_old 4 1 after_1000 (pkt 5 11) [pkt 6 3]).
  - exact pow2_4.
  - lia.
  - exact stable_after_1000.
  - apply valid_pkt; lia.
  - repeat constructor; simpl; lia.
  - reflexivity.
Defined.

(** C9. On a slice that starts at the outer IPv4 header of a GRE packet
    whose protocol type is [0x22EB] (ERSPAN III), [Decapsulate] yields the
    outer source and destination addresses, id 0 and type ERSPAN. *)
Theorem decapsulate_erspan3 (l3Packet : list Z) :
  Datatype.is_erspan3 l3Packet ->
  exists src dst,
    Datatype.be32 l3Packet 12 = Some src /\
    Datatype.be32 l3Packet 16 = Some dst /\
    Datatype.Decapsulate l3Packet
      = Datatype.mkTunnel src dst 0 Datatype.TUNNEL_TYPE_ERSPAN.
Proof.
  intros (Hproto & Hgre & Hlen).
  unfold Datatype.OFFSET_ERSPAN, Datatype.ETH_HEADER_SIZE in Hlen.
  assert (Hb : forall off, 0 <= off < 36 -> exists x, index l3Packet off = Some x).
  { intros off Hoff. apply index_in_range. lia. }
  assert (H16 : forall off, 0 <= off < 35 -> exists x, Datatype.be16 l3Packet off = Some x).
  { intros off Hoff. unfold Datatype.be16.
    destruct (Hb off) as [hi ->]; [lia|]. destruct (Hb (off + 1)) as [lo ->]; [lia|].
    simpl. eauto. }
  assert (H32 : forall off, 0 <= off < 33 -> exists x, Datatype.be32 l3Packet off = Some x).
  { intros off Hoff. unfold Datatype.be32.
    destruct (H16 off) as [hi ->]; [lia|]. destruct (H16 (off + 2)) as [lo ->]; [lia|].
    simpl. eauto. }
  destruct (H32 12) as [src Hsrc]; [lia|]. destruct (H32 16) as [dst Hdst]; [lia|].
  destruct (Hb 35) as [x Hx]; [lia|].
  exists src, dst. split; [exact Hsrc|]. split; [exact Hdst|].
  unfold Datatype.Decapsulate.
  change (Datatype.OFFSET_SIP - Datatype.ETH_HEADER_SIZE) with 12.
  change (Datatype.OFFSET_DIP - Datatype.ETH_HEADER_SIZE) with 16.
  change (Datatype.OFFSET_ERSPAN - Datatype.ETH_HEADER_SIZE + 11) with 35.
  rewrite Hsrc, Hdst. cbn [mbind option_bind]. rewrite Hproto. cbn [mbind option_bind].
  rewrite Z.eqb_refl. rewrite Hgre. cbn [mbind option_bind].
  change (8939 =? 35006) with false. change (8939 =? 8939) with true. cbv iota.
  rewrite Hx. reflexivity.
Qed.

Lemma decapsulate_erspan3_witness :
  exists src dst,
    Datatype.be32 Datatype.erspan3_packet 12 = Some src /\
    Datatype.be32 Datatype.erspan3_packet 16 = Some dst /\
    Datatype.Decapsulate Datatype.erspan3_packet
      = Datatype.mkTunnel src dst 0 Datatype.TUNNEL_TYPE_ERSPAN.
Proof.
  apply (decapsulate_erspan3 Datatype.erspan3_packet).
  split; [reflexivity|]. split; [reflexivity|]. vm_compute. discriminate.
Defined.

(** C10. [max_timestamp] never decreases across a call to [cacheLookup]: a
    stale packet leaves it alone, and every other call, the remote restart
    included, makes it the larger of its old value and the timestamp of the
    packet; after a restart it is the timestamp of the restarting packet. *)
Theorem maxTimestamp_monotone (C n : Z) (d : tridentDispatcher) (p : packetBuffer) :
  pow2 C -> 1 <= n -> shape C d ->
  exists d' out dr ex,
    cacheLookup C n d p = Some (d', out, dr, ex) /\
    maxTimestamp d <= maxTimestamp d' /\
    (is_restart d p = true -> maxTimestamp d' = Decoder.timestamp (decoder p)).
Proof.
  intros HC Hn Hsh.
  destruct (cacheLookup_maxTimestamp C n HC Hn d p Hsh) as (d' & out & dr & ex & E & Hm).
  exists d', out, dr, ex. split; [exact E|]. split.
  - rewrite Hm. destruct (is_stale d p); lia.
  - intros Hr. rewrite Hm. unfold is_restart in Hr. unfold is_stale.
    apply andb_prop in Hr as [-> Hlt]. rewrite Hlt. simpl.
    apply Z.ltb_lt in Hlt. lia.
Qed.

Lemma maxTimestamp_monotone_witness :
  exists d' out dr ex,
    cacheLookup 4 1 after_1000 (pkt 5 11) = Some (d', out, dr, ex) /\
    maxTimestamp after_1000 <= maxTimestamp d' /\
    (is_restart after_1000 (pkt 5 11) = true -> maxTimestamp d' = 11).
Proof.
  apply (maxTimestamp_monotone 4 1 after_1000 (pkt 5 11)).
  - exists 2. split; [lia|reflexivity].
  - lia.
  - split; simpl; lia.
Defined.
(** * Sizes and hashes *)

Lemma minPowerOfTwo_from_least m : forall i v,
  0 <= i -> i + Z.of_nat m = 30 -> v <= 2 ^ 30 -> (0 < i -> 2 ^ (i - 1) < v) ->
  exists k, 0 <= k <= 30 /\ minPowerOfTwo_from m i v = 2 ^ k /\ v <= 2 ^ k /\
            (0 < k -> 2 ^ (k - 1) < v).
Proof.
  induction m as [|m IH]; intros i v Hi Hm Hv Hlow; simpl.
  - assert (i = 30) as -> by lia. exists 30. split; [lia|]. split; [reflexivity|].
    split; [exact Hv|exact Hlow].
  - rewrite Z.shiftl_1_l. destruct (Z.leb_spec v (2 ^ i)) as [Hle|Hgt].
    + exists i. split; [lia|]. auto.
    + apply IH; try lia. intros _. replace (i + 1 - 1) with i by lia. exact Hgt.
Qed.

Lemma minPowerOfTwo_from_cap m : forall i v,
  0 <= i -> i + Z.of_nat m = 30 -> 2 ^ 30 < v -> minPowerOfTwo_from m i v = 2 ^ 30.
Proof.
  induction m as [|m IH]; intros i v Hi Hm Hv; simpl; [reflexivity|].
  rewrite Z.shiftl_1_l.
  assert (2 ^ i <= 2 ^ 30) by (apply Z.pow_le_mono_r; lia).
  destruct (Z.leb_spec v (2 ^ i)) as [Hle|Hgt]; [lia|]. apply IH; lia.
Qed.

Lemma lxor_bound n a b :
  0 <= n -> 0 <= a < 2 ^ n -> 0 <= b < 2 ^ n -> 0 <= Z.lxor a b < 2 ^ n.
Proof.
  intros Hn Ha Hb. split; [apply Z.lxor_nonneg; lia|].
  destruct (Z.eq_dec (Z.lxor a b) 0) as [->|Hne].
  - apply Z.pow_pos_nonneg; lia.
  - assert (0 <= Z.lxor a b) by (apply Z.lxor_nonneg; lia).
    assert (0 < n).
    { destruct (Z.eq_dec n 0) as [->|]; [|lia]. exfalso. apply Hne.
      assert (a = 0) as -> by (simpl in Ha; lia).
      assert (b = 0) as -> by (simpl in Hb; lia). reflexivity. }
    apply Z.log2_lt_pow2; [lia|].
    pose proof (Z.log2_lxor a b ltac:(lia) ltac:(lia)) as Hl.
    assert (Z.log2 a < n).
    { destruct (Z.eq_dec a 0) as [->|]; [simpl; lia|]. apply Z.log2_lt_pow2; lia. }
    assert (Z.log2 b < n).
    { destruct (Z.eq_dec b 0) as [->|]; [simpl; lia|]. apply Z.log2_lt_pow2; lia. }
    lia.
Qed.

Lemma shiftr_bound a k : 0 <= a < 2 ^ 8 -> 0 <= k -> 0 <= Z.shiftr a k < 2 ^ 8.
Proof.
  intros Ha Hk. rewrite Z.shiftr_div_pow2 by lia.
  assert (0 < 2 ^ k) by (apply Z.pow_pos_nonneg; lia).
  split; [apply Z.div_pos; lia|].
  apply Z.le_lt_trans with a; [|lia]. apply Z.div_le_upper_bound; [lia|]. nia.
Qed.

Lemma u8_range x : 0 <= u8 x < 2 ^ 8.
Proof. unfold u8. apply Z.mod_pos_bound. lia. Qed.

(** * Events given to a call are kept *)

Section Prefix.
Variables (C n : Z).

Lemma put_prefix pre p o : put n p (pre ++ o) = (pre ++.) <$> put n p o.
Proof.
  unfold put. case_decide; [|reflexivity]. simpl. rewrite app_assoc. reflexivity.
Qed.

Lemma forceStep_prefix pre i st :
  forceStep C n i (prefixed pre st) = prefixed pre <$> forceStep C n i st.
Proof.
  unfold forceStep. cbn [prefixed fd fout fdropped foffset].
  destruct (index (cache (fd st)) (startIndex (fd st))) as [[p|]|]; cbn [mbind option_bind];
    [|destruct (timestamp_put (fd st) i 0); reflexivity|reflexivity].
  rewrite put_prefix. destruct (put n p (fout st)) as [o|]; [|reflexivity].
  cbn [fmap option_fmap option_map mbind option_bind].
  destruct (cache_put (fd st) (startIndex (fd st)) None) as [d'|]; [|reflexivity].
  cbn [mbind option_bind]. destruct (timestamp_put d' i 0); reflexivity.
Qed.

Lemma forceFlush_prefix pre m : forall i st,
  forceFlush C n m i (prefixed pre st) = prefixed pre <$> forceFlush C n m i st.
Proof.
  induction m as [|m IH]; intros i st; [reflexivity|].
  cbn [forceFlush]. change (foffset (prefixed pre st)) with (foffset st).
  destruct (C <=? foffset st); [|reflexivity].
  rewrite forceStep_prefix. destruct (forceStep C n i st) as [st'|]; [|reflexivity].
  cbn [fmap option_fmap option_map mbind option_bind]. apply IH.
Qed.

Lemma bulkGap_prefix pre st : bulkGap C (prefixed pre st) = prefixed pre (bulkGap C st).
Proof.
  unfold bulkGap. cbn [prefixed foffset fd fdropped fout].
  destruct (C <=? foffset st); reflexivity.
Qed.

Lemma flushStep_prefix pre ts i st :
  flushStep C n ts i (prefixed pre st)
  = sum_map (prefixed pre) (prefixed pre) <$> flushStep C n ts i st.
Proof.
  unfold flushStep. cbn [prefixed fd fout fdropped foffset].
  destruct (index (cache (fd st)) (startIndex (fd st))) as [[p|]|]; cbn [mbind option_bind];
    [| |reflexivity].
  - rewrite put_prefix. destruct (put n p (fout st)) as [o|]; [|reflexivity].
    cbn [fmap option_fmap option_map mbind option_bind].
    destruct (cache_put (fd st) (startIndex (fd st)) None) as [d'|]; [|reflexivity].
    cbn [mbind option_bind]. destruct (timestamp_put d' i 0); reflexivity.
  - destruct (index (timestamp (fd st)) (startIndex (fd st))) as [t|]; [|reflexivity].
    cbn [mbind option_bind]. destruct (t =? 0); [reflexivity|].
    destruct (TRIDENT_TIMEOUT <? i64 (ts - t)); [|reflexivity].
    cbn [mbind option_bind]. destruct (timestamp_put (fd st) i 0); reflexivity.
Qed.

Lemma flush_prefix pre ts m : forall i st,
  flush C n ts m i (prefixed pre st) = prefixed pre <$> flush C n ts m i st.
Proof.
  induction m as [|m IH]; intros i st; [reflexivity|].
  cbn [flush]. rewrite flushStep_prefix.
  destruct (flushStep C n ts i st) as [[st'|st']|]; [reflexivity| |reflexivity].
  cbn [fmap option_fmap option_map mbind option_bind sum_map]. apply IH.
Qed.

(** [insert] appends its events to those it is given. *)
Lemma insert_prefix p d pre :
  insert C n p d pre =
  '(d', o, dr, ex) ← insert C n p d []; Some (d', pre ++ o, dr, ex).
Proof.
  unfold insert.
  set (d0 := if maxTimestamp d <? _ then _ else d).
  set (sq := Seq (decoder p)). set (ts := Decoder.timestamp (decoder p)).
  replace (mkFrame d0 0 (u64 (sq - seq d0)) pre)
    with (prefixed pre (mkFrame d0 0 (u64 (sq - seq d0)) []))
    by (unfold prefixed; cbn [fd fdropped foffset fout]; rewrite app_nil_r; reflexivity).
  rewrite forceFlush_prefix.
  destruct (forceFlush C n (Z.to_nat C) 0 _) as [st1|]; [|reflexivity].
  cbn [fmap option_fmap option_map mbind option_bind].
  rewrite bulkGap_prefix. cbn [prefixed fd foffset fdropped fout].
  destruct (cache_put _ _ _) as [d3|]; [|reflexivity]. cbn [mbind option_bind].
  destruct (timestamp_put _ _ _) as [d4|]; [|reflexivity]. cbn [mbind option_bind].
  destruct (backfill _ _ _ _ _) as [d5|]; [|reflexivity]. cbn [mbind option_bind].
  change (mkFrame d5 (fdropped (bulkGap C st1)) (foffset (bulkGap C st1))
                  (pre ++ fout (bulkGap C st1)))
    with (prefixed pre (mkFrame d5 (fdropped (bulkGap C st1)) (foffset (bulkGap C st1))
                                (fout (bulkGap C st1)))).
  rewrite flush_prefix.
  destruct (flush C n ts (Z.to_nat C) 0 _) as [st6|]; reflexivity.
Qed.

End Prefix.

Lemma events_nil (l : list event) : delivered l = [] -> released l = [] -> l = [].
Proof. destruct l as [|[k p|p] l]; [reflexivity|discriminate..]. Qed.

Section Account.
Variables (C n : Z).
Hypothesis HC : pow2 C.
Hypothesis Hn : 1 <= n.

(** A run of passages only appends deliveries. *)
Lemma chain_fout_grows R i st j st' :
  (forall i a b, R i a b -> passed n C i a b) ->
  chain R i st j st' ->
  exists l, fout st' = fout st ++ l /\ released l = [].
Proof.
  intros HR. induction 1 as [i st|i st st1 j st' H1 H2 IH].
  - exists []. rewrite app_nil_r. auto.
  - destruct IH as (l & El & Hl). destruct (HR _ _ _ H1) as [_ Hcase].
    destruct Hcase as [(p & _ & Eo & _)|(_ & Eo & _)]; rewrite El, Eo.
    + exists (Put (slaveOf n p) p :: l). rewrite <- app_assoc. auto.
    + exists l. auto.
Qed.

(** Every passage of the head is a delivery or a drop. *)
Lemma chain_account R i st j st' :
  (forall i a b, R i a b -> passed n C i a b) ->
  chain R i st j st' -> 0 <= fdropped st -> fdropped st + (j - i) < 2 ^ 64 ->
  fdropped st' + Z.of_nat (length (delivered (fout st')))
    = fdropped st + Z.of_nat (length (delivered (fout st))) + (j - i) /\
  fdropped st <= fdropped st' <= fdropped st + (j - i).
Proof.
  intros HR. induction 1 as [i st|i st st1 j st' H1 H2 IH]; intros H0 Hb; [lia|].
  pose proof (chain_le _ _ _ _ _ H2) as Hle.
  destruct (HR _ _ _ H1) as [_ Hcase].
  destruct Hcase as [(p & _ & Eo & Ed)|(_ & Eo & Ed)].
  - destruct IH as [E Hm]; [lia|lia|]. rewrite Eo, delivered_app, length_app in E.
    simpl in E. lia.
  - rewrite u64_small in Ed by lia.
    destruct IH as [E Hm]; [lia|lia|]. rewrite Eo in E. lia.
Qed.

Lemma bulkGap_account st :
  0 <= seq (fd st) -> 0 <= foffset st -> seq (fd st) + foffset st < 2 ^ 64 ->
  0 <= fdropped st -> fdropped st + foffset st < 2 ^ 64 ->
  fdropped (bulkGap C st) - fdropped st = seq (fd (bulkGap C st)) - seq (fd st) /\
  0 <= fdropped (bulkGap C st) <= fdropped st + foffset st /\
  (C <= foffset st -> fdropped (bulkGap C st) + C <= fdropped st + foffset st + 1).
Proof.
  intros Hs Ho Hb Hd Hdb. pose proof (pow2_range C HC) as HR. unfold bulkGap.
  destruct (Z.leb_spec C (foffset st)) as [Hge|Hlt]; [|lia].
  cbn [fd foffset fdropped seq set_startIndex set_seq].
  rewrite (u64_small (foffset st - C)) by lia.
  rewrite (u64_small (foffset st - C + 1)) by lia.
  rewrite (u64_small (seq (fd st) + _)) by lia.
  rewrite u64_small by lia. lia.
Qed.

(** [insert] away from the end of the sequence space: the head moves by
    the number of packets delivered plus the number counted as dropped. *)
Lemma insert_account p d out :
  wf C d -> valid p -> seq d <= Seq (decoder p) -> Seq (decoder p) + C < 2 ^ 64 ->
  (seq d = 0 -> Seq (decoder p) = 0) ->
  exists d' out' dr,
    insert C n p d out = Some (d', out', dr, 0) /\ 0 <= dr /\
    seq d' + Z.of_nat (length (delivered out))
      = seq d + Z.of_nat (length (delivered out')) + dr.
Proof.
  intros Hw Hv Hle Hb Hz. pose proof (pow2_range C HC) as HR.
  pose proof (wf_seq C d Hw) as Hs.
  set (sq := Seq (decoder p)) in *. set (ts := Decoder.timestamp (decoder p)).
  assert (Ha : aligned d sq (u64 (sq - seq d))).
  { rewrite u64_small by lia. unfold aligned.
    replace (seq d + (sq - seq d)) with sq by lia. rewrite u64_small by lia.
    repeat split; try lia. }
  destruct (insert_phases C n HC Hn p d out (wf_shape C d Hw))
    as (st1 & j1 & d5 & st6 & j6 & Hch1 & Hex1 & Hr5 & Hch6 & Hex6 & E).
  destruct (phases_wf C n HC p d out st1 j1 d5 st6 j6 Hw Ha Hch1 Hex1 Hr5 Hch6 Hex6)
    as (Hw1 & _ & Hw2 & _ & Ho2 & Hw5 & Hw6 & _).
  cbn zeta in *. fold sq ts in Hch1, Hr5, Hch6, Hex6.
  rewrite u64_small in Hch1 by lia.
  set (st0 := mkFrame (stamp d ts) 0 (sq - seq d) out) in *.
  assert (Hw0 : wf C (fd st0)).
  { eapply same_ring_wf; [apply stamp_same_ring|exact Hw]. }
  assert (Es0 : seq (fd st0) = seq d).
  { destruct (stamp_same_ring d ts) as (_ & _ & Es & _). exact Es. }
  destruct (chain_forced_offset C n HC _ _ _ _ Hch1) as [Eo1 Hj1]; [simpl; lia|].
  cbn [foffset st0] in Eo1, Hj1.
  pose proof (chain_le _ _ _ _ _ Hch1) as Hj0.
  destruct (chain_increasing C n HC _ _ _ _ _ (forced_passed C n) Hch1 Hw0)
    as (Es1 & _); [lia|].
  rewrite Es0 in Es1.
  destruct (chain_account _ _ _ _ _ (forced_passed C n) Hch1) as [Ea1 Hm1];
    [simpl; lia|simpl; lia|].
  cbn [fdropped fout st0] in Ea1, Hm1.
  destruct (bulkGap_seq C HC st1) as [Hs2 Hso2]; [lia|lia|lia|].
  destruct (bulkGap_account st1) as (Ea2 & Hd2 & Hd2'); [lia|lia|lia|lia|lia|].
  set (st2 := bulkGap C st1) in *.
  assert (Eo2 : fout st2 = fout st1) by apply bulkGap_fout.
  set (st5 := mkFrame d5 (fdropped st2) (foffset st2) (fout st2)) in *.
  assert (Es5 : seq (fd st5) = seq (fd st2)).
  { destruct Hr5 as (_ & Es & _). exact Es. }
  pose proof (chain_flushed_bound C n _ _ _ _ _ Hch6 ltac:(lia)) as Hj6.
  pose proof (chain_le _ _ _ _ _ Hch6) as Hj60.
  destruct (chain_increasing C n HC _ _ _ _ _ (flushed_passed C n ts) Hch6 Hw5)
    as (Es6 & _); [lia|].
  rewrite Es5 in Es6.
  assert (Hdb : fdropped st2 + C < 2 ^ 64).
  { destruct (Z.le_gt_cases C (foffset st1)) as [Hge|Hlt]; [specialize (Hd2' Hge); lia|].
    unfold st2 in *. rewrite bulkGap_id in * by (exact HC || exact Hlt). lia. }
  destruct (chain_account _ _ _ _ _ (flushed_passed C n ts) Hch6) as [Ea6 Hm6];
    [simpl; lia|simpl; lia|].
  cbn [fdropped fout st5] in Ea6, Hm6. rewrite Eo2 in Ea6.
  assert (Esd : seq (settle st6) = seq (fd st6)).
  { destruct (settle_same_ring st6) as (_ & _ & Es & _). exact Es. }
  eexists _, _, _. split; [exact E|]. rewrite Esd. split; lia.
Qed.

End Account.

Section Calls2.
Variables (C n : Z).
Hypothesis HC : pow2 C.
Hypothesis Hn : 1 <= n.

Lemma reseated_seeded sq sq' d : reseated C sq (seeded d sq') = reseated C sq d.
Proof. unfold seeded. destruct (seq d =? 0); reflexivity. Qed.

(** A call that detects a restart: the packets held are released, and the
    packet is inserted into the reseated window. *)
Lemma cacheLookup_restart_insert d p :
  shape C d -> is_restart d p = true ->
  cacheLookup C n d p =
  '(d', o, dr, ex) ← insert C n p (reseated C (Seq (decoder p)) d) [];
  Some (d', (Release <$> cached d) ++ o, dr, ex).
Proof.
  intros Hsh Hr. pose proof (pow2_range C HC) as HR.
  rewrite (cacheLookup_restart C n d p Hr).
  rewrite restart_spec by (lia || apply seeded_shape; exact Hsh).
  cbn [mbind option_bind app]. rewrite reseated_seeded, seeded_cached.
  apply insert_prefix.
Qed.

Lemma insert_keeps p d out :
  wf C d -> aligned d (Seq (decoder p)) (u64 (Seq (decoder p) - seq d)) ->
  exists d' out' dr,
    insert C n p d out = Some (d', out', dr, 0) /\
    p ∈ delivered out' ++ cached d'.
Proof.
  intros Hw Ha.
  destruct (insert_phases C n HC Hn p d out (wf_shape C d Hw))
    as (st1 & j1 & d5 & st6 & j6 & Hch1 & Hex1 & Hr5 & Hch6 & Hex6 & E).
  destruct (phases_wf C n HC p d out st1 j1 d5 st6 j6 Hw Ha Hch1 Hex1 Hr5 Hch6 Hex6)
    as (_ & _ & Hw2 & Ha2 & Ho2 & Hw5 & _ & _).
  cbn zeta in *. eexists _, _, _. split; [exact E|].
  set (st2 := bulkGap C st1) in *.
  assert (Hp : p ∈ cached d5).
  { destruct Hr5 as (Ec & _). unfold cached. rewrite Ec.
    pose proof (slot_place_eq C p st2 (wf_shape C _ Hw2)) as Hs.
    destruct Ha2 as (Ho0 & _). specialize (Hs ltac:(lia)).
    apply slot_lookup in Hs. apply list_elem_of_omap. exists (Some p).
    split; [|reflexivity]. eapply list_elem_of_lookup_2. exact Hs. }
  destruct (chain_conserves C n _ _ _ _ _ (flushed_passed C n _) Hch6 (wf_shape C _ Hw5))
    as [Hperm _].
  cbn [fd fout] in Hperm.
  assert (Ec : cached (settle st6) = cached (fd st6)).
  { destruct (settle_same_ring st6) as (Ec & _). unfold cached. rewrite Ec. reflexivity. }
  rewrite Ec, Hperm. apply elem_of_app. right. exact Hp.
Qed.

End Calls2.

Section Calls3.
Variables (C n : Z).
Hypothesis HC : pow2 C.
Hypothesis Hn : 1 <= n.

Lemma cacheLookup_account d p :
  stable C d -> valid p -> 1 <= Seq (decoder p) -> Seq (decoder p) + C < 2 ^ 64 ->
  is_stale d p = false ->
  exists d' out dr,
    cacheLookup C n d p = Some (d', out, dr, 0) /\ 0 <= dr /\
    seq d' = insertHead C d p + Z.of_nat (length (delivered out)) + dr.
Proof.
  intros Hst Hv H1 Hb Hns. pose proof Hv as [Hsq _]. pose proof (pow2_range C HC) as HR.
  pose proof (wf_shape C d (proj1 Hst)) as Hsh. unfold insertHead.
  destruct (call_cases d p) as [Hc|[Hc|Hc]]; [congruence| |].
  - rewrite Hc, (cacheLookup_restart_insert C n HC d p Hsh Hc).
    set (d0 := reseated C (Seq (decoder p)) d).
    assert (Es0 : seq d0 = if C <? Seq (decoder p) then Seq (decoder p) - C else 1).
    { unfold d0, reseated. simpl. destruct (Z.ltb_spec C (Seq (decoder p))); [|reflexivity].
      apply u64_small. lia. }
    destruct (insert_account C n HC Hn p d0 []) as (d' & o & dr & E & H0 & Ha).
    + apply reseated_wf; assumption.
    + exact Hv.
    + rewrite Es0. destruct (Z.ltb_spec C (Seq (decoder p))); lia.
    + exact Hb.
    + rewrite Es0. destruct (Z.ltb_spec C (Seq (decoder p))); lia.
    + rewrite E. cbn [mbind option_bind]. eexists _, _, _. split; [reflexivity|].
      split; [exact H0|]. rewrite delivered_app, delivered_releases.
      change (delivered []) with (@nil packetBuffer) in Ha. cbn [length app] in Ha |- *.
      rewrite <- Es0. lia.
  - assert (Hnr : is_restart d p = false).
    { unfold is_restart. rewrite Hc. reflexivity. }
    rewrite Hnr, (cacheLookup_forward C n d p Hc).
    pose proof (seeded_wf C d _ Hst Hsq) as Hw0.
    assert (Hfw : seq (seeded d (Seq (decoder p))) <= Seq (decoder p)).
    { unfold is_backward in Hc. apply Z.ltb_ge in Hc. exact Hc. }
    assert (Hz : seq (seeded d (Seq (decoder p))) = 0 -> Seq (decoder p) = 0).
    { unfold seeded. destruct (Z.eqb_spec (seq d) 0); simpl; lia. }
    destruct (insert_account C n HC Hn p _ [] Hw0 Hv Hfw Hb Hz) as (d' & o & dr & E & H0 & Ha).
    eexists _, _, _. split; [exact E|]. split; [exact H0|].
    change (delivered []) with (@nil packetBuffer) in Ha. cbn [length] in Ha. lia.
Qed.

Lemma cacheLookup_keeps d p :
  stable C d -> valid p -> is_stale d p = false ->
  exists d' out dr,
    cacheLookup C n d p = Some (d', out, dr, 0) /\
    p ∈ delivered out ++ cached d'.
Proof.
  intros Hst Hv Hns. pose proof Hv as [Hsq _]. pose proof (pow2_range C HC) as HR.
  pose proof (wf_shape C d (proj1 Hst)) as Hsh.
  destruct (call_cases d p) as [Hc|[Hc|Hc]]; [congruence| |].
  - rewrite (cacheLookup_restart_insert C n HC d p Hsh Hc).
    destruct (insert_keeps C n HC Hn p (reseated C (Seq (decoder p)) d) [])
      as (d' & o & dr & E & Hin).
    + apply reseated_wf; assumption.
    + apply reseated_aligned; assumption.
    + rewrite E. cbn [mbind option_bind]. eexists _, _, _. split; [reflexivity|].
      rewrite delivered_app, delivered_releases. exact Hin.
  - rewrite (cacheLookup_forward C n d p Hc).
    pose proof (seeded_wf C d _ Hst Hsq) as Hw0.
    apply (insert_keeps C n HC Hn); [exact Hw0|].
    apply (seeded_aligned C); assumption.
Qed.

(** A packet that carries the sequence number of the head goes downstream
    first. *)
Lemma insert_at_head p d :
  wf C d -> Seq (decoder p) = seq d ->
  exists d' rest dr,
    insert C n p d [] = Some (d', Put (slaveOf n p) p :: rest, dr, 0) /\
    released rest = [].
Proof.
  intros Hw Hsq. pose proof (pow2_range C HC) as HR. pose proof (wf_seq C d Hw) as Hs.
  destruct (insert_phases C n HC Hn p d [] (wf_shape C d Hw))
    as (st1 & j1 & d5 & st6 & j6 & Hch1 & Hex1 & Hr5 & Hch6 & Hex6 & E).
  cbn zeta in *. rewrite Hsq, Z.sub_diag in Hch1.
  change (u64 0) with 0 in Hch1.
  destruct (chain_forced_nil C n _ _ _ _ Hch1) as [-> ->]; [simpl; lia|].
  rewrite bulkGap_id in * by (simpl; lia). cbn [fdropped foffset fout] in Hch6.
  set (ts := Decoder.timestamp (decoder p)) in *.
  set (st0 := mkFrame (stamp d ts) 0 0 []) in *.
  assert (Hsh0 : shape C (fd st0)) by (apply stamp_shape, (wf_shape C d Hw)).
  assert (Hh5 : slot C d5 0 = Some (Some p)).
  { rewrite (restamped_slot C ts _ _ 0 Hr5).
    apply (slot_place_eq C p st0 Hsh0). simpl. lia. }
  assert (Hout : exists rest, fout st6 = Put (slaveOf n p) p :: rest /\ released rest = []).
  { inversion Hch6 as [i st Ei Est Ej Est'|i st sta j st' H1 H2 Ei Est Ej Est'].
    - exfalso. subst. destruct Hex6 as [Hj|[Hh _]]; [lia|].
      cbn [fd] in Hh. congruence.
    - subst. destruct H1 as (_ & [_ Hcase] & _). cbn [fd fout fdropped] in Hcase.
      destruct Hcase as [(q & Hq & Eo & _)|(Hq & _)]; [|congruence].
      assert (q = p) as -> by congruence.
      destruct (chain_fout_grows C n _ _ _ _ _ (flushed_passed C n ts) H2) as (l & El & Hl).
      exists l. rewrite El, Eo. cbn [app]. split; [reflexivity|exact Hl]. }
  destruct Hout as (rest & Eo & Hl). rewrite E, Eo.
  eexists _, _, _. split; [reflexivity|exact Hl].
Qed.

Lemma cacheLookup_at_head d p :
  stable C d -> valid p -> seq d = 0 \/ Seq (decoder p) = seq d ->
  exists d' rest dr,
    cacheLookup C n d p = Some (d', Put (slaveOf n p) p :: rest, dr, 0) /\
    released rest = [].
Proof.
  intros Hst Hv Hh. pose proof Hv as [Hsq _].
  assert (Es : Seq (decoder p) = seq (seeded d (Seq (decoder p)))).
  { unfold seeded. destruct (Z.eqb_spec (seq d) 0); simpl; lia. }
  assert (Hc : is_backward d p = false).
  { unfold is_backward. rewrite <- Es. apply Z.ltb_irrefl. }
  rewrite (cacheLookup_forward C n d p Hc).
  apply insert_at_head; [apply (seeded_wf C); assumption|exact Es].
Qed.

End Calls3.

Section Dropped.
Variables (C n : Z).
Hypothesis HC : pow2 C.
Hypothesis Hn : 1 <= n.

Lemma chain_dropped R i st j st' :
  (forall i a b, R i a b -> passed n C i a b) ->
  chain R i st j st' -> 0 <= fdropped st ->
  dropped (fd st') = dropped (fd st) /\ 0 <= fdropped st'.
Proof.
  intros HR. induction 1 as [|i st st1 j st' H1 H2 IH]; intros H0; [auto|].
  destruct (HR _ _ _ H1) as [E Hcase].
  destruct IH as [Ed H0'].
  - destruct Hcase as [(p & _ & _ & ->)|(_ & _ & ->)]; [exact H0|apply u64_range].
  - split; [|exact H0']. rewrite Ed, E. reflexivity.
Qed.

Lemma bulkGap_dropped st :
  0 <= fdropped st ->
  dropped (fd (bulkGap C st)) = dropped (fd st) /\ 0 <= fdropped (bulkGap C st).
Proof.
  intros H0. unfold bulkGap. destruct (C <=? foffset st); [|auto].
  split; [reflexivity|apply u64_range].
Qed.

(** The cumulative counter of the window grows by what the call returns. *)
Lemma insert_dropped p d out :
  shape C d ->
  exists d' out' dr,
    insert C n p d out = Some (d', out', dr, 0) /\ 0 <= dr /\
    dropped d' = (if 0 <? dr then u64 (dropped d + dr) else dropped d).
Proof.
  intros Hsh.
  destruct (insert_phases C n HC Hn p d out Hsh)
    as (st1 & j1 & d5 & st6 & j6 & Hch1 & Hex1 & Hr5 & Hch6 & Hex6 & E).
  cbn zeta in *. eexists _, _, _. split; [exact E|].
  destruct (chain_dropped _ _ _ _ _ (forced_passed C n) Hch1) as [Ed1 H1]; [simpl; lia|].
  destruct (bulkGap_dropped st1 H1) as [Ed2 H2].
  destruct (chain_dropped _ _ _ _ _ (flushed_passed C n _) Hch6) as [Ed6 H6]; [exact H2|].
  split; [exact H6|].
  cbn [fd] in Ed1, Ed6. destruct Hr5 as (_ & _ & _ & _ & Ed5 & _).
  cbn [place dropped set_timestamp set_cache] in Ed5.
  assert (Ed0 : dropped (stamp d (Decoder.timestamp (decoder p))) = dropped d).
  { unfold stamp. destruct (maxTimestamp d <? _); reflexivity. }
  assert (Ed : dropped (fd st6) = dropped d) by congruence.
  unfold settle. destruct (0 <? fdropped st6); simpl; rewrite Ed; reflexivity.
Qed.

Lemma seeded_dropped d sq : dropped (seeded d sq) = dropped d.
Proof. unfold seeded. destruct (seq d =? 0); reflexivity. Qed.

Lemma cacheLookup_dropped d p :
  shape C d ->
  exists d' out dr ex,
    cacheLookup C n d p = Some (d', out, dr, ex) /\ 0 <= dr /\
    dropped d' = (if 0 <? dr then u64 (dropped d + dr) else dropped d).
Proof.
  intros Hsh. pose proof (pow2_range C HC) as HR.
  destruct (call_cases d p) as [Hc|[Hc|Hc]].
  - rewrite (cacheLookup_stale C n d p Hc).
    eexists _, _, _, _. split; [reflexivity|]. split; [lia|]. apply seeded_dropped.
  - rewrite (cacheLookup_restart C n d p Hc).
    rewrite restart_spec by (lia || apply seeded_shape; exact Hsh).
    cbn [mbind option_bind].
    edestruct (insert_dropped p) as (d' & out' & dr & E & H0 & Hd);
      [apply (reseated_shape C HC)|].
    eexists _, _, _, _. split; [exact E|]. split; [exact H0|].
    rewrite Hd. simpl. rewrite seeded_dropped. reflexivity.
  - rewrite (cacheLookup_forward C n d p Hc).
    edestruct (insert_dropped p) as (d' & out' & dr & E & H0 & Hd);
      [apply seeded_shape; exact Hsh|].
    eexists _, _, _, _. split; [exact E|]. split; [exact H0|].
    rewrite Hd, seeded_dropped. reflexivity.
Qed.

End Dropped.

Lemma within_timeout_refl ts : within_timeout ts ts.
Proof. unfold within_timeout, TRIDENT_TIMEOUT, second. lia. Qed.

Section Restart.
Variables (C n : Z).
Hypothesis HC : pow2 C.
Hypothesis Hn : 1 <= n.

Lemma stamp_timestamp d ts : timestamp (stamp d ts) = timestamp d.
Proof. unfold stamp. destruct (maxTimestamp d <? ts); reflexivity. Qed.

(** After a restart with a sequence number above the cache size the packet
    lies one slot beyond the reseated window: one empty slot is passed. *)
Lemma insert_reseated_far p d out :
  valid p -> C < Seq (decoder p) -> Seq (decoder p) + C < 2 ^ 64 ->
  exists d' out',
    insert C n p (reseated C (Seq (decoder p)) d) out = Some (d', out', 1, 0).
Proof.
  intros Hv Hgt Hb. pose proof Hv as [Hsq _]. pose proof (pow2_range C HC) as HR.
  set (sq := Seq (decoder p)) in *. set (ts := Decoder.timestamp (decoder p)).
  set (d0 := reseated C sq d).
  assert (Hw : wf C d0) by (apply reseated_wf; assumption).
  assert (Ha : aligned d0 sq (u64 (sq - seq d0))) by (apply reseated_aligned; assumption).
  assert (Es0 : seq d0 = sq - C).
  { unfold d0, reseated. simpl. destruct (Z.ltb_spec C sq); [|lia]. apply u64_small. lia. }
  destruct (insert_phases C n HC Hn p d0 out (wf_shape C d0 Hw))
    as (st1 & j1 & d5 & st6 & j6 & Hch1 & Hex1 & Hr5 & Hch6 & Hex6 & E).
  destruct (phases_wf C n HC p d0 out st1 j1 d5 st6 j6 Hw Ha Hch1 Hex1 Hr5 Hch6 Hex6)
    as (Hw1 & _ & Hw2 & Ha2 & Ho2 & Hw5 & Hw6 & _).
  cbn zeta in *. fold sq ts in Hch1, Hr5, Hch6, Hex6, E.
  rewrite Es0 in Hch1. replace (sq - (sq - C)) with C in Hch1 by lia.
  rewrite (u64_small C) in Hch1 by lia.
  assert (Hst1 : fd st1 = advance C 0 (stamp d0 ts) /\ fdropped st1 = 1 /\
                 foffset st1 = C - 1).
  { inversion Hch1 as [i st Ei Est Ej Est'|i st sta j st' H1 H2 Ei Est Ej Est'].
    - exfalso. subst. simpl in Hex1. lia.
    - subst. destruct H1 as (_ & _ & [Efd Hcase] & Eoff).
      cbn [fd fout fdropped foffset] in Efd, Hcase, Eoff.
      rewrite u64_small in Eoff by lia.
      destruct (chain_forced_nil C n _ _ _ _ H2) as [-> ->]; [lia|].
      split; [exact Efd|]. split; [|exact Eoff].
      destruct Hcase as [(q & Hq & _)|(_ & _ & Ed)]; [|exact Ed].
      rewrite (same_ring_slot C _ _ 0 (stamp_same_ring d0 ts)) in Hq.
      unfold d0 in Hq. rewrite reseated_slot in Hq by lia. discriminate. }
  destruct Hst1 as (Efd1 & Ed1 & Eo1).
  rewrite bulkGap_id in * by lia.
  assert (Hstamps : stamps_ok ts d5).
  { apply Forall_forall. intros t Ht.
    destruct Hr5 as (_ & _ & _ & _ & _ & _ & Hts).
    destruct (Hts t Ht) as [Hin| ->]; [|right; apply within_timeout_refl].
    unfold place in Hin. cbn [timestamp set_timestamp set_cache] in Hin.
    apply elem_of_insert_inv in Hin as [Hin| ->]; [|right; apply within_timeout_refl].
    rewrite Efd1 in Hin. cbn [advance timestamp] in Hin.
    apply elem_of_insert_inv in Hin as [Hin| ->]; [|left; reflexivity].
    rewrite stamp_timestamp in Hin. unfold d0, reseated, make in Hin. simpl in Hin.
    apply elem_of_replicate in Hin as [-> _]. left. reflexivity. }
  assert (Es5 : seq d5 = sq - C + 1).
  { destruct Hr5 as (_ & -> & _). unfold place. cbn [seq set_timestamp set_cache].
    rewrite Efd1. cbn [advance seq].
    destruct (stamp_same_ring d0 ts) as (_ & _ & -> & _). rewrite Es0.
    apply u64_small. lia. }
  pose proof (chain_flushed_bound C n _ _ _ _ _ Hch6 ltac:(lia)) as Hj6.
  destruct (chain_clean C n HC ts ts _ _ _ _ Hch6) as (Ed6 & _).
  - exact Hw5.
  - exact Hstamps.
  - apply within_timeout_refl.
  - cbn [fd]. lia.
  - cbn [fdropped] in Ed6. rewrite Ed1 in Ed6. rewrite Ed6 in E.
    eexists _, _. exact E.
Qed.

Lemma insert_reseated_near p d :
  valid p -> 1 <= Seq (decoder p) <= C -> Seq (decoder p) + C < 2 ^ 64 ->
  exists d' out',
    insert C n p (reseated C (Seq (decoder p)) d) [] = Some (d', out', 0, 0).
Proof.
  intros Hv Hr Hb. pose proof Hv as [Hsq _]. pose proof (pow2_range C HC) as HR.
  set (sq := Seq (decoder p)) in *.
  assert (Es0 : seq (reseated C sq d) = 1).
  { unfold reseated. simpl. destruct (Z.ltb_spec C sq); [lia|reflexivity]. }
  destruct (insert_clean C n HC Hn (Decoder.timestamp (decoder p)) p (reseated C sq d))
    as (d' & o & E & _).
  - apply reseated_wf; assumption.
  - exact Hv.
  - rewrite Es0. lia.
  - rewrite Es0. fold sq. lia.
  - exact Hb.
  - unfold stamps_ok, reseated, make. simpl. apply Forall_replicate. left. reflexivity.
  - apply within_timeout_refl.
  - eexists _, _. exact E.
Qed.

Lemma cacheLookup_restart_drops d p :
  shape C d -> valid p -> is_restart d p = true ->
  1 <= Seq (decoder p) -> Seq (decoder p) + C < 2 ^ 64 ->
  exists d' out,
    cacheLookup C n d p = Some (d', out, (if C <? Seq (decoder p) then 1 else 0), 0) /\
    released out = cached d /\
    dropped d' = (if C <? Seq (decoder p) then u64 (dropped d + 1) else dropped d).
Proof.
  intros Hsh Hv Hr H1 Hb.
  rewrite (cacheLookup_restart_insert C n HC d p Hsh Hr).
  set (d0 := reseated C (Seq (decoder p)) d).
  destruct (insert_conserves C n HC Hn p d0 [] (reseated_shape C HC _ _))
    as (d1 & o1 & dr1 & E1 & _ & Hrel).
  destruct (insert_dropped C n HC Hn p d0 [] (reseated_shape C HC _ _))
    as (d2 & o2 & dr2 & E2 & _ & Hdr).
  assert (Edr : dr1 = if C <? Seq (decoder p) then 1 else 0).
  { destruct (Z.ltb_spec C (Seq (decoder p))) as [Hgt|Hle].
    - destruct (insert_reseated_far p d [] Hv Hgt Hb) as (d3 & o3 & E3).
      fold d0 in E3. congruence.
    - destruct (insert_reseated_near p d Hv ltac:(lia) Hb) as (d3 & o3 & E3).
      fold d0 in E3. congruence. }
  rewrite E1 in E2. injection E2 as <- <- <-.
  rewrite E1. cbn [mbind option_bind]. eexists _, _. rewrite Edr. split; [reflexivity|].
  split.
  - rewrite released_app, released_releases, Hrel. apply app_nil_r.
  - rewrite Hdr, Edr. unfold d0. cbn [reseated dropped].
    destruct (C <? Seq (decoder p)); reflexivity.
Qed.

(** The first packet a fresh window sees goes straight downstream. *)
Lemma cacheLookup_first p :
  valid p -> 1 <= Seq (decoder p) -> Seq (decoder p) + C < 2 ^ 64 ->
  exists d',
    cacheLookup C n (freshDispatcher C) p = Some (d', [Put (slaveOf n p) p], 0, 0) /\
    seq d' = Seq (decoder p) + 1 /\ cached d' = [] /\
    maxTimestamp d' = Z.max 0 (Decoder.timestamp (decoder p)).
Proof.
  intros Hv H1 Hb. pose proof (pow2_range C HC) as HR.
  pose proof (fresh_stable C HC) as Hst.
  set (d := freshDispatcher C) in *. set (sq := Seq (decoder p)) in *.
  assert (Es0 : seq (seeded d sq) = sq) by reflexivity.
  assert (Hbk : is_backward d p = false).
  { unfold is_backward. fold sq. rewrite Es0. apply Z.ltb_irrefl. }
  assert (Hns : is_stale d p = false) by (unfold is_stale; rewrite Hbk; reflexivity).
  assert (Hnr : is_restart d p = false) by (unfold is_restart; rewrite Hbk; reflexivity).
  destruct (cacheLookup_clean C n HC Hn (Decoder.timestamp (decoder p)) d p)
    as (d' & out & E & Hst' & _ & _ & Eds & _).
  - exact Hst.
  - exact Hv.
  - fold sq. rewrite Es0. exact H1.
  - fold sq. rewrite Es0. lia.
  - exact Hb.
  - apply fresh_stamps.
  - apply within_timeout_refl.
  - fold sq in Eds. rewrite Es0 in Eds.
    destruct (cacheLookup_at_head C n HC Hn d p Hst Hv) as (d1 & rest & dr1 & E1 & Hrel);
      [left; reflexivity|].
    rewrite E in E1. injection E1 as <- -> <-.
    destruct (cacheLookup_summary C n HC Hn d p Hst Hv)
      as (d2 & o2 & dr2 & ex2 & E2 & _ & Hmax & Hcons).
    rewrite E in E2. injection E2 as <- <- <- <-.
    rewrite Hns in Hmax, Hcons. rewrite Hnr in Hcons. destruct Hcons as (_ & Hsub & _).
    assert (Hlen : delivered rest = [] /\ cached d' = []).
    { assert (Ec : cached d = []) by apply cached_make.
      rewrite Ec in Hsub. apply submseteq_length in Hsub.
      change (delivered (Put (slaveOf n p) p :: rest)) with (p :: delivered rest) in Hsub.
      cbn [app length] in Hsub. rewrite length_app in Hsub.
      destruct (delivered rest); [|simpl in Hsub; lia].
      destruct (cached d'); [auto|simpl in Hsub; lia]. }
    destruct Hlen as [Hdel Hc].
    assert (rest = []) as -> by (apply events_nil; assumption).
    exists d'. split; [exact E|]. split; [|split; [exact Hc|exact Hmax]].
    assert (Hl : length (deliveredSeqs [Put (slaveOf n p) p]) = 1%nat) by reflexivity.
    rewrite Eds, length_seqZ in Hl. lia.
Qed.

End Restart.

(** * Exact conservation *)

Lemma cached_put (l : list (option packetBuffer)) i p v :
  l !! i = Some v -> inSlot v ++ omap id (<[i := Some p]> l) ≡ₚ p :: omap id l.
Proof.
  intros H.
  assert (Hlt : (i < length l)%nat) by (eapply lookup_lt_Some; exact H).
  rewrite (cached_take (<[i := Some p]> l) i p) by (apply list_lookup_insert_eq; exact Hlt).
  rewrite list_insert_insert_eq. destruct v as [q|]; cbn [inSlot app].
  - rewrite (cached_take l i q H). apply perm_swap.
  - rewrite (list_insert_id l i None H). reflexivity.
Qed.

Section Exact.
Variables (C n : Z).
Hypothesis HC : pow2 C.
Hypothesis Hn : 1 <= n.

(** [insert] moves packets and loses none, but for the packet [v] that the
    slot of the incoming packet held. *)
Lemma insert_exact p d out :
  wf C d -> aligned d (Seq (decoder p)) (u64 (Seq (decoder p) - seq d)) ->
  exists d' out' dr v,
    insert C n p d out = Some (d', out', dr, 0) /\
    (if u64 (Seq (decoder p) - seq d) <? C
     then slot C d (u64 (Seq (decoder p) - seq d)) = Some v
     else v = None) /\
    inSlot v ++ delivered out' ++ cached d' ≡ₚ delivered out ++ p :: cached d /\
    released out' = released out.
Proof.
  intros Hw Ha. pose proof (pow2_range C HC) as HR. pose proof (wf_shape C d Hw) as Hsh.
  destruct (insert_phases C n HC Hn p d out Hsh)
    as (st1 & j1 & d5 & st6 & j6 & Hch1 & Hex1 & Hr5 & Hch6 & Hex6 & E).
  destruct (phases_wf C n HC p d out st1 j1 d5 st6 j6 Hw Ha Hch1 Hex1 Hr5 Hch6 Hex6)
    as (Hw1 & Ha1 & Hw2 & Ha2 & Ho2 & Hw5 & Hw6 & _).
  cbn zeta in *. set (ts := Decoder.timestamp (decoder p)) in *.
  set (sq := Seq (decoder p)) in *. set (off := u64 (sq - seq d)) in *.
  set (st0 := mkFrame (stamp d ts) 0 off out) in *.
  set (st2 := bulkGap C st1) in *.
  assert (Hsh0 : shape C (fd st0)) by (apply stamp_shape; exact Hsh).
  destruct (slot_defined C HC (fd st2) (foffset st2) (wf_shape C _ Hw2)) as [v Hv].
  assert (Hoff : 0 <= off < 2 ^ 64) by apply u64_range.
  assert (Hvd : if off <? C then slot C d off = Some v else v = None).
  { destruct (Z.ltb_spec off C) as [Hlt|Hge].
    - destruct (chain_forced_nil C n _ _ _ _ Hch1) as [E1 _]; [exact Hlt|].
      unfold st2 in Hv. rewrite E1, bulkGap_id in Hv by exact Hlt.
      cbn [fd foffset st0] in Hv.
      rewrite (same_ring_slot C _ _ off (stamp_same_ring d ts)) in Hv. exact Hv.
    - destruct (chain_forced_offset C n HC _ _ _ _ Hch1) as [Eo1 Hj1]; [exact Hoff|].
      cbn [foffset st0] in Eo1, Hj1.
      pose proof (chain_tail C n _ (forced_passed C n) _ _ _ _ 0 Hch1 Hsh0
                    (tail_empty_0 C _)) as Ht.
      destruct Ha1 as (Ho1 & _).
      destruct (Z.lt_ge_cases (foffset st1) C) as [Hlt1|Hge1].
      + unfold st2 in Hv. rewrite bulkGap_id in Hv by exact Hlt1.
        rewrite (Ht (foffset st1)) in Hv by lia. congruence.
      + assert (j1 = C) as -> by (destruct Hex1; [assumption|lia]).
        replace (0 + (C - 0)) with C in Ht by lia.
        rewrite (all_empty_slots C HC (fd st1) (fd st2) (foffset st2)
                   (wf_shape C _ Hw1) Ht (bulkGap_cache C st1)) in Hv.
        congruence. }
  destruct (chain_conserves C n _ _ _ _ _ (forced_passed C n) Hch1 Hsh0) as [P1 R1].
  cbn [fd fout st0] in P1, R1.
  destruct (chain_conserves C n _ _ _ _ _ (flushed_passed C n ts) Hch6 (wf_shape C _ Hw5))
    as [P6 R6].
  cbn [fd fout] in P6, R6. unfold st2 in P6, R6. rewrite bulkGap_fout in P6, R6.
  assert (Ec : cached (settle st6) = cached (fd st6)).
  { unfold settle. destruct (0 <? fdropped st6); reflexivity. }
  assert (Ec5 : cached d5 = cached (place C p st2)).
  { unfold cached. destruct Hr5 as (-> & _). reflexivity. }
  assert (Hpl : inSlot v ++ cached (place C p st2) ≡ₚ p :: cached (fd st1)).
  { unfold cached, place. cbn [cache set_timestamp set_cache].
    rewrite <- (bulkGap_cache C st1). apply cached_put.
    apply (slot_lookup C _ _ _ Hv). }
  assert (Ec0 : cached (stamp d ts) = cached d).
  { unfold stamp. destruct (maxTimestamp d <? ts); reflexivity. }
  rewrite Ec0 in P1.
  exists (settle st6), (fout st6), (fdropped st6), v.
  split; [exact E|]. split; [exact Hvd|]. split; [|congruence].
  rewrite Ec, P6, Ec5.
  rewrite (Permutation_app_comm (delivered (fout st1))), app_assoc, Hpl.
  cbn [app]. rewrite <- Permutation_middle. apply perm_skip.
  rewrite <- P1. apply Permutation_app_comm.
Qed.

Lemma cacheLookup_exact d p :
  stable C d -> valid p ->
  (forall q, q ∈ cached d -> Seq (decoder q) <> Seq (decoder p)) ->
  exists d' out dr ex,
    cacheLookup C n d p = Some (d', out, dr, ex) /\
    delivered out ++ released out ++ cached d' ≡ₚ p :: cached d.
Proof.
  intros Hst Hv Hnew. pose proof Hv as [Hsq _]. pose proof (pow2_range C HC) as HR.
  pose proof (wf_shape C d (proj1 Hst)) as Hsh.
  destruct (call_cases d p) as [Hc|[Hc|Hc]].
  - rewrite (cacheLookup_stale C n d p Hc). eexists _, _, _, _. split; [reflexivity|].
    rewrite seeded_cached. reflexivity.
  - rewrite (cacheLookup_restart_insert C n HC d p Hsh Hc).
    destruct (insert_exact p (reseated C (Seq (decoder p)) d) [])
      as (d' & o & dr & v & E & Hvd & Hp & Hrel).
    + apply reseated_wf; assumption.
    + apply reseated_aligned; assumption.
    + assert (v = None) as ->.
      { destruct (Z.ltb_spec (u64 (Seq (decoder p) - seq (reseated C (Seq (decoder p)) d))) C);
          [|exact Hvd].
        rewrite reseated_slot in Hvd by (pose proof (u64_range (Seq (decoder p)
          - seq (reseated C (Seq (decoder p)) d))); lia). congruence. }
      rewrite E. cbn [mbind option_bind]. eexists _, _, _, _. split; [reflexivity|].
      rewrite delivered_app, delivered_releases, released_app, released_releases, Hrel.
      cbn [inSlot app released omap list_omap] in Hp |- *.
      rewrite reseated_cached in Hp. rewrite app_nil_r.
      rewrite (Permutation_app_comm (cached d)), app_assoc, Hp. reflexivity.
  - rewrite (cacheLookup_forward C n d p Hc).
    pose proof (seeded_wf C d _ Hst Hsq) as Hw0.
    pose proof (seeded_aligned C d p Hv Hc Hw0) as Ha0.
    destruct (insert_exact p _ [] Hw0 Ha0) as (d' & o & dr & v & E & Hvd & Hp & Hrel).
    assert (v = None) as ->.
    { set (off := u64 (Seq (decoder p) - seq (seeded d (Seq (decoder p))))) in *.
      destruct (Z.ltb_spec off C) as [Hlt|Hge]; [|exact Hvd].
      destruct v as [q|]; [exfalso|reflexivity].
      destruct Ha0 as (Ho & _ & Esq & _).
      destruct (wf_slots C _ Hw0 off q ltac:(lia) Hvd) as [_ Hq].
      apply (Hnew q); [|congruence].
      rewrite <- (seeded_cached d (Seq (decoder p))). apply slot_lookup in Hvd.
      apply list_elem_of_omap. exists (Some q). split; [|reflexivity].
      eapply list_elem_of_lookup_2. exact Hvd. }
    eexists _, _, _, _. split; [exact E|]. rewrite Hrel.
    cbn [inSlot app released omap list_omap] in Hp |- *.
    rewrite seeded_cached in Hp. exact Hp.
Qed.

(** A packet whose sequence number the window already holds takes the
    place of the packet held, which is neither delivered nor released. *)
Lemma cacheLookup_duplicate d p q k :
  stable C d -> valid p -> 0 <= k < C -> slot C d k = Some (Some q) ->
  Seq (decoder p) = Seq (decoder q) -> is_backward d p = false ->
  exists d' out dr,
    cacheLookup C n d p = Some (d', out, dr, 0) /\
    q :: delivered out ++ cached d' ≡ₚ p :: cached d /\
    released out = [].
Proof.
  intros Hst Hv Hk Hq Hsame Hc. pose proof Hv as [Hsq _]. pose proof (pow2_range C HC) as HR.
  pose proof (proj1 Hst) as Hw.
  assert (Hseed : seq d <> 0).
  { intros Hz. rewrite (stable_unseeded_empty C d k Hst Hz Hk) in Hq. discriminate. }
  assert (Ed0 : seeded d (Seq (decoder p)) = d).
  { unfold seeded. destruct (Z.eqb_spec (seq d) 0); [contradiction|reflexivity]. }
  rewrite (cacheLookup_forward C n d p Hc). rewrite Ed0.
  assert (Hfw : seq d <= Seq (decoder p)).
  { unfold is_backward in Hc. rewrite Ed0 in Hc. apply Z.ltb_ge in Hc. exact Hc. }
  destruct (wf_slots C d Hw k q Hk Hq) as [Hle Eq].
  pose proof (wf_seq C d Hw) as Hs.
  assert (Hk' : Seq (decoder p) = seq d + k).
  { rewrite Hsame, Eq. destruct (decide (seq d + k = 2 ^ 64)) as [Ew|Hne].
    - exfalso. rewrite Ew, u64_wrap in Eq. lia.
    - apply u64_small. lia. }
  assert (Eoff : u64 (Seq (decoder p) - seq d) = k).
  { rewrite Hk'. replace (seq d + k - seq d) with k by lia. apply u64_small. lia. }
  assert (Ha : aligned d (Seq (decoder p)) (u64 (Seq (decoder p) - seq d))).
  { pose proof (seeded_aligned C d p Hv Hc) as Ha. rewrite Ed0 in Ha. apply Ha. exact Hw. }
  destruct (insert_exact p d [] Hw Ha) as (d' & o & dr & v & E & Hvd & Hp & Hrel).
  rewrite Eoff in Hvd. destruct (Z.ltb_spec k C); [|lia].
  assert (v = Some q) as -> by congruence.
  eexists _, _, _. split; [exact E|]. split; [exact Hp|exact Hrel].
Qed.

End Exact.

(** * The stamping loop and the exit of the final flush *)

Section BackfillExact.
Variables (C n : Z).
Hypothesis HC : pow2 C.

Lemma stampAt_put d ts k j :
  shape C d -> 0 <= k < C -> 0 <= j < C ->
  stampAt C (set_timestamp d (<[Z.to_nat ((startIndex d + k) mod C) := ts]> (timestamp d))) j
  = if decide (j = k) then Some ts else stampAt C d j.
Proof.
  intros [Hc Ht Hs] Hk Hj. pose proof (pow2_range C HC) as HR.
  unfold stampAt. cbn [timestamp startIndex set_timestamp].
  pose proof (ring_range C (startIndex d + k) ltac:(lia)).
  pose proof (ring_range C (startIndex d + j) ltac:(lia)).
  case_decide as Hjk.
  - subst j. apply index_insert_eq. lia.
  - apply index_insert_ne; [lia|lia|].
    intros E. apply Hjk. symmetry. eapply ring_inj; [exact Hs|exact Hk|exact Hj|exact E].
Qed.

(** The loop stamps the run of empty slots that ends just before the slot
    of the packet, back to the head, and nothing else. *)
Lemma backfill_exact ts fuel : forall k d,
  shape C d -> 0 <= k < C -> k <= Z.of_nat fuel ->
  exists d', backfill C ts fuel ((startIndex d + k) mod C) d = Some d' /\
             restamped ts d d' /\
             forall j, 0 <= j < C ->
               (j < k -> (forall j', j <= j' < k -> slot C d j' = Some None) ->
                stampAt C d' j = Some ts) /\
               (k <= j \/ (exists j' q, j <= j' < k /\ slot C d j' = Some (Some q)) ->
                stampAt C d' j = stampAt C d j).
Proof.
  pose proof (pow2_range C HC) as HR.
  induction fuel as [|fuel IH]; intros k d Hsh Hk Hf; rewrite backfill_unfold.
  - assert (k = 0) as -> by lia. rewrite ring_head by apply Hsh.
    rewrite Z.eqb_refl. exists d. split; [reflexivity|]. split; [apply restamped_refl|].
    intros j Hj. split; [lia|reflexivity].
  - destruct (Z.eqb_spec ((startIndex d + k) mod C) (startIndex d)) as [He|Hne].
    { assert (k = 0) as ->.
      { eapply (ring_inj C (startIndex d)); [apply Hsh|exact Hk|lia|].
        rewrite He. symmetry. apply ring_head. apply Hsh. }
      exists d. split; [reflexivity|]. split; [apply restamped_refl|].
      intros j Hj. split; [lia|reflexivity]. }
    assert (Hk0 : k <> 0).
    { intros ->. apply Hne. apply ring_head. apply Hsh. }
    cbn zeta. rewrite mask_mod by assumption.
    rewrite Zminus_mod_idemp_l.
    replace (startIndex d + k - 1) with (startIndex d + (k - 1)) by lia.
    pose proof (ring_range C (startIndex d + (k - 1))) as Hrg.
    destruct (slot_defined C HC d (k - 1) Hsh) as [c Hc]. pose proof Hc as Hc'.
    unfold slot in Hc. rewrite Hc. cbn [mbind option_bind]. destruct c as [p|].
    { exists d. split; [reflexivity|]. split; [apply restamped_refl|].
      intros j Hj. split; [|reflexivity].
      intros Hlt Hall. rewrite (Hall (k - 1)) in Hc' by lia. discriminate. }
    rewrite (timestamp_put_ok C) by (assumption || lia). cbn [mbind option_bind].
    set (d1 := set_timestamp d _).
    assert (Hr1 : restamped ts d d1) by apply restamped_put.
    assert (Hsh1 : shape C d1) by (eapply restamped_shape; eassumption).
    destruct (IH (k - 1) d1) as (d' & E & Hr & Hex); [exact Hsh1|lia|lia|].
    exists d'. split; [exact E|]. split; [eapply restamped_trans; eassumption|].
    intros j Hj. destruct (Hex j Hj) as [H1 H2].
    pose proof (stampAt_put d ts (k - 1) j Hsh ltac:(lia) Hj) as Hput. fold d1 in Hput.
    split.
    + intros Hlt Hall. destruct (decide (j = k - 1)) as [->|Hjk].
      * rewrite H2 by (left; lia). exact Hput.
      * apply H1; [lia|]. intros j' Hj'.
        rewrite (restamped_slot C ts d d1 j' Hr1). apply Hall. lia.
    + intros [Hge|(j' & q & Hj' & Hq)].
      * rewrite H2 by (left; lia). rewrite Hput. case_decide; [lia|reflexivity].
      * assert (j' <> k - 1) by (intros ->; congruence).
        rewrite H2.
        -- rewrite Hput. case_decide; [lia|reflexivity].
        -- right. exists j', q. split; [lia|].
           rewrite (restamped_slot C ts d d1 j' Hr1). exact Hq.
Qed.

Lemma Forall_none_cached (l : list (option packetBuffer)) :
  Forall (fun v => v = None) l -> omap id l = [].
Proof. induction 1 as [|x l -> _ IH]; [reflexivity|exact IH]. Qed.

Lemma all_empty_cached d : shape C d -> tail_empty C d C -> cached d = [].
Proof.
  intros Hsh Ht. apply Forall_none_cached. apply Forall_lookup. intros i v Hi.
  pose proof (lookup_lt_Some _ _ _ Hi) as Hlt. destruct Hsh as [Hc Hts Hs].
  pose proof (all_empty_index C HC d (Z.of_nat i) (mkShape C d Hc Hts Hs) Ht ltac:(lia)) as Hn.
  unfold index in Hn. rewrite decide_True in Hn by lia. rewrite Nat2Z.id in Hn. congruence.
Qed.

Hypothesis Hn : 1 <= n.

(** Where the final flush stops. *)
Lemma insert_exit p d out :
  wf C d -> aligned d (Seq (decoder p)) (u64 (Seq (decoder p) - seq d)) ->
  exists d' out' dr,
    insert C n p d out = Some (d', out', dr, 0) /\
    (cached d' = [] \/
     exists t, index (timestamp d') (startIndex d') = Some t /\
               (t = 0 \/ i64 (Decoder.timestamp (decoder p) - t) <= TRIDENT_TIMEOUT)).
Proof.
  intros Hw Ha.
  destruct (insert_phases C n HC Hn p d out (wf_shape C d Hw))
    as (st1 & j1 & d5 & st6 & j6 & Hch1 & Hex1 & Hr5 & Hch6 & Hex6 & E).
  destruct (phases_wf C n HC p d out st1 j1 d5 st6 j6 Hw Ha Hch1 Hex1 Hr5 Hch6 Hex6)
    as (_ & _ & _ & _ & _ & Hw5 & Hw6 & _).
  cbn zeta in *. eexists _, _, _. split; [exact E|].
  assert (Ec : cached (settle st6) = cached (fd st6)).
  { unfold settle. destruct (0 <? fdropped st6); reflexivity. }
  assert (Et : timestamp (settle st6) = timestamp (fd st6) /\
               startIndex (settle st6) = startIndex (fd st6)).
  { unfold settle. destruct (0 <? fdropped st6); split; reflexivity. }
  destruct Et as [Et Es]. rewrite Ec, Et, Es.
  destruct Hex6 as [->|(_ & Hstop)]; [left|right; exact Hstop].
  apply all_empty_cached; [apply (wf_shape C _ Hw6)|].
  pose proof (chain_tail C n _ (flushed_passed C n _) _ _ _ _ 0 Hch6 (wf_shape C _ Hw5)
                (tail_empty_0 C _)) as Ht.
  replace (0 + (C - 0)) with C in Ht by lia. exact Ht.
Qed.

Lemma cacheLookup_exit d p :
  stable C d -> valid p -> is_stale d p = false ->
  exists d' out dr,
    cacheLookup C n d p = Some (d', out, dr, 0) /\
    (cached d' = [] \/
     exists t, index (timestamp d') (startIndex d') = Some t /\
               (t = 0 \/ i64 (Decoder.timestamp (decoder p) - t) <= TRIDENT_TIMEOUT)).
Proof.
  intros Hst Hv Hns. pose proof Hv as [Hsq _]. pose proof (pow2_range C HC) as HR.
  pose proof (wf_shape C d (proj1 Hst)) as Hsh.
  destruct (call_cases d p) as [Hc|[Hc|Hc]]; [congruence| |].
  - rewrite (cacheLookup_restart_insert C n HC d p Hsh Hc).
    destruct (insert_exit p (reseated C (Seq (decoder p)) d) [])
      as (d' & o & dr & E & Hex).
    + apply reseated_wf; assumption.
    + apply reseated_aligned; assumption.
    + rewrite E. cbn [mbind option_bind]. eexists _, _, _. split; [reflexivity|exact Hex].
  - rewrite (cacheLookup_forward C n d p Hc).
    pose proof (seeded_wf C d _ Hst Hsq) as Hw0.
    apply insert_exit; [exact Hw0|]. apply (seeded_aligned C); assumption.
Qed.

End BackfillExact.

(** The slave a packet goes to carries no bit outside [len(slaves) - 1]. *)
Lemma slaveOf_submask n p :
  1 <= n <= 2 ^ 8 -> Z.land (slaveOf n p) (n - 1) = slaveOf n p.
Proof.
  intros Hn. unfold slaveOf, u8. rewrite (Z.mod_small (n - 1)) by lia.
  rewrite <- Z.land_assoc, Z.land_diag. reflexivity.
Qed.

Section Overflow.
Variables (C n : Z).
Hypothesis HC : pow2 C.
Hypothesis Hn : 1 <= n.

Lemma chain_forced_bound i st j st' :
  chain (forced n C) i st j st' -> i <= C -> j <= C.
Proof.
  induction 1 as [i st|i st st1 j st' H1 H2 IH]; intros Hi; [exact Hi|].
  apply IH. destruct H1 as (Hi1 & _). lia.
Qed.

(** A packet two windows or more ahead of the head: the forced flush passes
    every slot, and what the window held goes downstream. *)
Lemma insert_overflow p d :
  wf C d -> valid p -> 1 <= seq d -> seq d + 2 * C - 1 <= Seq (decoder p) ->
  Seq (decoder p) + C < 2 ^ 64 ->
  exists d' out dr,
    insert C n p d [] = Some (d', out, dr, 0) /\
    (forall q, q ∈ cached d -> q ∈ delivered out) /\
    Seq (decoder p) - C < seq d'.
Proof.
  intros Hw Hv H1 Hfar Hb. pose proof (pow2_range C HC) as HR.
  pose proof (wf_seq C d Hw) as Hs. pose proof (wf_shape C d Hw) as Hsh.
  set (sq := Seq (decoder p)) in *. set (ts := Decoder.timestamp (decoder p)).
  assert (Ha : aligned d sq (u64 (sq - seq d))).
  { rewrite u64_small by lia. unfold aligned.
    replace (seq d + (sq - seq d)) with sq by lia. rewrite u64_small by lia.
    repeat split; try lia. }
  destruct (insert_phases C n HC Hn p d [] Hsh)
    as (st1 & j1 & d5 & st6 & j6 & Hch1 & Hex1 & Hr5 & Hch6 & Hex6 & E).
  destruct (phases_wf C n HC p d [] st1 j1 d5 st6 j6 Hw Ha Hch1 Hex1 Hr5 Hch6 Hex6)
    as (Hw1 & Ha1 & Hw2 & Ha2 & Ho2 & Hw5 & Hw6 & _).
  cbn zeta in *. fold sq ts in Hch1, Hr5, Hch6, Hex6, Ha1, Ha2.
  rewrite u64_small in Hch1 by lia.
  set (st0 := mkFrame (stamp d ts) 0 (sq - seq d) []) in *.
  assert (Hsh0 : shape C (fd st0)) by (apply stamp_shape; exact Hsh).
  destruct (chain_forced_offset C n HC _ _ _ _ Hch1) as [Eo1 Hj1]; [simpl; lia|].
  cbn [foffset st0] in Eo1, Hj1.
  pose proof (chain_forced_bound _ _ _ _ Hch1 ltac:(lia)) as Hj1C.
  assert (j1 = C) as -> by (destruct Hex1; [assumption|lia]).
  (* every slot has been passed *)
  pose proof (chain_tail C n _ (forced_passed C n) _ _ _ _ 0 Hch1 Hsh0 (tail_empty_0 C _))
    as Ht.
  replace (0 + (C - 0)) with C in Ht by lia.
  assert (Hc1 : cached (fd st1) = []) by (apply (all_empty_cached C HC); [apply Hw1|exact Ht]).
  destruct (chain_conserves C n _ _ _ _ _ (forced_passed C n) Hch1 Hsh0) as [P1 _].
  cbn [fd fout st0] in P1. rewrite Hc1, app_nil_r in P1.
  assert (Ec0 : cached (stamp d ts) = cached d).
  { unfold stamp. destruct (maxTimestamp d <? ts); reflexivity. }
  rewrite Ec0 in P1. cbn [delivered omap list_omap app] in P1.
  destruct (chain_fout_grows C n _ _ _ _ _ (flushed_passed C n ts) Hch6) as (l & El & _).
  cbn [fout] in El. rewrite bulkGap_fout in El.
  (* the head after the call *)
  assert (Hw0 : wf C (fd st0)).
  { eapply same_ring_wf; [apply stamp_same_ring|exact Hw]. }
  assert (Es0 : seq (fd st0) = seq d).
  { destruct (stamp_same_ring d ts) as (_ & _ & Es & _). exact Es. }
  destruct (chain_increasing C n HC _ _ _ _ _ (forced_passed C n) Hch1 Hw0)
    as (Es1 & _); [lia|].
  rewrite Es0 in Es1.
  destruct (bulkGap_seq C HC st1) as [_ Hso2]; [lia|lia|lia|].
  destruct Ha2 as (Ho2' & _).
  pose proof (chain_flushed_bound C n _ _ _ _ _ Hch6 ltac:(lia)) as Hj6.
  pose proof (chain_le _ _ _ _ _ Hch6) as Hj60.
  assert (Es5 : seq d5 = seq (fd (bulkGap C st1))).
  { destruct Hr5 as (_ & Es & _). exact Es. }
  destruct (chain_increasing C n HC _ _ _ _ _ (flushed_passed C n ts) Hch6 Hw5)
    as (Es6 & _); [cbn [fd]; lia|].
  cbn [fd] in Es6.
  assert (Esd : seq (settle st6) = seq (fd st6)).
  { destruct (settle_same_ring st6) as (_ & _ & Es & _). exact Es. }
  eexists _, _, _. split; [exact E|]. split.
  - intros q Hq. rewrite El, delivered_app. apply elem_of_app. left.
    rewrite P1. exact Hq.
  - rewrite Esd. lia.
Qed.

Lemma cacheLookup_overflow d p :
  stable C d -> valid p -> 1 <= seq d -> seq d + 2 * C - 1 <= Seq (decoder p) ->
  Seq (decoder p) + C < 2 ^ 64 ->
  exists d' out dr,
    cacheLookup C n d p = Some (d', out, dr, 0) /\
    (forall q, q ∈ cached d -> q ∈ delivered out) /\
    Seq (decoder p) - C < seq d'.
Proof.
  intros Hst Hv H1 Hfar Hb. pose proof (pow2_range C HC) as HR.
  assert (Ed0 : seeded d (Seq (decoder p)) = d).
  { unfold seeded. destruct (Z.eqb_spec (seq d) 0); [lia|reflexivity]. }
  assert (Hc : is_backward d p = false).
  { unfold is_backward. rewrite Ed0. apply Z.ltb_ge. lia. }
  rewrite (cacheLookup_forward C n d p Hc), Ed0.
  apply insert_overflow; [apply Hst|assumption..].
Qed.

End Overflow.

(** * [findAndAdd] window by window *)

Lemma instanceOf_ok a ip : adapter_ok a -> instance_ok (cacheSize a) (instanceOf a ip).
Proof.
  intros (HC & _ & _ & Hall). unfold instanceOf.
  destruct (instances a !! ip) as [inst|] eqn:E; simpl.
  - apply (map_Forall_lookup_1 _ _ _ _ Hall E).
  - split; [reflexivity|]. apply Forall_replicate. left. reflexivity.
Qed.

Lemma prepared_ok C d :
  pow2 C -> window_ok C d -> stable C (prepared C d) /\ dropped (prepared C d) = dropped d.
Proof.
  intros HC Hw. destruct (prepared_window C d HC Hw) as (d0 & E & Hst & _).
  unfold prepared. rewrite E. split; [exact Hst|]. rewrite <- E.
  destruct (cache d); reflexivity.
Qed.

(** [findAndAdd] on a packet that can be routed: one call of [cacheLookup]
    on the window of the packet, whose results go to the counters. *)
Lemma findAndAdd_spec a p :
  adapter_ok a -> routable p ->
  let ix := Z.to_nat (tridentDispatcherIndex (decoder p)) in
  let inst := instanceOf a (tridentIp p) in
  exists d d' out dr ex,
    inst !! ix = Some d /\
    cacheLookup (cacheSize a) (slaves a) (prepared (cacheSize a) d) p
      = Some (d', out, dr, ex) /\
    findAndAdd a p
      = Some (mkAdapter (count (counter a) dr ex) (count (stats a) dr ex) (cacheSize a)
                        (<[tridentIp p := <[ix := d']> inst]> (instances a)) (slaves a),
              out).
Proof.
  intros Hok [Hv Hix] ix inst. pose proof Hok as (HC & Hn & _ & _).
  unfold TRIDENT_DISPATCHER_MAX in Hix.
  destruct (instanceOf_ok a (tridentIp p) Hok) as [Hlen Hwin]. fold inst in Hlen, Hwin.
  assert (Hlen' : length inst = 16%nat) by (rewrite Hlen; reflexivity).
  assert (Hlt : (ix < length inst)%nat) by (unfold ix; lia).
  destruct (lookup_lt_is_Some_2 inst ix Hlt) as [d Hd].
  assert (Hwd : window_ok (cacheSize a) d) by (eapply Forall_lookup_1; eassumption).
  destruct (prepared_ok _ d HC Hwd) as [Hst0 _].
  destruct (cacheLookup_stable _ _ HC Hn _ p Hst0 Hv) as (d' & out & dr & ex & E & _).
  exists d, d', out, dr, ex. split; [exact Hd|]. split; [exact E|].
  assert (Hix' : 0 <= tridentDispatcherIndex (decoder p) < Z.of_nat (length inst)) by lia.
  assert (Hdi : index inst (tridentDispatcherIndex (decoder p)) = Some d).
  { unfold index. rewrite decide_True by lia. exact Hd. }
  unfold findAndAdd. unfold inst, instanceOf in Hd, Hlen', Hix', Hdi |- *.
  destruct (instances a !! tridentIp p) as [i0|] eqn:El; cbn [default from_option id] in *.
  - cbn [mbind option_bind]. rewrite Hdi. cbn [mbind option_bind].
    fold (prepared (cacheSize a) d). rewrite E. cbn [mbind option_bind].
    rewrite store_in_range by exact Hix'. reflexivity.
  - rewrite Hdi. cbn [mbind option_bind]. rewrite store_in_range by exact Hix'.
    cbn [mbind option_bind]. rewrite index_insert_eq by exact Hix'.
    cbn [mbind option_bind].
    assert (d = zeroDispatcher) as ->.
    { apply lookup_replicate_1 in Hd. apply Hd. }
    assert (Ep : match cache (allocate (cacheSize a) zeroDispatcher) with
                 | [] => allocate (cacheSize a) (allocate (cacheSize a) zeroDispatcher)
                 | _ => allocate (cacheSize a) zeroDispatcher
                 end = prepared (cacheSize a) zeroDispatcher).
    { unfold prepared. cbn [zeroDispatcher cache]. pose proof (pow2_range _ HC).
      unfold allocate at 1. cbn [cache set_timestamp set_cache]. unfold make.
      destruct (Z.to_nat (cacheSize a)) eqn:En; [lia|reflexivity]. }
    rewrite Ep, E. cbn [mbind option_bind].
    rewrite store_in_range by (rewrite length_insert; exact Hix').
    cbn [mbind option_bind]. fold ix. rewrite list_insert_insert_eq. reflexivity.
Qed.

Lemma findAndAdd_ok a p a' out :
  adapter_ok a -> routable p -> findAndAdd a p = Some (a', out) -> adapter_ok a'.
Proof.
  intros Hok Hr E. pose proof Hok as (HC & Hn & Hstats & Hall).
  destruct (findAndAdd_spec a p Hok Hr) as (d & d' & o & dr & ex & Hd & Ec & E').
  cbn zeta in *. rewrite E in E'. injection E' as -> ->.
  destruct (instanceOf_ok a (tridentIp p) Hok) as [Hlen Hwin].
  assert (Hwd : window_ok (cacheSize a) d) by (eapply Forall_lookup_1; eassumption).
  destruct (prepared_ok _ d HC Hwd) as [Hst0 _].
  destruct Hr as [Hv _].
  destruct (cacheLookup_stable _ _ HC Hn _ p Hst0 Hv) as (d1 & o1 & dr1 & ex1 & E1 & Hst1).
  rewrite Ec in E1. injection E1 as <- <- <- <-.
  split; [exact HC|]. split; [exact Hn|]. split; [cbn; rewrite Hstats; reflexivity|].
  cbn [instances cacheSize]. apply map_Forall_insert_2; [|exact Hall].
  split; [rewrite length_insert; exact Hlen|].
  apply Forall_insert; [exact Hwin|]. right. exact Hst1.
Qed.

(** A dispatcher index outside the array of an instance is a run-time
    panic. *)
Lemma findAndAdd_out_of_range a p :
  adapter_ok a ->
  ~ (0 <= tridentDispatcherIndex (decoder p) < TRIDENT_DISPATCHER_MAX) ->
  findAndAdd a p = None.
Proof.
  intros Hok Hix. unfold TRIDENT_DISPATCHER_MAX in Hix.
  destruct (instanceOf_ok a (tridentIp p) Hok) as [Hlen _].
  assert (Hnone : forall inst : list tridentDispatcher,
             length inst = 16%nat -> index inst (tridentDispatcherIndex (decoder p)) = None).
  { intros inst Hl. unfold index. case_decide; [|reflexivity].
    apply lookup_ge_None_2. rewrite Hl. lia. }
  unfold findAndAdd. unfold instanceOf in Hlen.
  destruct (instances a !! tridentIp p) as [i0|]; cbn [default from_option id] in Hlen.
  - cbn [mbind option_bind]. rewrite (Hnone i0 Hlen). reflexivity.
  - rewrite (Hnone zeroInstance eq_refl). reflexivity.
Qed.

(** ** The sum of the drop counters *)

Lemma foldr_add_insert (l : list Z) i x y :
  l !! i = Some x -> foldr Z.add 0 (<[i := y]> l) = foldr Z.add 0 l - x + y.
Proof.
  revert i. induction l as [|a l IH]; intros [|i] H; try discriminate; simpl in *.
  - injection H as ->. lia.
  - specialize (IH i H). lia.
Qed.

Lemma instDropped_insert (inst : list tridentDispatcher) i d d' :
  inst !! i = Some d ->
  instDropped (<[i := d']> inst) = instDropped inst - dropped d + dropped d'.
Proof.
  intros H. unfold instDropped. rewrite list_fmap_insert.
  apply foldr_add_insert. rewrite list_lookup_fmap, H. reflexivity.
Qed.

Lemma droppedIn_insert_new (m : gmap Z (list tridentDispatcher)) ip inst :
  m !! ip = None -> droppedIn (<[ip := inst]> m) = instDropped inst + droppedIn m.
Proof.
  intros H. unfold droppedIn.
  rewrite (map_fold_insert_L (fun _ i acc => instDropped i + acc) 0 ip inst m);
    [reflexivity| |exact H].
  intros. lia.
Qed.

Lemma droppedIn_insert (m : gmap Z (list tridentDispatcher)) ip inst :
  droppedIn (<[ip := inst]> m)
  = droppedIn m - from_option instDropped 0 (m !! ip) + instDropped inst.
Proof.
  destruct (m !! ip) as [old|] eqn:E; simpl.
  - rewrite <- (insert_delete_eq m), droppedIn_insert_new by apply lookup_delete_eq.
    rewrite <- (insert_delete_id m ip old E) at 2.
    rewrite droppedIn_insert_new by apply lookup_delete_eq. lia.
  - rewrite droppedIn_insert_new by exact E. lia.
Qed.

Lemma u64_shift a b : u64 (a + u64 b) = u64 (a + b).
Proof. unfold u64. apply Zplus_mod_idemp_r. Qed.

Lemma findAndAdd_lost a p a' out :
  adapter_ok a -> routable p -> findAndAdd a p = Some (a', out) ->
  lost_ok a -> lost_ok a'.
Proof.
  intros Hok Hr E Hl. pose proof Hok as (HC & Hn & Hstats & Hall).
  destruct (findAndAdd_spec a p Hok Hr) as (d & d' & o & dr & ex & Hd & Ec & E').
  cbn zeta in *. rewrite E in E'. injection E' as -> ->.
  destruct (instanceOf_ok a (tridentIp p) Hok) as [Hlen Hwin].
  assert (Hwd : window_ok (cacheSize a) d) by (eapply Forall_lookup_1; eassumption).
  destruct (prepared_ok _ d HC Hwd) as [Hst0 Edp].
  destruct (cacheLookup_dropped _ _ HC Hn _ p (wf_shape _ _ (proj1 Hst0)))
    as (d1 & o1 & dr1 & ex1 & E1 & H0 & Edr).
  rewrite Ec in E1. injection E1 as <- <- <- <-. rewrite Edp in Edr.
  unfold lost_ok in *. cbn [counter count RxDropped instances].
  rewrite droppedIn_insert, (instDropped_insert _ _ d d' Hd).
  assert (Ef : from_option instDropped 0 (instances a !! tridentIp p)
               = instDropped (instanceOf a (tridentIp p))).
  { unfold instanceOf. destruct (instances a !! tridentIp p); reflexivity. }
  rewrite Ef, Hl, u64_add_l.
  set (S := droppedIn (instances a)). set (I := instDropped _).
  replace (S - I + (I - dropped d + dropped d')) with (S - dropped d + dropped d') by lia.
  destruct (Z.ltb_spec 0 dr) as [Hpos|Hz].
  - rewrite Edr, u64_shift. f_equal. lia.
  - assert (dr = 0) as -> by lia. rewrite Edr. f_equal. lia.
Qed.

Lemma receive_ok a invalid p a' out :
  adapter_ok a -> (invalid = false -> routable p) ->
  receive a invalid p = Some (a', out) -> adapter_ok a'.
Proof.
  intros Hok Hr E. unfold receive in E. destruct invalid.
  - injection E as <- <-. destruct Hok as (HC & Hn & Hstats & Hall).
    split; [exact HC|]. split; [exact Hn|]. split; [cbn; rewrite Hstats; reflexivity|].
    exact Hall.
  - eapply findAndAdd_ok; [exact Hok| |exact E].
    destruct (Hr eq_refl) as [Hv Hix]. split; assumption.
Qed.

Lemma rejected_cons inv p batch :
  rejected ((inv, p) :: batch) = (if inv then [p] else []) ++ rejected batch.
Proof.
  unfold rejected. destruct inv.
  - rewrite filter_cons_True by reflexivity. reflexivity.
  - rewrite filter_cons_False by (simpl; discriminate). reflexivity.
Qed.

Lemma findAndAdd_total a p :
  adapter_ok a -> routable p -> exists a' out, findAndAdd a p = Some (a', out).
Proof.
  intros Hok Hr.
  destruct (findAndAdd_spec a p Hok Hr) as (d & d' & o & dr & ex & _ & _ & E).
  eexists _, _. exact E.
Qed.

Lemma findAndAdd_keeps a p a' out :
  adapter_ok a -> routable p -> findAndAdd a p = Some (a', out) ->
  cacheSize a' = cacheSize a /\ slaves a' = slaves a /\
  RxErrors (counter a') = RxErrors (counter a).
Proof.
  intros Hok Hr E.
  destruct (findAndAdd_spec a p Hok Hr) as (d & d' & o & dr & ex & _ & _ & E').
  cbn zeta in *. rewrite E in E'. injection E' as -> ->. auto.
Qed.

(** One datagram of a batch. *)
Lemma receive_counts a invalid p e :
  adapter_ok a -> (invalid = false -> routable p) ->
  RxErrors (counter a) = u64 e ->
  exists a' out,
    receive a invalid p = Some (a', out) /\ adapter_ok a' /\
    cacheSize a' = cacheSize a /\ slaves a' = slaves a /\
    RxErrors (counter a') = u64 (e + (if invalid then 1 else 0)) /\
    (invalid = true -> out = [Release p]) /\
    (lost_ok a -> lost_ok a').
Proof.
  intros Hok Hr He. destruct invalid.
  - eexists _, _. split; [reflexivity|]. split.
    { eapply receive_ok; [exact Hok|exact Hr|reflexivity]. }
    split; [reflexivity|]. split; [reflexivity|]. split.
    { cbn [counter RxErrors]. rewrite He. apply u64_add_l. }
    split; [reflexivity|]. intros Hl. exact Hl.
  - specialize (Hr eq_refl).
    set (q := mkPacket (buffer p) (tridentIp p) (decoder p) (calcHash p)).
    assert (Hq : routable q) by exact Hr.
    destruct (findAndAdd_total a q Hok Hq) as (a' & out & E).
    destruct (findAndAdd_keeps a q a' out Hok Hq E) as (Hc & Hs & Herr).
    exists a', out. split; [exact E|]. split; [eapply findAndAdd_ok; eassumption|].
    split; [exact Hc|]. split; [exact Hs|]. split.
    { rewrite Herr, He, Z.add_0_r. reflexivity. }
    split; [discriminate|]. eapply findAndAdd_lost; eassumption.
Qed.

(** What the receive loop does to the counters over a batch. *)
Lemma receiveAll_counts batch : forall a e,
  adapter_ok a ->
  Forall (fun x => fst x = false -> routable (snd x)) batch ->
  RxErrors (counter a) = u64 e ->
  exists a' out,
    receiveAll a batch = Some (a', out) /\ adapter_ok a' /\
    cacheSize a' = cacheSize a /\ slaves a' = slaves a /\
    RxErrors (counter a') = u64 (e + Z.of_nat (length (rejected batch))) /\
    (forall q, q ∈ rejected batch -> q ∈ released out) /\
    (lost_ok a -> lost_ok a').
Proof.
  induction batch as [|[inv p] batch IH]; intros a e Hok Hall He.
  - eexists _, _. split; [reflexivity|]. split; [exact Hok|].
    split; [reflexivity|]. split; [reflexivity|]. split.
    { simpl. rewrite Z.add_0_r. exact He. }
    split; [|auto]. intros q Hq. apply elem_of_nil in Hq. contradiction.
  - apply Forall_cons in Hall as [Hp Hall].
    destruct (receive_counts a inv p e Hok Hp He)
      as (a1 & o1 & E1 & Hok1 & Hc1 & Hs1 & He1 & Ho1 & Hl1).
    destruct (IH a1 _ Hok1 Hall He1) as (a2 & o2 & E2 & Hok2 & Hc2 & Hs2 & He2 & Ho2 & Hl2).
    cbn [receiveAll]. rewrite E1. cbn [mbind option_bind]. rewrite E2.
    cbn [mbind option_bind].
    eexists _, _. split; [reflexivity|]. split; [exact Hok2|].
    split; [congruence|]. split; [congruence|]. split; [|split].
    + rewrite He2, rejected_cons, length_app. f_equal. destruct inv; simpl length; lia.
    + intros q Hq. rewrite rejected_cons in Hq. rewrite released_app.
      apply elem_of_app in Hq as [Hq|Hq]; apply elem_of_app.
      * left. destruct inv; [|apply elem_of_nil in Hq; contradiction].
        rewrite (Ho1 eq_refl). apply list_elem_of_singleton in Hq as ->.
        simpl. apply list_elem_of_singleton. reflexivity.
      * right. apply Ho2. exact Hq.
    + auto.
Qed.

Lemma new_adapter_lost nq size : lost_ok (NewTridentAdapter nq size).
Proof. unfold lost_ok, droppedIn. simpl. rewrite map_fold_empty. reflexivity. Qed.

(** * Facts about the concrete inputs *)

Lemma shape_holding_1002 : shape 4 holding_1002.
Proof. split; [reflexivity|reflexivity|simpl; lia]. Qed.

Lemma stable_holding_1002 : stable 4 holding_1002.
Proof.
  apply (call_count 4 1 after_1000 (pkt 1002 11) holding_1002 [] 0 0).
  - exact pow2_4.
  - lia.
  - exact stable_after_1000.
  - apply valid_pkt; lia.
  - reflexivity.
Qed.

Lemma routable_pkt s t : 0 <= s < 2 ^ 64 -> - 2 ^ 63 <= t < 2 ^ 63 -> routable (pkt s t).
Proof.
  intros Hs Ht. split; [apply valid_pkt; assumption|].
  unfold TRIDENT_DISPATCHER_MAX. simpl. lia.
Qed.

(** The adapter's bookkeeping after one datagram. *)
Lemma findAndAdd_frame a p :
  adapter_ok a -> routable p ->
  exists a' out,
    findAndAdd a p = Some (a', out) /\
    cacheSize a' = cacheSize a /\ slaves a' = slaves a /\
    RxPackets (counter a') = u64 (RxPackets (counter a) + 1) /\
    RxErrors (counter a') = RxErrors (counter a) /\
    (forall ip, ip <> tridentIp p -> instances a' !! ip = instances a !! ip) /\
    (forall j, j <> Z.to_nat (tridentDispatcherIndex (decoder p)) ->
       instanceOf a' (tridentIp p) !! j = instanceOf a (tridentIp p) !! j) /\
    (forall ip, is_Some (instances a !! ip) -> is_Some (instances a' !! ip)).
Proof.
  intros Hok Hr.
  destruct (findAndAdd_spec a p Hok Hr) as (d & d' & o & dr & ex & Hd & Ec & E).
  cbn zeta in E. eexists _, _. split; [exact E|].
  split; [reflexivity|]. split; [reflexivity|]. split; [reflexivity|].
  split; [reflexivity|]. cbn [instances]. split; [|split].
  - intros ip Hne. apply lookup_insert_ne. congruence.
  - intros j Hj. unfold instanceOf at 1. cbn [instances].
    rewrite lookup_insert_eq. cbn [default from_option id].
    apply list_lookup_insert_ne. congruence.
  - intros ip Hs. apply lookup_insert_is_Some.
    destruct (decide (tridentIp p = ip)); [left; assumption|right; split; assumption].
Qed.

(** The first datagram of a sender. *)
Lemma receive_first a p :
  adapter_ok a -> routable p -> instances a !! tridentIp p = None ->
  1 <= Seq (decoder p) -> Seq (decoder p) + cacheSize a < 2 ^ 64 ->
  let q := mkPacket (buffer p) (tridentIp p) (decoder p) (calcHash p) in
  exists a',
    receive a false p = Some (a', [Put (slaveOf (slaves a) q) q]) /\
    RxPackets (counter a') = u64 (RxPackets (counter a) + 1) /\
    RxDropped (counter a') = u64 (RxDropped (counter a)) /\
    RxExpired (counter a') = u64 (RxExpired (counter a)) /\
    is_Some (instances a' !! tridentIp p).
Proof.
  intros Hok Hr Hnew H1 Hb q. pose proof Hok as (HC & Hn & _ & _).
  assert (Hq : routable q) by exact Hr.
  destruct (findAndAdd_spec a q Hok Hq) as (d & d' & o & dr & ex & Hd & Ec & E).
  cbn zeta in *.
  assert (Ei : instanceOf a (tridentIp q) = zeroInstance).
  { unfold instanceOf. change (tridentIp q) with (tridentIp p). rewrite Hnew. reflexivity. }
  rewrite Ei in Hd, E.
  assert (d = zeroDispatcher) as ->.
  { apply lookup_replicate_1 in Hd. apply Hd. }
  change (prepared (cacheSize a) zeroDispatcher) with (freshDispatcher (cacheSize a)) in Ec.
  destruct Hr as [Hv _].
  destruct (cacheLookup_first (cacheSize a) (slaves a) HC Hn q Hv H1 Hb)
    as (d1 & E1 & _).
  rewrite Ec in E1. injection E1 as -> -> -> ->.
  change (receive a false p) with (findAndAdd a q). rewrite E. eexists. split; [reflexivity|].
  cbn [counter count RxPackets RxDropped RxExpired instances].
  rewrite !Z.add_0_r. split; [reflexivity|]. split; [reflexivity|].
  split; [reflexivity|]. rewrite lookup_insert_eq. eexists. reflexivity.
Qed.

(** * Further properties of the code *)

(** X1. For a request of at most [2^30], [minPowerOfTwo] returns the least
    power of two that is not below the request. *)
Theorem minPowerOfTwo_least (v : Z) :
  v <= 2 ^ 30 ->
  exists k, 0 <= k <= 30 /\ minPowerOfTwo v = 2 ^ k /\ v <= 2 ^ k /\
            (0 < k -> 2 ^ (k - 1) < v).
Proof.
  intros Hv. apply minPowerOfTwo_from_least; try reflexivity; lia.
Qed.

Lemma minPowerOfTwo_least_witness :
  exists k, 0 <= k <= 30 /\ minPowerOfTwo 1000 = 2 ^ k /\ 1000 <= 2 ^ k /\
            (0 < k -> 2 ^ (k - 1) < 1000).
Proof. apply (minPowerOfTwo_least 1000). lia. Defined.

(** X2. Above [2^30] the loop of [minPowerOfTwo] runs out and the result is
    [2^30]: the cache is then smaller than requested. *)
Theorem minPowerOfTwo_capped (v : Z) :
  2 ^ 30 < v -> minPowerOfTwo v = 2 ^ 30 /\ minPowerOfTwo v < v.
Proof.
  intros Hv. unfold minPowerOfTwo.
  rewrite (minPowerOfTwo_from_cap 30 0 v); [|lia|reflexivity|exact Hv].
  split; [reflexivity|exact Hv].
Qed.

Lemma minPowerOfTwo_capped_witness :
  minPowerOfTwo (2 ^ 31) = 2 ^ 30 /\ minPowerOfTwo (2 ^ 31) < 2 ^ 31.
Proof. apply (minPowerOfTwo_capped (2 ^ 31)). lia. Defined.

(** X3. The value [calcHash] stores in [hash] fits a [uint8], whatever the
    sender address and the dispatcher index: the shifts and exclusive ors of
    its second statement never leave eight bits. *)
Theorem calcHash_fits_uint8 (p : packetBuffer) : 0 <= calcHash p < 2 ^ 8.
Proof.
  unfold calcHash. cbn zeta.
  set (h := Z.lxor (tridentIp p) _).
  set (h8 := Z.lxor (Z.lxor (Z.lxor (u8 (Z.shiftr h 24)) (u8 (Z.shiftr h 16)))
                            (u8 (Z.shiftr h 8))) (u8 h)).
  assert (H8 : 0 <= h8 < 2 ^ 8).
  { unfold h8. repeat apply lxor_bound; try lia; apply u8_range. }
  clearbody h8. clear h.
  repeat apply lxor_bound; try lia; try apply shiftr_bound; try lia; exact H8.
Qed.

(** X4. Handing a packet to a slave ([slaves[p.hash&uint8(len(slaves)-1)]])
    succeeds exactly when there is at least one slave; the index is then in
    range.  With no slave the mask is 255 and the index is out of range. *)
Theorem put_panics_without_slaves (n : Z) (p : packetBuffer) (out : list event) :
  put n p out =
    (if decide (1 <= n) then Some (out ++ [Put (slaveOf n p) p]) else None) /\
  (1 <= n -> 0 <= slaveOf n p < n).
Proof.
  split; [|apply slaveOf_range].
  case_decide as Hn; [apply put_ok; exact Hn|].
  unfold put. fold (slaveOf n p).
  assert (0 <= slaveOf n p).
  { unfold slaveOf. apply land_le_r. unfold u8. apply Z.mod_pos_bound. lia. }
  rewrite decide_False by lia. reflexivity.
Qed.

(** X5. When the number of slaves is a power of two (at most 256), the
    slave of a packet is its hash modulo the number of slaves. *)
Theorem slave_is_hash_mod (n : Z) (p : packetBuffer) :
  (exists k, 0 <= k <= 8 /\ n = 2 ^ k) -> 0 <= hash p ->
  slaveOf n p = hash p mod n.
Proof.
  intros (k & Hk & ->) Hh. unfold slaveOf, u8.
  assert (0 < 2 ^ k <= 2 ^ 8).
  { split; [apply Z.pow_pos_nonneg; lia|apply Z.pow_le_mono_r; lia]. }
  rewrite (Z.mod_small (2 ^ k - 1)) by lia.
  replace (2 ^ k - 1) with (Z.ones k) by (rewrite Z.ones_equiv; lia).
  apply Z.land_ones. lia.
Qed.

Lemma slave_is_hash_mod_witness : slaveOf 4 (hashed 7) = hash (hashed 7) mod 4.
Proof.
  apply (slave_is_hash_mod 4 (hashed 7)).
  - exists 2. split; [lia|reflexivity].
  - simpl. lia.
Defined.

(** X6. The index of the slave has no bit outside [len(slaves) - 1]: when
    the number of slaves is not a power of two, a slave whose index has such
    a bit never receives a packet. *)
Theorem slave_within_mask (n : Z) (p : packetBuffer) (k : Z) :
  1 <= n <= 2 ^ 8 -> Z.land k (n - 1) <> k -> slaveOf n p <> k.
Proof.
  intros Hn Hk E. apply Hk. rewrite <- E. unfold slaveOf, u8.
  rewrite (Z.mod_small (n - 1)) by lia.
  rewrite <- Z.land_assoc, Z.land_diag. reflexivity.
Qed.

Lemma slave_within_mask_witness : slaveOf 3 (hashed 7) <> 1.
Proof. apply (slave_within_mask 3 (hashed 7) 1); [lia|vm_compute; discriminate]. Defined.

(** X7. [dispatcher.dropped] grows, in [uint64], by the first result of the
    call, and is left alone when that result is zero; the result is never
    negative. *)
Theorem window_dropped_accumulates (C n : Z) (d : tridentDispatcher) (p : packetBuffer) :
  pow2 C -> 1 <= n -> shape C d ->
  exists d' out dr ex,
    cacheLookup C n d p = Some (d', out, dr, ex) /\ 0 <= dr /\
    dropped d' = (if 0 <? dr then u64 (dropped d + dr) else dropped d).
Proof. intros HC Hn Hsh. apply cacheLookup_dropped; assumption. Qed.

Lemma window_dropped_accumulates_witness :
  exists d' out dr ex,
    cacheLookup 4 1 after_1000 (pkt 1010 11) = Some (d', out, dr, ex) /\ 0 <= dr /\
    dropped d' = (if 0 <? dr then u64 (dropped after_1000 + dr) else dropped after_1000).
Proof.
  apply (window_dropped_accumulates 4 1 after_1000 (pkt 1010 11)).
  - exact pow2_4.
  - lia.
  - split; [reflexivity|reflexivity|simpl; lia].
Defined.

(** X8. The restart branch releases the packets the window holds, in the
    order of their slots, clears every slot and every timestamp, and sets
    the head to sequence [seq - cacheSize] (to 1 when [seq] does not exceed
    the cache size) at index 0; [maxTimestamp] and [dropped] are kept. *)
Theorem restart_branch_reseats (C sq : Z) (d : tridentDispatcher) (out : list event) :
  pow2 C -> shape C d ->
  exists d',
    restart C sq d out = Some (d', out ++ (Release <$> cached d)) /\
    cache d' = make C None /\ timestamp d' = make C 0 /\
    seq d' = (if C <? sq then u64 (sq - C) else 1) /\ startIndex d' = 0 /\
    maxTimestamp d' = maxTimestamp d /\ dropped d' = dropped d.
Proof.
  intros HC Hsh. pose proof (pow2_range C HC).
  exists (reseated C sq d). split; [apply restart_spec; [lia|exact Hsh]|].
  unfold reseated. cbn. destruct (C <? sq); auto 10.
Qed.

Lemma restart_branch_reseats_witness :
  exists d',
    restart 4 5 holding_1002 [] = Some (d', [] ++ (Release <$> cached holding_1002)) /\
    cache d' = make 4 None /\ timestamp d' = make 4 0 /\
    seq d' = (if 4 <? 5 then u64 (5 - 4) else 1) /\ startIndex d' = 0 /\
    maxTimestamp d' = maxTimestamp holding_1002 /\ dropped d' = dropped holding_1002.
Proof.
  apply (restart_branch_reseats 4 5 holding_1002 []).
  - exact pow2_4.
  - split; [reflexivity|reflexivity|simpl; lia].
Defined.

(** X9. The loop that stamps missing slots ends within [cacheSize]
    iterations wherever the packet lies in the ring.  It leaves the cache,
    the head and the counters alone and writes the timestamp of the packet
    to exactly the run of empty slots that ends just before the slot of the
    packet (back to the head at most); every other timestamp is kept. *)
Theorem backfill_stamps_missing_run (C ts : Z) (d : tridentDispatcher) (k : Z) :
  pow2 C -> shape C d -> 0 <= k < C ->
  exists d',
    backfill C ts (Z.to_nat C) ((startIndex d + k) mod C) d = Some d' /\
    cache d' = cache d /\ seq d' = seq d /\ startIndex d' = startIndex d /\
    maxTimestamp d' = maxTimestamp d /\ dropped d' = dropped d /\
    forall j, 0 <= j < C ->
      (j < k -> (forall j', j <= j' < k -> slot C d j' = Some None) ->
       stampAt C d' j = Some ts) /\
      (k <= j \/ (exists j' q, j <= j' < k /\ slot C d j' = Some (Some q)) ->
       stampAt C d' j = stampAt C d j).
Proof.
  intros HC Hsh Hk.
  destruct (backfill_exact C HC ts (Z.to_nat C) k d Hsh Hk ltac:(lia))
    as (d' & E & (Ec & Es & Ei & Em & Ed & _) & Hex).
  exists d'. auto 10.
Qed.

Lemma backfill_stamps_missing_run_witness :
  exists d',
    backfill 4 12 (Z.to_nat 4) ((startIndex holding_1002 + 3) mod 4) holding_1002 = Some d' /\
    cache d' = cache holding_1002 /\ seq d' = seq holding_1002 /\
    startIndex d' = startIndex holding_1002 /\
    maxTimestamp d' = maxTimestamp holding_1002 /\ dropped d' = dropped holding_1002 /\
    forall j, 0 <= j < 4 ->
      (j < 3 -> (forall j', j <= j' < 3 -> slot 4 holding_1002 j' = Some None) ->
       stampAt 4 d' j = Some 12) /\
      (3 <= j \/ (exists j' q, j <= j' < 3 /\ slot 4 holding_1002 j' = Some (Some q)) ->
       stampAt 4 d' j = stampAt 4 holding_1002 j).
Proof.
  apply (backfill_stamps_missing_run 4 12 holding_1002 3).
  - exact pow2_4.
  - split; [reflexivity|reflexivity|simpl; lia].
  - lia.
Defined.

(** X10. In a call that is not a stale reorder, away from the end of the
    sequence space, the head of the window moves by exactly the number of
    packets handed downstream plus the number counted as dropped: every
    sequence number the head passes is delivered or counted. *)
Theorem head_advance_accounted (C n : Z) (d : tridentDispatcher) (p : packetBuffer) :
  pow2 C -> 1 <= n -> stable C d -> valid p ->
  1 <= Seq (decoder p) -> Seq (decoder p) + C < 2 ^ 64 -> is_stale d p = false ->
  exists d' out dr,
    cacheLookup C n d p = Some (d', out, dr, 0) /\ 0 <= dr /\
    seq d' = insertHead C d p + Z.of_nat (length (delivered out)) + dr.
Proof. intros HC Hn. apply cacheLookup_account; assumption. Qed.

Lemma head_advance_accounted_witness :
  exists d' out dr,
    cacheLookup 4 1 holding_1002 (pkt 1010 12) = Some (d', out, dr, 0) /\ 0 <= dr /\
    seq d' = insertHead 4 holding_1002 (pkt 1010 12)
             + Z.of_nat (length (delivered out)) + dr.
Proof.
  apply (head_advance_accounted 4 1 holding_1002 (pkt 1010 12)).
  - exact pow2_4.
  - lia.
  - exact stable_holding_1002.
  - apply valid_pkt; lia.
  - simpl. lia.
  - simpl. lia.
  - reflexivity.
Defined.

(** X11. The packet of a call that is not a stale reorder is, when the call
    returns, handed downstream or held by the window. *)
Theorem accepted_packet_delivered_or_held (C n : Z) (d : tridentDispatcher)
    (p : packetBuffer) :
  pow2 C -> 1 <= n -> stable C d -> valid p -> is_stale d p = false ->
  exists d' out dr,
    cacheLookup C n d p = Some (d', out, dr, 0) /\
    p ∈ delivered out ++ cached d'.
Proof. intros HC Hn. apply cacheLookup_keeps; assumption. Qed.

Lemma accepted_packet_delivered_or_held_witness :
  exists d' out dr,
    cacheLookup 4 1 after_1000 (pkt 1002 11) = Some (d', out, dr, 0) /\
    pkt 1002 11 ∈ delivered out ++ cached d'.
Proof.
  apply (accepted_packet_delivered_or_held 4 1 after_1000 (pkt 1002 11)).
  - exact pow2_4.
  - lia.
  - exact stable_after_1000.
  - apply valid_pkt; lia.
  - reflexivity.
Defined.

(** X12. A packet that carries the sequence number of the head (or that is
    the first a window sees) is the first event of its call: it goes
    downstream at once, followed only by further deliveries. *)
Theorem in_order_delivered_at_once (C n : Z) (d : tridentDispatcher) (p : packetBuffer) :
  pow2 C -> 1 <= n -> stable C d -> valid p ->
  seq d = 0 \/ Seq (decoder p) = seq d ->
  exists d' rest dr,
    cacheLookup C n d p = Some (d', Put (slaveOf n p) p :: rest, dr, 0) /\
    released rest = [].
Proof. intros HC Hn. apply cacheLookup_at_head; assumption. Qed.

Lemma in_order_delivered_at_once_witness :
  exists d' rest dr,
    cacheLookup 4 1 holding_1002 (pkt 1001 12)
      = Some (d', Put (slaveOf 1 (pkt 1001 12)) (pkt 1001 12) :: rest, dr, 0) /\
    released rest = [].
Proof.
  apply (in_order_delivered_at_once 4 1 holding_1002 (pkt 1001 12)).
  - exact pow2_4.
  - lia.
  - exact stable_holding_1002.
  - apply valid_pkt; lia.
  - right. reflexivity.
Defined.

(** X13. A call that detects a restart returns one drop exactly when the
    sequence number of the packet exceeds the cache size, and none
    otherwise; it releases the packets held and adds its drop to
    [dispatcher.dropped]. *)
Theorem restart_drop_count (C n : Z) (d : tridentDispatcher) (p : packetBuffer) :
  pow2 C -> 1 <= n -> shape C d -> valid p -> is_restart d p = true ->
  1 <= Seq (decoder p) -> Seq (decoder p) + C < 2 ^ 64 ->
  exists d' out,
    cacheLookup C n d p = Some (d', out, (if C <? Seq (decoder p) then 1 else 0), 0) /\
    released out = cached d /\
    dropped d' = (if C <? Seq (decoder p) then u64 (dropped d + 1) else dropped d).
Proof. intros HC Hn. apply cacheLookup_restart_drops; assumption. Qed.

Lemma restart_drop_count_witness :
  exists d' out,
    cacheLookup 4 1 holding_1002 (pkt 3 12)
      = Some (d', out, (if 4 <? Seq (decoder (pkt 3 12)) then 1 else 0), 0) /\
    released out = cached holding_1002 /\
    dropped d' = (if 4 <? Seq (decoder (pkt 3 12))
                  then u64 (dropped holding_1002 + 1) else dropped holding_1002).
Proof.
  apply (restart_drop_count 4 1 holding_1002 (pkt 3 12)).
  - exact pow2_4.
  - lia.
  - split; [reflexivity|reflexivity|simpl; lia].
  - apply valid_pkt; lia.
  - reflexivity.
  - simpl. lia.
  - simpl. lia.
Defined.

(** X14. The first packet a freshly allocated window sees (its sequence
    number being at least 1) seeds the window and goes straight downstream:
    it is the only event, nothing is dropped, and the window is left empty
    with its head one past the packet. *)
Theorem first_packet_delivered (C n : Z) (p : packetBuffer) :
  pow2 C -> 1 <= n -> valid p -> 1 <= Seq (decoder p) -> Seq (decoder p) + C < 2 ^ 64 ->
  exists d',
    cacheLookup C n (freshDispatcher C) p = Some (d', [Put (slaveOf n p) p], 0, 0) /\
    seq d' = Seq (decoder p) + 1 /\ cached d' = [] /\
    maxTimestamp d' = Z.max 0 (Decoder.timestamp (decoder p)).
Proof. intros HC Hn. apply cacheLookup_first; assumption. Qed.

Lemma first_packet_delivered_witness :
  exists d',
    cacheLookup 4 1 (freshDispatcher 4) (pkt 1000 10)
      = Some (d', [Put (slaveOf 1 (pkt 1000 10)) (pkt 1000 10)], 0, 0) /\
    seq d' = Seq (decoder (pkt 1000 10)) + 1 /\ cached d' = [] /\
    maxTimestamp d' = Z.max 0 (Decoder.timestamp (decoder (pkt 1000 10))).
Proof.
  apply (first_packet_delivered 4 1 (pkt 1000 10)).
  - exact pow2_4.
  - lia.
  - apply valid_pkt; lia.
  - simpl. lia.
  - simpl. lia.
Defined.

(** X15. A call loses no packet: when no packet held carries the sequence
    number of the incoming one, the packets handed downstream, released and
    held after the call are exactly the incoming packet and the packets held
    before, whichever way the call goes. *)
Theorem packets_conserved (C n : Z) (d : tridentDispatcher) (p : packetBuffer) :
  pow2 C -> 1 <= n -> stable C d -> valid p ->
  (forall q, q ∈ cached d -> Seq (decoder q) <> Seq (decoder p)) ->
  exists d' out dr ex,
    cacheLookup C n d p = Some (d', out, dr, ex) /\
    delivered out ++ released out ++ cached d' ≡ₚ p :: cached d.
Proof. intros HC Hn. apply cacheLookup_exact; assumption. Qed.

Lemma packets_conserved_witness :
  exists d' out dr ex,
    cacheLookup 4 1 holding_1002 (pkt 1001 12) = Some (d', out, dr, ex) /\
    delivered out ++ released out ++ cached d' ≡ₚ pkt 1001 12 :: cached holding_1002.
Proof.
  apply (packets_conserved 4 1 holding_1002 (pkt 1001 12)).
  - exact pow2_4.
  - lia.
  - exact stable_holding_1002.
  - apply valid_pkt; lia.
  - intros q Hq. change (cached holding_1002) with [pkt 1002 11] in Hq.
    apply list_elem_of_singleton in Hq as ->. simpl. lia.
Defined.

(** X16. A packet whose sequence number the window already holds takes the
    slot of the packet held, which leaves the window without being handed
    downstream or released: the packets delivered and held after the call
    are those held before, with the incoming packet in place of the one it
    overwrote. *)
Theorem duplicate_replaces_held_packet (C n : Z) (d : tridentDispatcher)
    (p q : packetBuffer) (k : Z) :
  pow2 C -> 1 <= n -> stable C d -> valid p ->
  0 <= k < C -> slot C d k = Some (Some q) ->
  Seq (decoder p) = Seq (decoder q) -> is_backward d p = false ->
  exists d' out dr,
    cacheLookup C n d p = Some (d', out, dr, 0) /\
    q :: delivered out ++ cached d' ≡ₚ p :: cached d /\
    released out = [].
Proof. intros HC Hn. apply cacheLookup_duplicate; assumption. Qed.

Lemma duplicate_replaces_held_packet_witness :
  exists d' out dr,
    cacheLookup 4 1 holding_1002 (pkt 1002 12) = Some (d', out, dr, 0) /\
    pkt 1002 11 :: delivered out ++ cached d' ≡ₚ pkt 1002 12 :: cached holding_1002 /\
    released out = [].
Proof.
  apply (duplicate_replaces_held_packet 4 1 holding_1002 (pkt 1002 12) (pkt 1002 11) 1).
  - exact pow2_4.
  - lia.
  - exact stable_holding_1002.
  - apply valid_pkt; lia.
  - lia.
  - reflexivity.
  - reflexivity.
  - reflexivity.
Defined.

(** X17. When a call that is not a stale reorder returns, either the window
    holds no packet, or the timestamp of the slot at its head is zero or at
    most [TRIDENT_TIMEOUT] before the timestamp of the packet: the final
    flush gives up a missing packet only on a timeout. *)
Theorem final_flush_exit (C n : Z) (d : tridentDispatcher) (p : packetBuffer) :
  pow2 C -> 1 <= n -> stable C d -> valid p -> is_stale d p = false ->
  exists d' out dr,
    cacheLookup C n d p = Some (d', out, dr, 0) /\
    (cached d' = [] \/
     exists t, index (timestamp d') (startIndex d') = Some t /\
               (t = 0 \/ i64 (Decoder.timestamp (decoder p) - t) <= TRIDENT_TIMEOUT)).
Proof. intros HC Hn. apply cacheLookup_exit; assumption. Qed.

Lemma final_flush_exit_witness :
  exists d' out dr,
    cacheLookup 4 1 holding_1002 (pkt 1003 12) = Some (d', out, dr, 0) /\
    (cached d' = [] \/
     exists t, index (timestamp d') (startIndex d') = Some t /\
               (t = 0 \/ i64 (Decoder.timestamp (decoder (pkt 1003 12)) - t)
                         <= TRIDENT_TIMEOUT)).
Proof.
  apply (final_flush_exit 4 1 holding_1002 (pkt 1003 12)).
  - exact pow2_4.
  - lia.
  - exact stable_holding_1002.
  - apply valid_pkt; lia.
  - reflexivity.
Defined.

(** X18. [findAndAdd] does not check the dispatcher index of the packet:
    an index outside the sixteen dispatchers of an instance is an index out
    of range, a run-time panic. *)
Theorem dispatcher_index_out_of_range (a : TridentAdapter) (p : packetBuffer) :
  adapter_ok a ->
  ~ (0 <= tridentDispatcherIndex (decoder p) < TRIDENT_DISPATCHER_MAX) ->
  findAndAdd a p = None.
Proof. apply findAndAdd_out_of_range. Qed.

Lemma dispatcher_index_out_of_range_witness :
  findAndAdd (NewTridentAdapter 1 4) beyond_dispatchers = None.
Proof.
  apply (dispatcher_index_out_of_range (NewTridentAdapter 1 4) beyond_dispatchers).
  - apply new_adapter_ok. lia.
  - unfold TRIDENT_DISPATCHER_MAX. simpl. lia.
Defined.

(** X19. [findAndAdd] on a packet with a dispatcher index in range returns,
    counts the packet, and touches one window only: the instances of other
    senders and the other dispatchers of the sender are as before, no
    sender is removed, and the cache size, the slaves and [RxErrors] are
    kept. *)
Theorem findAndAdd_touches_one_window (a : TridentAdapter) (p : packetBuffer) :
  adapter_ok a -> routable p ->
  exists a' out,
    findAndAdd a p = Some (a', out) /\
    cacheSize a' = cacheSize a /\ slaves a' = slaves a /\
    RxPackets (counter a') = u64 (RxPackets (counter a) + 1) /\
    RxErrors (counter a') = RxErrors (counter a) /\
    (forall ip, ip <> tridentIp p -> instances a' !! ip = instances a !! ip) /\
    (forall j, j <> Z.to_nat (tridentDispatcherIndex (decoder p)) ->
       instanceOf a' (tridentIp p) !! j = instanceOf a (tridentIp p) !! j) /\
    (forall ip, is_Some (instances a !! ip) -> is_Some (instances a' !! ip)).
Proof. apply findAndAdd_frame. Qed.

Lemma findAndAdd_touches_one_window_witness :
  exists a' out,
    findAndAdd (NewTridentAdapter 1 4) (pkt 1 1) = Some (a', out) /\
    cacheSize a' = cacheSize (NewTridentAdapter 1 4) /\
    slaves a' = slaves (NewTridentAdapter 1 4) /\
    RxPackets (counter a') = u64 (RxPackets (counter (NewTridentAdapter 1 4)) + 1) /\
    RxErrors (counter a') = RxErrors (counter (NewTridentAdapter 1 4)) /\
    (forall ip, ip <> tridentIp (pkt 1 1) ->
       instances a' !! ip = instances (NewTridentAdapter 1 4) !! ip) /\
    (forall j, j <> Z.to_nat (tridentDispatcherIndex (decoder (pkt 1 1))) ->
       instanceOf a' (tridentIp (pkt 1 1)) !! j
       = instanceOf (NewTridentAdapter 1 4) (tridentIp (pkt 1 1)) !! j) /\
    (forall ip, is_Some (instances (NewTridentAdapter 1 4) !! ip) ->
       is_Some (instances a' !! ip)).
Proof.
  apply (findAndAdd_touches_one_window (NewTridentAdapter 1 4) (pkt 1 1)).
  - apply new_adapter_ok. lia.
  - apply routable_pkt; lia.
Defined.

(** X20. Over a batch of fewer than [2^64] datagrams the receive loop counts
    in [RxErrors] the datagrams whose header is rejected and releases each
    of them; the cache size and the slaves stay as [NewTridentAdapter] set
    them. *)
Theorem rejected_counted_and_released (nq size : Z) (batch : list (bool * packetBuffer)) :
  1 <= nq ->
  Forall (fun x => fst x = false -> routable (snd x)) batch ->
  Z.of_nat (length batch) < 2 ^ 64 ->
  exists a out,
    receiveAll (NewTridentAdapter nq size) batch = Some (a, out) /\
    RxErrors (counter a) = Z.of_nat (length (rejected batch)) /\
    (forall q, q ∈ rejected batch -> q ∈ released out) /\
    cacheSize a = u64 (minPowerOfTwo size) /\ slaves a = nq.
Proof.
  intros Hn Hall Hlen.
  destruct (receiveAll_counts batch (NewTridentAdapter nq size) 0)
    as (a & out & E & _ & Hc & Hs & He & Hrel & _).
  - apply new_adapter_ok. exact Hn.
  - exact Hall.
  - reflexivity.
  - exists a, out. split; [exact E|]. split; [|auto].
    rewrite He. apply u64_small.
    assert (length (rejected batch) <= length batch)%nat.
    { unfold rejected. rewrite length_fmap. apply length_filter. }
    lia.
Qed.

Lemma rejected_counted_and_released_witness :
  exists a out,
    receiveAll (NewTridentAdapter 1 4) mixed_batch = Some (a, out) /\
    RxErrors (counter a) = Z.of_nat (length (rejected mixed_batch)) /\
    (forall q, q ∈ rejected mixed_batch -> q ∈ released out) /\
    cacheSize a = u64 (minPowerOfTwo 4) /\ slaves a = 1.
Proof.
  apply (rejected_counted_and_released 1 4 mixed_batch).
  - lia.
  - constructor; [simpl; discriminate|].
    constructor; [intros _; apply routable_pkt; lia|]. constructor.
  - simpl. lia.
Defined.

(** X21. At every point of a run of the adapter, [RxDropped] is, in
    [uint64], the sum of the [dropped] fields of all windows of all
    senders. *)
Theorem RxDropped_sums_windows (nq size : Z) (batch : list (bool * packetBuffer)) :
  1 <= nq ->
  Forall (fun x => fst x = false -> routable (snd x)) batch ->
  exists a out,
    receiveAll (NewTridentAdapter nq size) batch = Some (a, out) /\
    RxDropped (counter a) = u64 (droppedIn (instances a)).
Proof.
  intros Hn Hall.
  destruct (receiveAll_counts batch (NewTridentAdapter nq size) 0)
    as (a & out & E & _ & _ & _ & _ & _ & Hl).
  - apply new_adapter_ok. exact Hn.
  - exact Hall.
  - reflexivity.
  - exists a, out. split; [exact E|]. apply Hl. apply new_adapter_lost.
Qed.

Lemma RxDropped_sums_windows_witness :
  exists a out,
    receiveAll (NewTridentAdapter 1 4) jump_batch = Some (a, out) /\
    RxDropped (counter a) = u64 (droppedIn (instances a)).
Proof.
  apply (RxDropped_sums_windows 1 4 jump_batch).
  - lia.
  - constructor; [intros _; apply routable_pkt; lia|].
    constructor; [intros _; apply routable_pkt; lia|]. constructor.
Defined.

(** X22. A packet two windows or more ahead of the head makes the forced
    flush pass every slot: each packet the window held is handed downstream
    by that call, none is discarded, and the window then reaches the
    packet. *)
Theorem overflow_flushes_held_packets (C n : Z) (d : tridentDispatcher)
    (p : packetBuffer) :
  pow2 C -> 1 <= n -> stable C d -> valid p ->
  1 <= seq d -> seq d + 2 * C - 1 <= Seq (decoder p) -> Seq (decoder p) + C < 2 ^ 64 ->
  exists d' out dr,
    cacheLookup C n d p = Some (d', out, dr, 0) /\
    (forall q, q ∈ cached d -> q ∈ delivered out) /\
    Seq (decoder p) - C < seq d'.
Proof. intros HC Hn. apply cacheLookup_overflow; assumption. Qed.

Lemma overflow_flushes_held_packets_witness :
  exists d' out dr,
    cacheLookup 4 1 holding_1002 (pkt 1010 12) = Some (d', out, dr, 0) /\
    (forall q, q ∈ cached holding_1002 -> q ∈ delivered out) /\
    Seq (decoder (pkt 1010 12)) - 4 < seq d'.
Proof.
  apply (overflow_flushes_held_packets 4 1 holding_1002 (pkt 1010 12)).
  - exact pow2_4.
  - lia.
  - exact stable_holding_1002.
  - apply valid_pkt; lia.
  - simpl. lia.
  - simpl. lia.
  - simpl. lia.
Defined.

(** X23. The first datagram of a sender the adapter has not seen (its
    sequence number being at least 1) goes straight downstream, to the
    slave chosen by the hash [calcHash] has stored in it: the receive loop
    counts one packet, no drop and no reorder drop, and the sender has an
    instance from then on. *)
Theorem first_datagram_of_sender_delivered (a : TridentAdapter) (p : packetBuffer) :
  adapter_ok a -> routable p -> instances a !! tridentIp p = None ->
  1 <= Seq (decoder p) -> Seq (decoder p) + cacheSize a < 2 ^ 64 ->
  let q := mkPacket (buffer p) (tridentIp p) (decoder p) (calcHash p) in
  exists a',
    receive a false p = Some (a', [Put (slaveOf (slaves a) q) q]) /\
    RxPackets (counter a') = u64 (RxPackets (counter a) + 1) /\
    RxDropped (counter a') = u64 (RxDropped (counter a)) /\
    RxExpired (counter a') = u64 (RxExpired (counter a)) /\
    is_Some (instances a' !! tridentIp p).
Proof. apply receive_first. Qed.

Lemma first_datagram_of_sender_delivered_witness :
  let q := mkPacket (buffer (hashed 0)) (tridentIp (hashed 0)) (decoder (hashed 0))
                    (calcHash (hashed 0)) in
  exists a',
    receive (NewTridentAdapter 2 4) false (hashed 0)
      = Some (a', [Put (slaveOf (slaves (NewTridentAdapter 2 4)) q) q]) /\
    RxPackets (counter a') = u64 (RxPackets (counter (NewTridentAdapter 2 4)) + 1) /\
    RxDropped (counter a') = u64 (RxDropped (counter (NewTridentAdapter 2 4))) /\
    RxExpired (counter a') = u64 (RxExpired (counter (NewTridentAdapter 2 4))) /\
    is_Some (instances a' !! tridentIp (hashed 0)).
Proof.
  apply (first_datagram_of_sender_delivered (NewTridentAdapter 2 4) (hashed 0)).
  - apply new_adapter_ok. lia.
  - split; [split; simpl; lia|]. unfold TRIDENT_DISPATCHER_MAX. simpl. lia.
  - reflexivity.
  - simpl. lia.
  - vm_compute. reflexivity.
Defined.

